(** * Recursive removal (src/remove.ts): model and verification

    The development embeds [Remove] and its local helpers [valid],
    [descriptors], [remap], [clean] and [finalize] over an interface of the
    Node.js primitives they call ([fs.realpath], [fs.readdir], [fs.unlink],
    [fs.rm], [path.resolve], [path.join], [console.debug], ...).

    Part I holds the definitions: the path functions, the data model, the
    interface of the host filesystem, the promise monad, the program, and an
    in-memory filesystem implementing the interface.  Part II holds the
    lemmas and the properties of the specification. *)

From Stdlib Require Import String Ascii List Bool Arith Lia Permutation.
Import ListNotations.
Open Scope string_scope.
Open Scope list_scope.

Notation "s +++ t" := (String.append s t)
  (at level 60, right associativity) : string_scope.

(* ===================================================================== *)
(** * Part I: definitions                                                 *)
(* ===================================================================== *)

(** ** Node's POSIX [path] module, on strings *)

Module Path.

Definition sep : ascii := "/"%char.

(** The pieces of [s] between separators; never the empty list. *)
Fixpoint split (s : string) : list string :=
  match s with
  | EmptyString => [EmptyString]
  | String c rest =>
      if Ascii.eqb c sep then EmptyString :: split rest
      else match split rest with
           | [] => [String c EmptyString]
           | seg :: segs => String c seg :: segs
           end
  end.

(** One step of [normalizeString]: the stack [res] holds the segments kept so
    far, most recent first. *)
Definition step (allowAboveRoot : bool) (res : list string) (seg : string)
  : list string :=
  if seg =? "" then res
  else if seg =? "." then res
  else if seg =? ".." then
    match res with
    | last :: res' =>
        if last =? ".." then (if allowAboveRoot then ".." :: res else res)
        else res'
    | [] => if allowAboveRoot then [".."] else []
    end
  else seg :: res.

Definition stack (allowAboveRoot : bool) (res : list string)
  (segs : list string) : list string :=
  fold_left (step allowAboveRoot) segs res.

Definition normalizeString (path : string) (allowAboveRoot : bool) : string :=
  String.concat "/" (rev (stack allowAboveRoot [] (split path))).

Definition isAbsolute (path : string) : bool :=
  match path with
  | String c _ => Ascii.eqb c sep
  | EmptyString => false
  end.

Fixpoint trailingSeparator (path : string) : bool :=
  match path with
  | EmptyString => false
  | String c EmptyString => Ascii.eqb c sep
  | String _ rest => trailingSeparator rest
  end.

(** [path.normalize] *)
Definition normalize (path : string) : string :=
  if path =? "" then "."
  else
    let absolute := isAbsolute path in
    let trailing := trailingSeparator path in
    let body := normalizeString path (negb absolute) in
    if body =? "" then
      (if absolute then "/" else if trailing then "./" else ".")
    else
      let body := if trailing then body +++ "/" else body in
      if absolute then "/" +++ body else body.

(** [path.join (...args)] *)
Definition join (args : list string) : string :=
  let parts := filter (fun a => negb (a =? "")) args in
  match parts with
  | [] => "."
  | _ => normalize (String.concat "/" parts)
  end.

(** The right-to-left loop of [path.resolve]: [paths] is the argument list
    reversed, followed by the working directory. *)
Fixpoint resolveLoop (paths : list string) (resolvedPath : string)
  : string * bool :=
  match paths with
  | [] => (resolvedPath, false)
  | path :: more =>
      if path =? "" then resolveLoop more resolvedPath
      else
        let resolvedPath := path +++ "/" +++ resolvedPath in
        if isAbsolute path then (resolvedPath, true)
        else resolveLoop more resolvedPath
  end.

(** [path.resolve (...args)], with [process.cwd ()] passed as [cwd]. *)
Definition resolve (cwd : string) (args : list string) : string :=
  let '(resolvedPath, resolvedAbsolute) :=
    resolveLoop (rev args ++ [cwd]) "" in
  let resolvedPath := normalizeString resolvedPath (negb resolvedAbsolute) in
  if resolvedAbsolute then "/" +++ resolvedPath
  else if resolvedPath =? "" then "." else resolvedPath.

(** No separator occurs in [s]. *)
Fixpoint sepFree (s : string) : bool :=
  match s with
  | EmptyString => true
  | String c rest => negb (Ascii.eqb c sep) && sepFree rest
  end.

(** A base name: what a directory entry is called.  Not empty, not [.] nor
    [..], and without separator. *)
Definition baseName (s : string) : bool :=
  negb (s =? "") && negb (s =? ".") && negb (s =? "..") && sepFree s.

(** The absolute path made of the segments [segs]. *)
Definition ofSegments (segs : list string) : string :=
  "/" +++ String.concat "/" segs.

(** The segments an absolute path names, counted from the root. *)
Definition segments (path : string) : list string :=
  rev (stack false [] (split path)).

(** The segments that [resolve cwd args] arrives at. *)
Definition resolvedSegments (cwd : string) (args : list string)
  : list string :=
  rev (stack false [] (split (fst (resolveLoop (rev args ++ [cwd]) "")))).

(** Empty, or ending with a separator. *)
Definition sepTerminated (s : string) : Prop :=
  s = "" \/ exists s', s = (s' +++ "/")%string.

(** [l1] is an initial part of [l2]. *)
Definition prefix (l1 l2 : list string) : Prop :=
  exists rest, l2 = l1 ++ rest.

Fixpoint prefixb (l1 l2 : list string) : bool :=
  match l1, l2 with
  | [], _ => true
  | a :: l1', b :: l2' => (a =? b) && prefixb l1' l2'
  | _ :: _, [] => false
  end.

End Path.

(** ** Data model *)

(** [NodeJS.ErrnoException], with the fields the program reads or writes. *)
Record ErrnoException := { code : string; syscall : string }.

(** [Exception = NodeJS.ErrnoException | null]: [None] is [null]. *)
Definition Exception := option ErrnoException.

(** The type of a directory entry, as [fs.Dirent] holds it: one value, so the
    [isFile ()], [isDirectory ()], ... tests of one entry exclude each other. *)
Inductive DirentType :=
| DT_REG | DT_DIR | DT_SOCK | DT_LNK | DT_FIFO | DT_CHR | DT_BLK | DT_UNKNOWN.

Record Dirent := { dirent_name : string; dirent_type : DirentType }.

Definition isFile (d : Dirent) : bool :=
  match dirent_type d with DT_REG => true | _ => false end.
Definition isDirectory (d : Dirent) : bool :=
  match dirent_type d with DT_DIR => true | _ => false end.
Definition isSocket (d : Dirent) : bool :=
  match dirent_type d with DT_SOCK => true | _ => false end.
Definition isSymbolicLink (d : Dirent) : bool :=
  match dirent_type d with DT_LNK => true | _ => false end.

(** [Descriptor] and its [properties]. *)
Record Properties :=
  { file : bool; directory : bool; socket : bool; symbolic : bool }.

Record Descriptor :=
  { name : string; path : string; properties : Properties }.

(** The options object of [fs.rm]; a field left out is [false]. *)
Record RmOptions := { force : bool; recursive : bool }.

(** JavaScript truthiness of a string ([!!s], [s && ...]). *)
Definition truthy (s : string) : bool := negb (s =? "").

(** [exception !== null] *)
Definition notNull (exception : Exception) : bool :=
  match exception with Some _ => true | None => false end.

(** [exception.code = c]: the object after the assignment. *)
Definition assignCode (exception : ErrnoException) (c : string)
  : ErrnoException :=
  {| code := c; syscall := syscall exception |}.

Definition newline : string := String (ascii_of_nat 10) EmptyString.

(** ** The host: filesystem primitives and process state *)

(** What the program asks of Node: the four [fs] calls with the value their
    callback receives, and [process.cwd ()].  [fs_node] is what is stored at
    a location (a list of segments from the root); the program never calls
    it, the properties of the specification are stated with it. *)
Class FileSystem (World : Type) := {
  Node : Type;
  fs_cwd : string;
  fs_realpath : World -> string -> ErrnoException + string;
  fs_readdir : World -> string -> ErrnoException + list Dirent;
  fs_unlink : World -> string -> Exception * World;
  fs_rm : World -> string -> RmOptions -> Exception * World;
  fs_node : World -> list string -> option Node
}.

(** The location a path string names in the host. *)
Definition location {World} {FS : FileSystem World} (p : string)
  : list string :=
  Path.segments (Path.resolve fs_cwd [p]).

(** The documented contract of the primitives, as far as the properties
    below rely on it.  Locations are named by absolute paths in normal form,
    and the path given to a primitive names the location it acts on: the
    frame laws are those of a tree in which no directory of such a path is a
    symbolic link.  Where a path goes through a symbolic link to a
    directory the primitives act on what the link points to and these frame
    laws do not hold; the properties that are about symbolic links are
    stated with [TreeContract] below instead. *)
Class FileSystemContract (World : Type) {FS : FileSystem World} : Prop := {
  (** [process.cwd ()] is an absolute path. *)
  cwd_absolute : Path.isAbsolute fs_cwd = true;
  (** [fs.readdir] reports base names. *)
  readdir_names : forall w p files,
    fs_readdir w p = inr files ->
    Forall (fun f => Path.baseName (dirent_name f) = true) files;
  (** After a successful [fs.rm (p, { force, recursive })], [p] does not
      resolve. *)
  rm_purged : forall w p w',
    fs_rm w p {| force := true; recursive := true |} = (None, w') ->
    exists e, fs_realpath w' p = inl e;
  (** [fs.unlink (p)] and [fs.rm (p)] leave every location that is not
      inside [p] as it was. *)
  unlink_frame : forall w p r w',
    fs_unlink w p = (r, w') ->
    forall l, ~ Path.prefix (location p) l -> fs_node w' l = fs_node w l;
  rm_frame : forall w p o r w',
    fs_rm w p o = (r, w') ->
    forall l, ~ Path.prefix (location p) l -> fs_node w' l = fs_node w l
}.

(** The path that [remap] gives the entry [n] of the directory [loc]:
    [Path.join (Path.resolve (loc, n))]. *)
Definition entryPath {World} {FS : FileSystem World} (loc n : string)
  : string :=
  Path.join [Path.resolve fs_cwd [loc; n]].

(** [p] is reached without symbolic link: it resolves, and its real path is
    [p] itself, made absolute.  No directory on the way to [p] is a
    symbolic link, and [p] is none either. *)
Definition physical {World} {FS : FileSystem World} (w : World) (p : string)
  : Prop :=
  fs_realpath w p = inr (Path.resolve fs_cwd [p]).

(** What the primitives do inside a directory that is reached without
    symbolic link.  Unlike the frame laws above, these laws say nothing of
    a path that goes through a symbolic link: there a primitive acts on
    what the link points to.
    - [fs.readdir] reports each name once, and an entry that it reports as
      a directory is a directory, not a link to one.
    - [fs.unlink] of an entry changes that entry only; when it succeeds the
      entry is gone.
    - [fs.rm] with [force] and without [recursive] changes nothing outside
      the entry; when it succeeds the entry is gone.
    - [fs.rm] with [force] and [recursive] changes nothing outside the tree
      of its target: it removes the links it meets, not what they point to.
    - What was reached without symbolic link and lies outside the entry
      that is changed is still reached so afterwards. *)
Class TreeContract (World : Type) {FS : FileSystem World} : Prop := {
  tree_cwd : Path.isAbsolute fs_cwd = true;
  tree_names : forall w p files,
    fs_readdir w p = inr files ->
    Forall (fun f => Path.baseName (dirent_name f) = true) files;
  tree_distinct : forall w p files,
    fs_readdir w p = inr files -> NoDup (map dirent_name files);
  tree_directory : forall w loc files f,
    physical w loc ->
    fs_readdir w loc = inr files ->
    In f files ->
    isDirectory f = true ->
    physical w (entryPath loc (dirent_name f));
  tree_unlink : forall w loc n r w',
    physical w loc ->
    Path.baseName n = true ->
    fs_unlink w (entryPath loc n) = (r, w') ->
    (forall l, l <> location loc ++ [n] -> fs_node w' l = fs_node w l) /\
    (forall q, physical w q -> location q <> location loc ++ [n] ->
               physical w' q) /\
    (r = None -> fs_node w' (location loc ++ [n]) = None);
  tree_retry : forall w loc n r w',
    physical w loc ->
    Path.baseName n = true ->
    fs_rm w (entryPath loc n) {| force := true; recursive := false |}
      = (r, w') ->
    (forall l, ~ Path.prefix (location loc ++ [n]) l ->
               fs_node w' l = fs_node w l) /\
    (forall q, physical w q ->
               ~ Path.prefix (location loc ++ [n]) (location q) ->
               physical w' q) /\
    (r = None -> fs_node w' (location loc ++ [n]) = None);
  tree_purge : forall w target r w',
    physical w target ->
    fs_rm w target {| force := true; recursive := true |} = (r, w') ->
    forall l, ~ Path.prefix (location target) l ->
              fs_node w' l = fs_node w l
}.

(** ** Observable events *)

Inductive event :=
| FsRealpath (p : string)
| FsReaddir (p : string)
| FsUnlink (p : string)
| FsRm (p : string) (o : RmOptions)
| ConsoleDebug (args : list string)
| ConsoleWarn (exception : Exception)
| StdoutWrite (s : string).

(** ** Promises *)

(** How an awaited computation ends.  [Rejected] is a rejection, which an
    enclosing [try]/[catch] of the awaiting function receives.  [Uncaught] is
    an exception thrown inside a callback that Node invokes: it settles no
    promise and is handed to no [catch]; it ends the run with that error, as
    Node ends the process on an uncaught exception.  [Pending] is a promise
    that nothing will settle: whatever awaits it never continues.
    [OutOfFuel] belongs to the model only: the nesting of directories
    exceeded the fuel. *)
Inductive outcome (A : Type) :=
| Resolved (a : A)
| Rejected (error : ErrnoException)
| Uncaught (error : ErrnoException)
| Pending
| OutOfFuel.

Arguments Resolved {A} a.
Arguments Rejected {A} error.
Arguments Uncaught {A} error.
Arguments Pending {A}.
Arguments OutOfFuel {A}.

Declare Scope promise_scope.
Delimit Scope promise_scope with promise.

Section Program.

Context {World : Type} {FS : FileSystem World}.

(** A computation: from the world before to the outcome, the world after and
    the events issued, in order. *)
Definition M (A : Type) : Type := World -> outcome A * World * list event.

Definition ret {A} (a : A) : M A := fun w => (Resolved a, w, []).

(** [await m], then [k]. *)
Definition bind {A B} (m : M A) (k : A -> M B) : M B := fun w =>
  match m w with
  | (Resolved a, w1, t1) =>
      let '(o, w2, t2) := k a w1 in (o, w2, t1 ++ t2)
  | (Rejected e, w1, t1) => (Rejected e, w1, t1)
  | (Uncaught e, w1, t1) => (Uncaught e, w1, t1)
  | (Pending, w1, t1) => (Pending, w1, t1)
  | (OutOfFuel, w1, t1) => (OutOfFuel, w1, t1)
  end.

Notation "'await' x <- m ;; k" := (bind m (fun x => k))
  (at level 10, x name, m at level 100, k at level 200) : promise_scope.
Local Open Scope promise_scope.

(** [throw] where the enclosing async function turns it into a rejection. *)
Definition throw {A} (error : ErrnoException) : M A :=
  fun w => (Rejected error, w, []).

(** [throw] inside a callback of an [fs] call. *)
Definition throwInCallback {A} (error : ErrnoException) : M A :=
  fun w => (Uncaught error, w, []).

(** A promise whose [resolve] and [reject] are never called. *)
Definition never {A} : M A := fun w => (Pending, w, []).

Definition outOfFuel {A} : M A := fun w => (OutOfFuel, w, []).

(** [try { body } catch (error) { handler }] *)
Definition tryCatch {A} (body : M A) (handler : ErrnoException -> M A)
  : M A := fun w =>
  match body w with
  | (Rejected error, w1, t1) =>
      let '(o, w2, t2) := handler error w1 in (o, w2, t1 ++ t2)
  | r => r
  end.

(** [for await (const x of xs) { await body (x) }] *)
Fixpoint forEach {A} (xs : list A) (body : A -> M unit) : M unit :=
  match xs with
  | [] => ret tt
  | x :: rest => await _ <- body x ;; forEach rest body
  end.

(** The calls into Node, each with what its callback receives.  The path is
    one that the validation of the call accepts: on a string that holds a
    NUL character the call throws at once, without calling back, and the
    model does not cover that case. *)
Definition FS_realpath (p : string) : M (ErrnoException + string) :=
  fun w => (Resolved (fs_realpath w p), w, [FsRealpath p]).

Definition FS_readdir (p : string) : M (ErrnoException + list Dirent) :=
  fun w => (Resolved (fs_readdir w p), w, [FsReaddir p]).

Definition FS_unlink (p : string) : M Exception :=
  fun w => let '(exception, w') := fs_unlink w p in
           (Resolved exception, w', [FsUnlink p]).

Definition FS_rm (p : string) (o : RmOptions) : M Exception :=
  fun w => let '(exception, w') := fs_rm w p o in
           (Resolved exception, w', [FsRm p o]).

Definition console_debug (args : list string) : M unit :=
  fun w => (Resolved tt, w, [ConsoleDebug args]).

Definition console_warn (exception : Exception) : M unit :=
  fun w => (Resolved tt, w, [ConsoleWarn exception]).

Definition stdout_write (s : string) : M unit :=
  fun w => (Resolved tt, w, [StdoutWrite s]).

(** ** The program: [Remove] and its helpers (src/remove.ts) *)

(** [valid]: [resolve ((exception) ? false : !!(path))] *)
Definition valid (descriptor : string) : M bool :=
  await r <- FS_realpath descriptor ;;
  ret (match r with
       | inl exception => false
       | inr resolved => truthy resolved
       end).

(** [remap], the function inside [descriptors]. *)
Definition remap (location : string) (files : list Dirent)
  : list Descriptor :=
  map (fun descriptor =>
         let canonical :=
           Path.join [Path.resolve fs_cwd [location; dirent_name descriptor]]
         in
         {| name := dirent_name descriptor;
            path := canonical;
            properties :=
              {| file := isFile descriptor;
                 directory := isDirectory descriptor;
                 socket := isSocket descriptor;
                 symbolic := isSymbolicLink descriptor |} |})
      files.

(** [descriptors]: the callback of [FS.readdir] throws the exception it
    receives, or resolves with the remapped entries. *)
Definition descriptors (location : string) : M (list Descriptor) :=
  await r <- FS_readdir location ;;
  match r with
  | inl exception => throwInCallback exception
  | inr files => ret (remap location files)
  end.

(** The callback of [FS.unlink] in [clean]; it ends with [resolve (null)]. *)
Definition unlinked (descriptor : Descriptor) (exception : Exception)
  : M unit :=
  await _ <-
    match exception with
    | Some e =>
        let e := assignCode e "EPERM" in
        if truthy (code e)
        then await _ <- FS_rm (path descriptor)
                          {| force := true; recursive := false |} ;;
             ret tt
        else ret tt
    | None =>
        if notNull exception then console_warn exception else ret tt
    end ;;
  ret tt.

(** The [default] branch of [clean]: the promise is resolved by the callback
    of [FS.unlink] and by nothing else. *)
Definition leaf (descriptor : Descriptor) : M unit :=
  await existence <- valid (path descriptor) ;;
  await _ <- console_debug ["[Debug] Removing"; path descriptor; "..."] ;;
  if existence
  then await exception <- FS_unlink (path descriptor) ;;
       unlinked descriptor exception
  else never.

(** [clean].  The fuel bounds the nesting of directories below
    [descriptor]. *)
Fixpoint clean (fuel : nat) (descriptor : Descriptor) : M unit :=
  let recurse := directory (properties descriptor) in
  if recurse
  then await handlers <- descriptors (path descriptor) ;;
       forEach handlers
         (match fuel with
          | O => fun _ => outOfFuel
          | S fuel' => clean fuel'
          end)
  else leaf descriptor.

(** [finalize]: the callback of [FS.rm] throws the exception it receives. *)
Definition finalize (target : string) : M unit :=
  await exception <- FS_rm target {| force := true; recursive := true |} ;;
  match exception with
  | Some e => throwInCallback e
  | None => ret tt
  end.

(** [Remove] *)
Definition Remove (fuel : nat) (target : string) : M unit :=
  await _ <-
    tryCatch
      (await found <- valid target ;;
       if found
       then await _ <- console_debug [" - Pre-Existing Directory Found"] ;;
            await _ <- stdout_write newline ;;
            await _ <- console_debug
                         ["[Debug]"; "Removing";
                          Path.resolve fs_cwd [target]; "..."] ;;
            await targets <- descriptors target ;;
            await _ <- forEach targets (clean fuel) ;;
            finalize target
       else ret tt)
      (fun error => throw error) ;;
  await _ <- stdout_write newline ;;
  ret tt.


(** ** Vocabulary of the properties *)

Definition outcomeOf {A} (r : outcome A * World * list event) : outcome A :=
  fst (fst r).
Definition worldOf {A} (r : outcome A * World * list event) : World :=
  snd (fst r).
Definition traceOf {A} (r : outcome A * World * list event) : list event :=
  snd r.

(** The purge of the Finalizer: a forced, recursive [fs.rm]. *)
Definition isPurge (e : event) : bool :=
  match e with
  | FsRm _ o => force o && recursive o
  | _ => false
  end.

(** The retry of a leaf: a forced, non-recursive [fs.rm]. *)
Definition isForcedRemoval (e : event) : bool :=
  match e with
  | FsRm _ o => force o && negb (recursive o)
  | _ => false
  end.

Definition isUnlink (e : event) : bool :=
  match e with FsUnlink _ => true | _ => false end.

Definition isReaddir (e : event) : bool :=
  match e with FsReaddir _ => true | _ => false end.

Definition isWarning (e : event) : bool :=
  match e with ConsoleWarn _ => true | _ => false end.

(** What the traversal may issue: probes, listings, unlinks, forced
    removals that are not recursive, and debug lines. *)
Definition walkerEvent (e : event) : bool :=
  match e with
  | FsRealpath _ | FsReaddir _ | FsUnlink _ | ConsoleDebug _ => true
  | FsRm _ o => force o && negb (recursive o)
  | ConsoleWarn _ | StdoutWrite _ => false
  end.

(** The event changes the filesystem. *)
Definition isMutation (e : event) : bool :=
  match e with
  | FsUnlink _ | FsRm _ _ => true
  | _ => false
  end.

(** The path an event hands to the filesystem, if any. *)
Definition eventPath (e : event) : option string :=
  match e with
  | FsRealpath p | FsReaddir p | FsUnlink p | FsRm p _ => Some p
  | _ => None
  end.

Definition count (f : event -> bool) (t : list event) : nat :=
  length (filter f t).

(** PathProbe: what [valid] resolves with in the world [w]. *)
Definition probe (w : World) (p : string) : bool :=
  match fs_realpath w p with
  | inl _ => false
  | inr resolved => truthy resolved
  end.

Definition purgeOptions : RmOptions := {| force := true; recursive := true |}.

Definition retryOptions : RmOptions := {| force := true; recursive := false |}.

(** What [Remove] issues on an existing target before it lists it. *)
Definition prologue (target : string) : list event :=
  [ FsRealpath target;
    ConsoleDebug [" - Pre-Existing Directory Found"];
    StdoutWrite newline;
    ConsoleDebug ["[Debug]"; "Removing"; Path.resolve fs_cwd [target]; "..."] ].

(** What [clean] issues on a leaf at [p] whose unlink succeeds. *)
Definition unlinkTrace (p : string) : list event :=
  [ FsRealpath p; ConsoleDebug ["[Debug] Removing"; p; "..."]; FsUnlink p ].

(** What a call of [Remove] on an absent path issues. *)
Definition absentTrace (target : string) : list event :=
  [ FsRealpath target; StdoutWrite newline ].

(** Every call of [body] on the elements of [xs], made in order, each from
    the world its predecessor left, resolved; [t] is their events, one call
    after the other. *)
Inductive AllSettled {A} (body : A -> M unit)
  : list A -> World -> World -> list event -> Prop :=
| settled_nil w : AllSettled body [] w w []
| settled_cons x xs w w1 t1 w2 t2 :
    body x w = (Resolved tt, w1, t1) ->
    AllSettled body xs w1 w2 t2 ->
    AllSettled body (x :: xs) w w2 (t1 ++ t2).

(** The traversal of [d] from [w] comes to a directory whose listing fails
    with [e]: [d] itself, or a directory below it that is reached after the
    entries before it were cleaned.  [w'] is the world in which that listing
    fails and [t] the events issued from [d] until then, the failed listing
    last. *)
Inductive ReachesUnlistable
  : nat -> Descriptor -> World -> ErrnoException -> World -> list event
    -> Prop :=
| unlistable_here fuel d w e :
    directory (properties d) = true ->
    fs_readdir w (path d) = inl e ->
    ReachesUnlistable fuel d w e w [FsReaddir (path d)]
| unlistable_below fuel d w files before x after w1 t1 e w2 t2 :
    directory (properties d) = true ->
    fs_readdir w (path d) = inr files ->
    remap (path d) files = before ++ x :: after ->
    AllSettled (clean fuel) before w w1 t1 ->
    ReachesUnlistable fuel x w1 e w2 t2 ->
    ReachesUnlistable (S fuel) d w e w2 (FsReaddir (path d) :: t1 ++ t2).

(** A listing failure below the top level is absorbed: the call returns, a
    warning was recorded and the purge was made. *)
Definition absorbed (r : outcome unit * World * list event) : Prop :=
  outcomeOf r = Resolved tt /\
  1 <= count isWarning (traceOf r) /\
  count isPurge (traceOf r) = 1.

(** Every path handed to the filesystem lies at or below [base]. *)
Definition within (base : list string) (t : list event) : Prop :=
  Forall (fun e => forall p, eventPath e = Some p ->
                             Path.prefix base (location p)) t.

(** A run from [w] that stays at or below [base]: in the paths it names and
    in the locations it changes. *)
Definition confined {A} (base : list string) (w : World)
  (r : outcome A * World * list event) : Prop :=
  within base (traceOf r) /\
  forall l, ~ Path.prefix base l -> fs_node (worldOf r) l = fs_node w l.

(** [p] is an absolute path in canonical form, at or below [base]. *)
Definition canonicalBelow (base : list string) (p : string) : Prop :=
  exists segs,
    Forall (fun n => Path.baseName n = true) segs /\
    p = Path.ofSegments segs /\
    Path.prefix base segs.

(** The location [l] holds after the run [r] what it held in [w]. *)
Definition untouched {A} (l : list string) (w : World)
  (r : outcome A * World * list event) : Prop :=
  fs_node (worldOf r) l = fs_node w l.

(** A descriptor as [remap] builds it for the entry [n] of the directory
    [loc]. *)
Definition descriptorOf (loc : string) (f : Dirent) : Descriptor :=
  {| name := dirent_name f;
     path := Path.join [Path.resolve fs_cwd [loc; dirent_name f]];
     properties :=
       {| file := isFile f;
          directory := isDirectory f;
          socket := isSocket f;
          symbolic := isSymbolicLink f |} |}.

End Program.

Notation "'await' x <- m ;; k" := (bind m (fun x => k))
  (at level 10, x name, m at level 100, k at level 200) : promise_scope.

(** ** An in-memory host *)

(** A filesystem small enough to run the program on: a table from locations
    to inodes.  An inode can carry the error that [unlink], [readdir] or
    [rm] reports on it, so that the failure paths of the program can be
    exercised.  A listing reports each name once, in the order of the
    names.  A symbolic link is followed where it ends a path; a path that
    goes through a link to a directory is not found: the examples hold no
    such path. *)
Module MemFS.

Record Inode := {
  kind : DirentType;
  link : string;
  unlinkFault : Exception;
  readdirFault : Exception;
  rmFault : Exception
}.

Definition World := list (list string * Inode).

Definition errno (c s : string) : ErrnoException :=
  {| code := c; syscall := s |}.

Definition plain (k : DirentType) : Inode :=
  {| kind := k; link := ""; unlinkFault := None; readdirFault := None;
     rmFault := None |}.

Definition symlink (target : string) : Inode :=
  {| kind := DT_LNK; link := target; unlinkFault := None;
     readdirFault := None; rmFault := None |}.

(** A file whose [unlink] fails with code [c]; [rm] succeeds on it. *)
Definition stubborn (c : string) : Inode :=
  {| kind := DT_REG; link := ""; unlinkFault := Some (errno c "unlink");
     readdirFault := None; rmFault := None |}.

(** A directory whose listing fails with code [c]. *)
Definition sealed (c : string) : Inode :=
  {| kind := DT_DIR; link := ""; unlinkFault := None;
     readdirFault := Some (errno c "scandir"); rmFault := None |}.

(** A file that neither [unlink] nor [rm] can remove. *)
Definition pinned (c : string) : Inode :=
  {| kind := DT_REG; link := ""; unlinkFault := Some (errno c "unlink");
     readdirFault := None; rmFault := Some (errno c "rm") |}.

Fixpoint eqSegs (l1 l2 : list string) : bool :=
  match l1, l2 with
  | [], [] => true
  | a :: l1', b :: l2' => (a =? b)%string && eqSegs l1' l2'
  | _, _ => false
  end.

Fixpoint lookup (l : list string) (w : World) : option Inode :=
  match w with
  | [] => None
  | (k, i) :: rest => if eqSegs k l then Some i else lookup l rest
  end.

(** Drop every entry at or below [l]. *)
Definition removeUnder (l : list string) (w : World) : World :=
  filter (fun e => negb (Path.prefixb l (fst e))) w.

(** Drop the entry at [l]. *)
Definition removeAt (l : list string) (w : World) : World :=
  filter (fun e => negb (eqSegs (fst e) l)) w.

Definition isDir (i : Inode) : bool :=
  match kind i with DT_DIR => true | _ => false end.

Definition isLink (i : Inode) : bool :=
  match kind i with DT_LNK => true | _ => false end.

(** The name of [k] as a child of [l], when it is one. *)
Fixpoint childName (l k : list string) : option string :=
  match l, k with
  | [], [n] => if Path.baseName n then Some n else None
  | a :: l', b :: k' => if (a =? b)%string then childName l' k' else None
  | _, _ => None
  end.

(** One entry for each row of the table that is a child of [l], with the
    kind that [lookup] finds under that name. *)
Definition rows (l : list string) (w : World) : list Dirent :=
  flat_map (fun e =>
              match childName l (fst e), lookup (fst e) w with
              | Some n, Some i =>
                  [{| dirent_name := n; dirent_type := kind i |}]
              | _, _ => []
              end) w.

(** Keep the first entry of each name. *)
Fixpoint distinct (l : list Dirent) : list Dirent :=
  match l with
  | [] => []
  | f :: rest =>
      f :: filter (fun g => negb (dirent_name g =? dirent_name f)%string)
             (distinct rest)
  end.

Fixpoint insert (f : Dirent) (l : list Dirent) : list Dirent :=
  match l with
  | [] => [f]
  | g :: rest =>
      if String.leb (dirent_name f) (dirent_name g)
      then f :: l
      else g :: insert f rest
  end.

(** Entries in the order of their names, compared byte by byte: the order
    in which [fs.readdir] reports them (libuv sorts the result of
    [scandir] with [strcmp]). *)
Definition sort (l : list Dirent) : list Dirent :=
  fold_right insert [] l.

Definition children (l : list string) (w : World) : list Dirent :=
  sort (distinct (rows l w)).

(** The first error that removing the entries at or below [l] meets. *)
Fixpoint firstFault (l : list string) (w : World) : Exception :=
  match w with
  | [] => None
  | (k, i) :: rest =>
      if Path.prefixb l k
      then match rmFault i with
           | Some e => Some e
           | None => firstFault l rest
           end
      else firstFault l rest
  end.

Section Host.

Variable cwd : string.

Definition locate (p : string) : list string :=
  Path.segments (Path.resolve cwd [p]).

(** Follow symbolic links from [l], at most [hops] of them. *)
Fixpoint follow (hops : nat) (w : World) (l : list string)
  : ErrnoException + list string :=
  match lookup l w with
  | None => inl (errno "ENOENT" "realpath")
  | Some i =>
      if isLink i
      then match hops with
           | O => inl (errno "ELOOP" "realpath")
           | S hops' =>
               follow hops' w
                 (Path.segments
                    (Path.resolve (Path.ofSegments (removelast l)) [link i]))
           end
      else inr l
  end.

Definition realpath (w : World) (p : string) : ErrnoException + string :=
  match follow 40 w (locate p) with
  | inl e => inl e
  | inr l => inr (Path.ofSegments l)
  end.

Definition readdir (w : World) (p : string)
  : ErrnoException + list Dirent :=
  match follow 40 w (locate p) with
  | inl e => inl (errno (code e) "scandir")
  | inr l =>
      match lookup l w with
      | None => inl (errno "ENOENT" "scandir")
      | Some i =>
          if isDir i
          then match readdirFault i with
               | Some e => inl e
               | None => inr (children l w)
               end
          else inl (errno "ENOTDIR" "scandir")
      end
  end.

Definition unlink (w : World) (p : string) : Exception * World :=
  match lookup (locate p) w with
  | None => (Some (errno "ENOENT" "unlink"), w)
  | Some i =>
      match unlinkFault i with
      | Some e => (Some e, w)
      | None =>
          if isDir i then (Some (errno "EISDIR" "unlink"), w)
          else (None, removeAt (locate p) w)
      end
  end.

Definition rm (w : World) (p : string) (o : RmOptions) : Exception * World :=
  match lookup (locate p) w with
  | None => if force o then (None, w) else (Some (errno "ENOENT" "rm"), w)
  | Some i =>
      if isDir i && negb (recursive o)
      then (Some (errno "ERR_FS_EISDIR" "rm"), w)
      else match firstFault (locate p) w with
           | Some e => (Some e, w)
           | None => (None, removeUnder (locate p) w)
           end
  end.

Definition host : FileSystem World := {|
  Node := Inode;
  fs_cwd := cwd;
  fs_realpath := realpath;
  fs_readdir := readdir;
  fs_unlink := unlink;
  fs_rm := rm;
  fs_node := fun w l => lookup l w
|}.

End Host.

(** The process of the examples runs in [/home/ci]. *)
Definition ci : FileSystem World := host "/home/ci".

(** [root/{a.txt, b/{c.txt}, d -> /srv/elsewhere}] below [/home/ci], and the
    directory the link points to. *)
Definition mixed : World :=
  [ (["home"; "ci"; "root"], plain DT_DIR);
    (["home"; "ci"; "root"; "a.txt"], plain DT_REG);
    (["home"; "ci"; "root"; "b"], plain DT_DIR);
    (["home"; "ci"; "root"; "b"; "c.txt"], plain DT_REG);
    (["home"; "ci"; "root"; "d"], symlink "/srv/elsewhere");
    (["srv"; "elsewhere"], plain DT_DIR);
    (["srv"; "elsewhere"; "keep.txt"], plain DT_REG) ].

(** What is left of [mixed] once [root] is gone. *)
Definition elsewhere : World :=
  [ (["srv"; "elsewhere"], plain DT_DIR);
    (["srv"; "elsewhere"; "keep.txt"], plain DT_REG) ].

(** A directory that exists and cannot be listed. *)
Definition locked : World :=
  [ (["locked-dir"], sealed "EACCES");
    (["locked-dir"; "f"], plain DT_REG) ].

(** A directory that holds, after a file, a directory whose subdirectory
    cannot be listed. *)
Definition lockedBelow : World :=
  [ (["home"; "ci"; "root"], plain DT_DIR);
    (["home"; "ci"; "root"; "a.txt"], plain DT_REG);
    (["home"; "ci"; "root"; "b"], plain DT_DIR);
    (["home"; "ci"; "root"; "b"; "sub"], sealed "EACCES");
    (["home"; "ci"; "root"; "b"; "sub"; "f"], plain DT_REG);
    (["home"; "ci"; "root"; "z.txt"], plain DT_REG) ].

(** [lockedBelow] once [a.txt] is unlinked. *)
Definition lockedBelowNext : World :=
  [ (["home"; "ci"; "root"], plain DT_DIR);
    (["home"; "ci"; "root"; "b"], plain DT_DIR);
    (["home"; "ci"; "root"; "b"; "sub"], sealed "EACCES");
    (["home"; "ci"; "root"; "b"; "sub"; "f"], plain DT_REG);
    (["home"; "ci"; "root"; "z.txt"], plain DT_REG) ].

(** A file whose [unlink] fails with [EBUSY]. *)
Definition busy : World :=
  [ (["home"; "ci"; "root"], plain DT_DIR);
    (["home"; "ci"; "root"; "f"], stubborn "EBUSY") ].

(** A file whose [unlink] fails with [EPERM]. *)
Definition denied : World :=
  [ (["home"; "ci"; "root"], plain DT_DIR);
    (["home"; "ci"; "root"; "f"], stubborn "EPERM") ].

(** A file that nothing removes. *)
Definition stuck : World :=
  [ (["home"; "ci"; "root"], plain DT_DIR);
    (["home"; "ci"; "root"; "f"], pinned "EBUSY") ].

(** A symbolic link whose target does not exist. *)
Definition dangling : World :=
  [ (["home"; "ci"; "root"], plain DT_DIR);
    (["home"; "ci"; "root"; "d"], symlink "/srv/nowhere");
    (["home"; "ci"; "root"; "z.txt"], plain DT_REG) ].


(** The listing of [root] in [mixed], and the entries used below. *)
Definition entry (n : string) (k : DirentType) : Dirent :=
  {| dirent_name := n; dirent_type := k |}.

Definition mixedListing : list Dirent :=
  [ entry "a.txt" DT_REG; entry "b" DT_DIR; entry "d" DT_LNK ].

Definition lockedBelowListing : list Dirent :=
  [ entry "a.txt" DT_REG; entry "b" DT_DIR; entry "z.txt" DT_REG ].

Definition descriptorIn (loc : string) (n : string) (k : DirentType)
  : Descriptor :=
  @descriptorOf World ci loc (entry n k).

(** The events of [Remove "root"] in [mixed]. *)
Definition mixedTrace : list event :=
  [ FsRealpath "root";
    ConsoleDebug [" - Pre-Existing Directory Found"];
    StdoutWrite newline;
    ConsoleDebug ["[Debug]"; "Removing"; "/home/ci/root"; "..."];
    FsReaddir "root";
    FsRealpath "/home/ci/root/a.txt";
    ConsoleDebug ["[Debug] Removing"; "/home/ci/root/a.txt"; "..."];
    FsUnlink "/home/ci/root/a.txt";
    FsReaddir "/home/ci/root/b";
    FsRealpath "/home/ci/root/b/c.txt";
    ConsoleDebug ["[Debug] Removing"; "/home/ci/root/b/c.txt"; "..."];
    FsUnlink "/home/ci/root/b/c.txt";
    FsRealpath "/home/ci/root/d";
    ConsoleDebug ["[Debug] Removing"; "/home/ci/root/d"; "..."];
    FsUnlink "/home/ci/root/d";
    FsRm "root" {| force := true; recursive := true |};
    StdoutWrite newline ].

End MemFS.

(** ** Further vocabulary for [remove.ts] *)

(** A path that the validation of the [fs] calls accepts: a string without
    NUL character.  On any other string the calls throw before anything is
    asked of the filesystem. *)
Fixpoint validPath (p : string) : bool :=
  match p with
  | EmptyString => true
  | String c rest => negb (Ascii.eqb c zero) && validPath rest
  end.

(** [Remove] on any string.  [Remove] above is the function on the paths
    that the validation accepts.  On another string [FS.realpath] throws
    inside the executor of the promise of [valid]: that promise is
    rejected, [await valid ()] throws inside the [try] of [Remove], whose
    [catch] throws the error again.  Nothing was asked of the filesystem
    and nothing was written.  The names that [fs.readdir] reports hold no
    NUL character, so the validation of the later calls passes. *)
Module Validated.

(** The [TypeError] of the validation, with its [code]. *)
Definition invalidArgument : ErrnoException :=
  {| code := "ERR_INVALID_ARG_VALUE"; syscall := "" |}.

Definition Remove {World} {FS : FileSystem World} (fuel : nat)
  (target : string) : M unit :=
  if validPath target then Remove fuel target else throw invalidArgument.

End Validated.

(** ** [Reader] (read-directory.ts) *)

Module ReadDirectory.

Section Reader.

Context {World : Type} {FS : FileSystem World}.

Local Open Scope promise_scope.

(** [valid]: [resolve ((exception) ? false : !!(path))], on a target that
    the validation of [FS.realpath] accepts. *)
Definition valid (target : string) : M bool :=
  await r <- FS_realpath target ;;
  ret (match r with
       | inl exception => false
       | inr resolved => truthy resolved
       end).

(** [descriptors]: the handler of [FS.readdir] throws the exception it
    receives, or resolves with the joined paths.  [target] is a string, so
    [target ?? process.cwd ()] is [target]. *)
Definition descriptors (target : string) : M (list string) :=
  await r <- FS_readdir target ;;
  match r with
  | inl exception => throwInCallback exception
  | inr files =>
      ret (map (fun descriptor =>
                  let location := Path.resolve fs_cwd [target] in
                  Path.join [location; dirent_name descriptor])
               files)
  end.

(** [Reader]: [(await valid ()) ? await descriptors () : null] *)
Definition Reader (target : string) : M (option (list string)) :=
  await found <- valid target ;;
  if found
  then await paths <- descriptors target ;; ret (Some paths)
  else ret None.

End Reader.

End ReadDirectory.

(** ** JavaScript string methods, for one-character arguments *)

Module Str.

(** [s.split (sep)] for a separator of one character. *)
Fixpoint split (sep : ascii) (s : string) : list string :=
  match s with
  | EmptyString => [EmptyString]
  | String c rest =>
      if Ascii.eqb c sep then EmptyString :: split sep rest
      else match split sep rest with
           | [] => [String c EmptyString]
           | piece :: pieces => String c piece :: pieces
           end
  end.

(** [s.replace (c, "")] for a pattern of one character: the first
    occurrence goes, the others stay. *)
Fixpoint removeFirst (c : ascii) (s : string) : string :=
  match s with
  | EmptyString => EmptyString
  | String x rest =>
      if Ascii.eqb x c then rest else String x (removeFirst c rest)
  end.

(** [parts.join (sep)] *)
Definition join (sep : string) (parts : list string) : string :=
  String.concat sep parts.

(** How often [c] occurs in [s]. *)
Fixpoint occurrences (c : ascii) (s : string) : nat :=
  match s with
  | EmptyString => 0
  | String x rest =>
      (if Ascii.eqb x c then 1 else 0) + occurrences c rest
  end.

End Str.

(** ** The command line of the clone strategies (clone.ts) *)

Module Clone.

(** Truthiness of an optional string argument: [undefined] and the empty
    string are falsy. *)
Definition given (x : option string) : bool :=
  match x with
  | Some s => truthy s
  | None => false
  end.

(** The array [partials] of [options] in [Execute], [Shell] and [Wrapper],
    once the directory is pushed ([directory != null]). *)
Definition partials (repository : string) (directory : option string)
  (branch : option string) : list string :=
  let partials :=
    match branch with
    | Some b =>
        if given branch
        then ["clone"; repository; "--branch"; b]
        else ["clone"; repository]
    | None => ["clone"; repository]
    end in
  match directory with
  | Some d => partials ++ [d]
  | None => partials
  end.

(** The characters that [options] replaces, in the order it does. *)
Definition escapes : list ascii :=
  ["$"%char; "{"%char; "}"%char; "("%char; ")"%char].

(** [lexical] *)
Definition lexical (repository : string) (directory : option string)
  (branch : option string) : string :=
  Str.removeFirst ")"
    (Str.removeFirst "("
       (Str.removeFirst "}"
          (Str.removeFirst "{"
             (Str.removeFirst "$"
                (Str.join " " (partials repository directory branch)))))).

(** [options] of [Execute], [Shell] and [Wrapper]: the array handed to
    [execFile] with the file [git].  [Execute] and [Wrapper] run it
    without a shell, so the array is the argument vector of [git]; [Shell]
    runs it with [shell: true], where a shell reads the elements again. *)
Definition options (repository : string) (directory : option string)
  (branch : option string) : list string :=
  Str.split " " (lexical repository directory branch).

(** The argument vector of the process that [execFile ("git", options ())]
    starts when no shell is asked for, as in [Execute] ([shell: false]) and
    in [Wrapper] (no [shell] option): the file, then the elements of the
    array, each as it is. *)
Definition argv (repository : string) (directory : option string)
  (branch : option string) : list string :=
  "git" :: options repository directory branch.

(** The guard of the self-test at the end of clone.ts:
    [process.argv.includes ("--debug")]. *)
Definition selfTest (argv : list string) : bool :=
  existsb (String.eqb "--debug") argv.

End Clone.

(** ** The flags of the command line (cli.ts) *)

Module Cli.

(** [array.includes (x)] on strings. *)
Definition includes (l : list string) (x : string) : bool :=
  existsb (String.eqb x) l.

(** [process.argv.splice (2)]: what it returns, and what it leaves in
    [process.argv]. *)
Definition splice2 (argv : list string) : list string * list string :=
  (skipn 2 argv, firstn 2 argv).

Definition Arguments (argv : list string) : list string :=
  fst (splice2 argv).

(** [includes] is a boolean, so the [?? null] that follows it changes
    nothing. *)
Definition Debug (argv : list string) : bool :=
  includes (Arguments argv) "--debug".

Definition Spawn (argv : list string) : bool :=
  includes (Arguments argv) "--spawn" || includes (Arguments argv) "-s".

Definition Execute (argv : list string) : bool :=
  includes (Arguments argv) "--execute"
  || includes (Arguments argv) "--exec"
  || includes (Arguments argv) "-e".

Definition Wrapper (argv : list string) : bool :=
  includes (Arguments argv) "--wrapper"
  || includes (Arguments argv) "--wrap"
  || includes (Arguments argv) "-w".

Definition Shell (argv : list string) : bool :=
  includes (Arguments argv) "--shell"
  || includes (Arguments argv) "--interactive"
  || includes (Arguments argv) "-i".

(** The object [CLI]. *)
Record Flags := { spawn : bool; execute : bool; wrapper : bool; shell : bool }.

Definition CLI (argv : list string) : Flags :=
  {| spawn := Spawn argv; execute := Execute argv;
     wrapper := Wrapper argv; shell := Shell argv |}.

(** [process.argv] once the module is evaluated. *)
Definition argvAfter (argv : list string) : list string :=
  snd (splice2 argv).

End Cli.

(** Vocabulary for the properties of [options]: [s] holds no space and none
    of the characters that [options] replaces. *)
Definition plainArgument (s : string) : bool :=
  forallb (fun c => Nat.eqb (Str.occurrences c s) 0)
          (" "%char :: Clone.escapes).

(** The spaces inside the elements of [parts]. *)
Definition innerSpaces (parts : list string) : nat :=
  list_sum (map (Str.occurrences " ") parts).

(** ** Regular expressions, as far as [Parse] uses them *)

(** The matcher follows the backtracking semantics of ECMAScript for the
    constructs below: alternatives are tried from left to right, [+] and [?]
    are greedy, the search starts at index 0 and moves right until a match
    is found.  The flag [i] is built in: characters are compared by their
    upper-case form.  Strings are strings of 8-bit characters. *)
Module RegExp.

Definition between (lo hi n : nat) : bool :=
  Nat.leb lo n && Nat.leb n hi.

(** [Canonicalize] under the flag [i], on ASCII. *)
Definition upper (c : ascii) : ascii :=
  let n := nat_of_ascii c in
  if between 97 122 n then ascii_of_nat (n - 32) else c.

Definition lower (c : ascii) : ascii :=
  let n := nat_of_ascii c in
  if between 65 90 n then ascii_of_nat (n + 32) else c.

(** [\w] *)
Definition word (c : ascii) : bool :=
  let n := nat_of_ascii c in
  between 48 57 n || between 65 90 n || between 97 122 n || Nat.eqb n 95.

(** What [.] does not match. *)
Definition lineTerminator (c : ascii) : bool :=
  let n := nat_of_ascii c in Nat.eqb n 10 || Nat.eqb n 13.

Inductive regex :=
| Empty
| Lit (c : ascii)
| Dot
| PlusClass (member : ascii -> bool)
| Seq (r1 r2 : regex)
| Alt (r1 r2 : regex)
| Opt (r : regex)
| Group (r : regex)
| Named (name : string) (r : regex).

(** The characters of [s], one after the other. *)
Fixpoint literal (s : string) : regex :=
  match s with
  | EmptyString => Empty
  | String c rest => Seq (Lit c) (literal rest)
  end.

(** A character is in a class when some member has its upper-case form. *)
Definition classMatch (member : ascii -> bool) (c : ascii) : bool :=
  member c || member (upper c) || member (lower c).

Definition captures := list (string * string).

(** What was consumed between the input [s] and its suffix [rest]. *)
Definition taken (s rest : string) : string :=
  substring 0 (String.length s - String.length rest) s.

Section Matcher.

Variable R : Type.

(** [[...]+]: one character of the class at least, as many as possible
    first. *)
Fixpoint plusClass (member : ascii -> bool) (s : string)
  (k : string -> option R) : option R :=
  match s with
  | EmptyString => None
  | String c rest =>
      if classMatch member c
      then match plusClass member rest k with
           | Some x => Some x
           | None => k rest
           end
      else None
  end.

(** Match [r] at the start of [s], then go on with [k]; [None] is
    failure, which makes the caller try its next choice. *)
Fixpoint run (r : regex) (s : string) (caps : captures)
  (k : string -> captures -> option R) : option R :=
  match r with
  | Empty => k s caps
  | Lit c =>
      match s with
      | String x rest =>
          if Ascii.eqb (upper x) (upper c) then k rest caps else None
      | EmptyString => None
      end
  | Dot =>
      match s with
      | String x rest => if lineTerminator x then None else k rest caps
      | EmptyString => None
      end
  | PlusClass member => plusClass member s (fun rest => k rest caps)
  | Seq r1 r2 => run r1 s caps (fun s1 caps1 => run r2 s1 caps1 k)
  | Alt r1 r2 =>
      match run r1 s caps k with
      | Some x => Some x
      | None => run r2 s caps k
      end
  | Opt r' =>
      match run r' s caps k with
      | Some x => Some x
      | None => k s caps
      end
  | Group r' => run r' s caps k
  | Named n r' =>
      run r' s caps (fun s1 caps1 => k s1 ((n, taken s s1) :: caps1))
  end.

End Matcher.

(** [expression.exec (s)] on a fresh expression: the captures of the
    leftmost match, or [None] for [null]. *)
Fixpoint exec (r : regex) (s : string) : option captures :=
  match run captures r s [] (fun _ caps => Some caps) with
  | Some caps => Some caps
  | None =>
      match s with
      | String _ rest => exec r rest
      | EmptyString => None
      end
  end.

(** A named group of the result; [None] is [undefined]. *)
Fixpoint group (n : string) (caps : captures) : option string :=
  match caps with
  | [] => None
  | (m, v) :: rest => if (m =? n)%string then Some v else group n rest
  end.

(** Every character of [s] satisfies [f]. *)
Fixpoint allChars (f : ascii -> bool) (s : string) : bool :=
  match s with
  | EmptyString => true
  | String c rest => f c && allChars f rest
  end.

(** [s] is empty or starts with a character that does not satisfy [f]. *)
Definition stopsAt (f : ascii -> bool) (s : string) : bool :=
  match s with
  | EmptyString => true
  | String c _ => negb (f c)
  end.

(** [v] is [lit] up to the case of its letters. *)
Fixpoint sameFold (v lit : string) : bool :=
  match v, lit with
  | EmptyString, EmptyString => true
  | String x v', String c lit' => Ascii.eqb (upper x) (upper c) && sameFold v' lit'
  | _, _ => false
  end.

(** [s] starts with [lit], up to case. *)
Fixpoint startsWithFold (s lit : string) : bool :=
  match lit, s with
  | EmptyString, _ => true
  | String c lit', String x s' =>
      Ascii.eqb (upper x) (upper c) && startsWithFold s' lit'
  | String _ _, EmptyString => false
  end.

(** [lit] occurs in [s], up to case. *)
Fixpoint containsFold (s lit : string) : bool :=
  startsWithFold s lit ||
  match s with
  | EmptyString => false
  | String _ rest => containsFold rest lit
  end.

End RegExp.

(** ** [Parse] (expression.ts) *)

Module Expression.
Import RegExp.

(** [[\w\.@]] *)
Definition hostMember (c : ascii) : bool :=
  word c || Ascii.eqb c "." || Ascii.eqb c "@".

(** [[\w,\-,\_]] *)
Definition nameMember (c : ascii) : bool :=
  word c || Ascii.eqb c "," || Ascii.eqb c "-" || Ascii.eqb c "_".

(** [(.git)?((/)?)], the end of the expression. *)
Definition ending : regex :=
  Seq (Opt (Group (Seq Dot (literal "git"))))
      (Group (Opt (Group (Lit "/")))).

(** The expression of [Parse]:
    [(?<hostname>(git@|https://)([\w\.@]+)(/|:))(?<namespace>[\w,\-,\_]+)/(?<name>[\w,\-,\_]+)(.git)?((/)?)]
    with the flags [igm]. *)
Definition expression : regex :=
  Seq (Named "hostname"
         (Seq (Group (Alt (literal "git@") (literal "https://")))
              (Seq (Group (PlusClass hostMember))
                   (Group (Alt (Lit "/") (Lit ":"))))))
      (Seq (Named "namespace" (PlusClass nameMember))
           (Seq (Lit "/")
                (Seq (Named "name" (PlusClass nameMember))
                     ending))).

(** The groups that [Parse] returns; [None] is [undefined]. *)
Record Attributes := {
  hostname : option string;
  namespace : option string;
  name : option string
}.

(** [Parse], without its debug lines.  [None] is the [TypeError] that
    reading [groups] of [null] throws when the expression does not match. *)
Definition Parse (s : string) : option Attributes :=
  match exec expression s with
  | None => None
  | Some groups =>
      Some {| hostname := group "hostname" groups;
              namespace := group "namespace" groups;
              name := group "name" groups |}
  end.

(** A part of an address that a class accepts: not empty, every character
    in the class. *)
Definition accepted (member : ascii -> bool) (s : string) : bool :=
  negb (s =? "")%string && allChars (classMatch member) s.

End Expression.

(** What a match is, stated without the matcher: [Matches r u caps] when
    [r] matches exactly the string [u] and records the named groups [caps],
    the most recent first. *)
Module RegExpMatch.
Import RegExp.

Inductive Matches : regex -> string -> captures -> Prop :=
| matches_empty : Matches Empty "" []
| matches_lit c x :
    Ascii.eqb (upper x) (upper c) = true ->
    Matches (Lit c) (String x "") []
| matches_dot x :
    lineTerminator x = false -> Matches Dot (String x "") []
| matches_plus member u :
    u <> "" -> allChars (classMatch member) u = true ->
    Matches (PlusClass member) u []
| matches_seq r1 r2 u1 u2 c1 c2 :
    Matches r1 u1 c1 -> Matches r2 u2 c2 ->
    Matches (Seq r1 r2) (u1 +++ u2) (c2 ++ c1)
| matches_alt_left r1 r2 u c : Matches r1 u c -> Matches (Alt r1 r2) u c
| matches_alt_right r1 r2 u c : Matches r2 u c -> Matches (Alt r1 r2) u c
| matches_opt_some r u c : Matches r u c -> Matches (Opt r) u c
| matches_opt_none r : Matches (Opt r) "" []
| matches_group r u c : Matches r u c -> Matches (Group r) u c
| matches_named n r u c :
    Matches r u c -> Matches (Named n r) u ((n, u) :: c).

End RegExpMatch.

(** Vocabulary for the properties of [Parse]. *)
Module ExpressionSpec.
Import RegExp.

(** No named group occurs in [r]. *)
Fixpoint unnamed (r : regex) : bool :=
  match r with
  | Empty | Lit _ | Dot | PlusClass _ => true
  | Seq r1 r2 | Alt r1 r2 => unnamed r1 && unnamed r2
  | Opt r' | Group r' => unnamed r'
  | Named _ _ => false
  end.

(** An address that [Parse] is written for: a scheme, a host, a separator,
    a namespace, a slash, a name, and whatever follows. *)
Definition address (scheme host sep ns nm rest : string) : string :=
  (scheme +++ host +++ sep +++ ns +++ "/" +++ nm +++ rest)%string.

(** [scheme] is [git@] or [https://], in any case of the letters. *)
Definition isScheme (scheme : string) : bool :=
  sameFold scheme "git@" || sameFold scheme "https://".

(** [sep] is [/] or [:]. *)
Definition isSeparator (sep : string) : bool :=
  (sep =? "/")%string || (sep =? ":")%string.

End ExpressionSpec.

(** A run from [w] that changes no location outside [touched] and leaves
    reached without symbolic link what was so outside [touched]. *)
Definition keeps {World} {FS : FileSystem World} {A}
  (touched : list string -> Prop) (w : World)
  (r : outcome A * World * list event) : Prop :=
  (forall l, ~ touched l -> fs_node (worldOf r) l = fs_node w l) /\
  (forall q, physical w q -> ~ touched (location q) ->
             physical (worldOf r) q).

(** What [clean] issues on a leaf at [p] whose unlink fails. *)
Definition retryTrace (p : string) : list event :=
  [ FsRealpath p; ConsoleDebug ["[Debug] Removing"; p; "..."]; FsUnlink p;
    FsRm p {| force := true; recursive := false |} ].

(** ** The directory of a strategy (clone.ts) *)

Module Strategy.
Import Expression.

(** [directory = (directory) ? directory : attributes.name], the statement
    of [Spawn], [Execute], [Shell] and [Wrapper] that comes before their
    [await Remove (directory)]; [None] is [undefined]. *)
Definition chosen (directory : option string) (attributes : Attributes)
  : option string :=
  if Clone.given directory then directory else name attributes.

End Strategy.

(* ===================================================================== *)
(** * Part II: lemmas and properties                                      *)
(* ===================================================================== *)

(** ** Facts about paths *)

Module PathFacts.
Import Path.

Example resolve_relative :
  resolve "/home/ci" ["test"; "a.txt"] = "/home/ci/test/a.txt".
Proof. reflexivity. Qed.

Example resolve_dots :
  resolve "/home/ci" ["./test/../x//y/"; "a.txt"] = "/home/ci/x/y/a.txt".
Proof. reflexivity. Qed.

Example resolve_absolute :
  resolve "/home/ci" ["/tmp"; "a.txt"] = "/tmp/a.txt".
Proof. reflexivity. Qed.

Example resolve_above_root : resolve "/" ["../.."; "a.txt"] = "/a.txt".
Proof. reflexivity. Qed.

Example join_one : join ["/home/ci/test/a.txt"] = "/home/ci/test/a.txt".
Proof. reflexivity. Qed.

Example join_two : join ["/home/ci/test"; "a.txt"] = "/home/ci/test/a.txt".
Proof. reflexivity. Qed.

Example join_root : join ["/"; "a.txt"] = "/a.txt".
Proof. reflexivity. Qed.

Example join_trailing : join ["a/b/"; "../c/"] = "a/c/".
Proof. reflexivity. Qed.

Example segments_of_path :
  segments "/home/ci/test" = ["home"; "ci"; "test"].
Proof. reflexivity. Qed.

Lemma append_assoc (a b c : string) : ((a +++ b) +++ c = a +++ b +++ c)%string.
Proof. induction a as [|x a IH]; simpl; [reflexivity | now rewrite IH]. Qed.

Lemma append_empty_r (a : string) : (a +++ "" = a)%string.
Proof. induction a as [|x a IH]; simpl; [reflexivity | now rewrite IH]. Qed.

Lemma split_not_nil (s : string) : split s <> [].
Proof.
  destruct s as [|c s]; simpl; [discriminate|].
  destruct (Ascii.eqb c sep); [discriminate|].
  destruct (split s); discriminate.
Qed.

(** Splitting distributes over a separator. *)
Lemma split_app_sep (a b : string) :
  split (a +++ String "/" b) = split a ++ split b.
Proof.
  induction a as [|c a IH]; simpl.
  - reflexivity.
  - destruct (Ascii.eqb c sep).
    + now rewrite IH.
    + rewrite IH. destruct (split a) as [|seg segs] eqn:E.
      * now apply split_not_nil in E.
      * reflexivity.
Qed.

Lemma split_sepFree (s : string) : sepFree s = true -> split s = [s].
Proof.
  induction s as [|c s IH]; simpl; [reflexivity|].
  intros H. apply andb_true_iff in H as [Hc Hs].
  apply negb_true_iff in Hc. rewrite Hc, (IH Hs). reflexivity.
Qed.

Lemma split_pieces (s : string) :
  Forall (fun x => sepFree x = true) (split s).
Proof.
  induction s as [|c s IH]; simpl.
  - repeat constructor.
  - destruct (Ascii.eqb c sep) eqn:E.
    + constructor; [reflexivity | exact IH].
    + destruct (split s) as [|seg segs]; [repeat constructor; simpl; now rewrite E|].
      inversion IH; subst. constructor; [|assumption].
      simpl. now rewrite E.
Qed.

Lemma baseName_parts (n : string) :
  baseName n = true ->
  n <> "" /\ n <> "." /\ n <> ".." /\ sepFree n = true.
Proof.
  unfold baseName. intros H.
  repeat (apply andb_true_iff in H as [H ?]).
  repeat split; try assumption;
    apply String.eqb_neq; now apply negb_true_iff.
Qed.

Lemma baseName_relative (n : string) : baseName n = true -> isAbsolute n = false.
Proof.
  intros H. apply baseName_parts in H as (_ & _ & _ & H).
  destruct n as [|c n]; simpl in *; [reflexivity|].
  apply andb_true_iff in H as [H _]. now apply negb_true_iff in H.
Qed.

(** A base name is pushed as it is. *)
Lemma step_baseName (allow : bool) (res : list string) (n : string) :
  baseName n = true -> step allow res n = n :: res.
Proof.
  intros H. apply baseName_parts in H as (H1 & H2 & H3 & _).
  unfold step.
  apply String.eqb_neq in H1, H2, H3. now rewrite H1, H2, H3.
Qed.

Lemma step_empty (allow : bool) (res : list string) : step allow res "" = res.
Proof. reflexivity. Qed.

Lemma stack_app (allow : bool) (res : list string) (xs ys : list string) :
  stack allow res (xs ++ ys) = stack allow (stack allow res xs) ys.
Proof. unfold stack. apply fold_left_app. Qed.

Lemma stack_baseNames (allow : bool) (segs res : list string) :
  Forall (fun n => baseName n = true) segs ->
  stack allow res segs = rev segs ++ res.
Proof.
  revert res. induction segs as [|n segs IH]; intros res H; simpl.
  - reflexivity.
  - inversion H; subst. unfold stack in *. simpl.
    rewrite step_baseName by assumption.
    rewrite IH by assumption. now rewrite <- app_assoc.
Qed.

(** Without leave to climb above the root, the stack holds base names. *)
Lemma stack_false_baseName (segs res : list string) :
  Forall (fun x => sepFree x = true) segs ->
  Forall (fun n => baseName n = true) res ->
  Forall (fun n => baseName n = true) (stack false res segs).
Proof.
  revert res. induction segs as [|s segs IH]; intros res Hs Hr; simpl.
  - exact Hr.
  - inversion Hs; subst. apply IH; [assumption|].
    unfold step.
    destruct (String.eqb_spec s ""); [exact Hr|].
    destruct (String.eqb_spec s "."); [exact Hr|].
    destruct (String.eqb_spec s "..").
    + destruct res as [|l res']; [constructor|].
      destruct (l =? "..")%string; [exact Hr | now inversion Hr].
    + constructor; [|exact Hr].
      unfold baseName.
      apply String.eqb_neq in n, n0, n1. now rewrite n, n0, n1, H1.
Qed.

Lemma split_concat (segs : list string) :
  segs <> [] ->
  Forall (fun x => sepFree x = true) segs ->
  split (String.concat "/" segs) = segs.
Proof.
  induction segs as [|a segs IH]; intros Hne H; [congruence|].
  inversion H; subst.
  destruct segs as [|b segs].
  - simpl. now apply split_sepFree.
  - change (String.concat "/" (a :: b :: segs))
      with (a +++ String "/" (String.concat "/" (b :: segs)))%string.
    rewrite split_app_sep, (split_sepFree a) by assumption.
    rewrite IH by (try discriminate; assumption). reflexivity.
Qed.

Lemma baseNames_sepFree (segs : list string) :
  Forall (fun n => baseName n = true) segs ->
  Forall (fun x => sepFree x = true) segs.
Proof.
  intros H. eapply Forall_impl; [|exact H].
  intros n Hn. now apply baseName_parts in Hn.
Qed.

(** The stack of the pieces of an absolute path in canonical form. *)
Lemma stack_ofSegments (allow : bool) (segs res : list string) :
  Forall (fun n => baseName n = true) segs ->
  stack allow res (split (ofSegments segs)) = rev segs ++ res.
Proof.
  intros H. unfold ofSegments.
  change ("/" +++ String.concat "/" segs)%string
    with ("" +++ String "/" (String.concat "/" segs))%string.
  rewrite split_app_sep. simpl (split "").
  destruct segs as [|a segs].
  - reflexivity.
  - rewrite split_concat by (try discriminate; now apply baseNames_sepFree).
    rewrite stack_app. simpl (stack allow res [""]).
    now apply stack_baseNames.
Qed.

Lemma segments_ofSegments (segs : list string) :
  Forall (fun n => baseName n = true) segs ->
  segments (ofSegments segs) = segs.
Proof.
  intros H. unfold segments. rewrite stack_ofSegments by assumption.
  now rewrite app_nil_r, rev_involutive.
Qed.

(** *** [path.resolve] *)

Lemma resolveLoop_acc (paths : list string) (acc : string) :
  resolveLoop paths acc =
  ((fst (resolveLoop paths "") +++ acc)%string, snd (resolveLoop paths "")).
Proof.
  revert acc. induction paths as [|p paths IH]; intros acc; simpl.
  - reflexivity.
  - destruct (p =? "")%string; [apply IH|].
    destruct (isAbsolute p); simpl.
    + now rewrite !append_assoc.
    + rewrite IH. rewrite (IH (p +++ "/")%string). simpl.
      now rewrite !append_assoc.
Qed.

Lemma resolveLoop_terminated (paths : list string) (acc : string) :
  sepTerminated acc -> sepTerminated (fst (resolveLoop paths acc)).
Proof.
  revert acc. induction paths as [|p paths IH]; intros acc H; simpl.
  - exact H.
  - destruct (p =? "")%string; [now apply IH|].
    assert (Ht : sepTerminated (p +++ "/" +++ acc)%string).
    { right. destruct H as [-> | [s' ->]].
      - now exists p.
      - exists (p +++ "/" +++ s')%string.
        change ("/" +++ s' +++ "/")%string with (("/" +++ s') +++ "/")%string.
        now rewrite <- append_assoc. }
    destruct (isAbsolute p); [exact Ht | now apply IH].
Qed.

Lemma isAbsolute_not_empty (p : string) :
  isAbsolute p = true -> (p =? "")%string = false.
Proof. destruct p; [discriminate | reflexivity]. Qed.

(** With an absolute working directory the loop ends on an absolute path. *)
Lemma resolveLoop_absolute (cwd : string) (l : list string) (acc : string) :
  isAbsolute cwd = true -> snd (resolveLoop (l ++ [cwd]) acc) = true.
Proof.
  intros H. revert acc. induction l as [|p l IH]; intros acc; simpl.
  - now rewrite (isAbsolute_not_empty _ H), H.
  - destruct (p =? "")%string; [apply IH|].
    destruct (isAbsolute p); [reflexivity | apply IH].
Qed.

Lemma resolveLoop_relative (p : string) (l : list string) (acc : string) :
  (p =? "")%string = false -> isAbsolute p = false ->
  resolveLoop (p :: l) acc = resolveLoop l (p +++ "/" +++ acc)%string.
Proof. intros H1 H2. simpl. now rewrite H1, H2. Qed.

Lemma resolveLoop_head (p : string) (l : list string) (acc : string) :
  isAbsolute p = true ->
  resolveLoop (p :: l) acc = ((p +++ "/" +++ acc)%string, true).
Proof.
  intros H. simpl. now rewrite (isAbsolute_not_empty _ H), H.
Qed.

Lemma stack_terminated_child (allow : bool) (res : list string)
  (R n : string) :
  sepTerminated R -> baseName n = true ->
  stack allow res (split (R +++ n +++ "/" +++ "")) =
  n :: stack allow res (split R).
Proof.
  intros HR Hn.
  assert (Hs : split n = [n])
    by (apply split_sepFree; now apply baseName_parts in Hn).
  destruct HR as [-> | [s' ->]].
  - change ("" +++ n +++ "/" +++ "")%string with (n +++ String "/" "")%string.
    rewrite split_app_sep, Hs. simpl.
    now rewrite !step_empty, step_baseName.
  - rewrite append_assoc.
    change ("/" +++ n +++ "/" +++ "")%string
      with (String "/" (n +++ String "/" "")).
    change (s' +++ "/")%string with (s' +++ String "/" "")%string.
    rewrite !split_app_sep, Hs. simpl (split "").
    rewrite !stack_app. simpl.
    now rewrite !step_empty, step_baseName.
Qed.

Lemma resolvedSegments_baseNames (cwd : string) (args : list string) :
  Forall (fun n => baseName n = true) (resolvedSegments cwd args).
Proof.
  unfold resolvedSegments. apply Forall_rev.
  apply stack_false_baseName; [apply split_pieces | constructor].
Qed.

Lemma resolve_ofSegments (cwd : string) (args : list string) :
  isAbsolute cwd = true ->
  resolve cwd args = ofSegments (resolvedSegments cwd args).
Proof.
  intros H. unfold resolve, resolvedSegments.
  pose proof (resolveLoop_absolute cwd (rev args) "" H) as Ha.
  destruct (resolveLoop (rev args ++ [cwd]) "") as [R a]. simpl in *.
  subst a. reflexivity.
Qed.

(** Resolving a base name below [loc] appends it to the segments of
    [loc]. *)
Lemma resolvedSegments_child (cwd loc n : string) :
  baseName n = true ->
  resolvedSegments cwd [loc; n] = resolvedSegments cwd [loc] ++ [n].
Proof.
  intros Hn. unfold resolvedSegments.
  change (rev [loc; n] ++ [cwd]) with (n :: (rev [loc] ++ [cwd])).
  destruct (baseName_parts _ Hn) as (Hne & _).
  apply String.eqb_neq in Hne.
  rewrite resolveLoop_relative by (try assumption; now apply baseName_relative).
  rewrite resolveLoop_acc. cbn [fst].
  rewrite stack_terminated_child;
    [reflexivity | apply resolveLoop_terminated; now left | assumption].
Qed.

Lemma segments_resolve (cwd : string) (args : list string) :
  isAbsolute cwd = true ->
  segments (resolve cwd args) = resolvedSegments cwd args.
Proof.
  intros H. rewrite resolve_ofSegments by assumption.
  apply segments_ofSegments, resolvedSegments_baseNames.
Qed.

(** Resolving a canonical absolute path returns it. *)
Lemma resolve_canonical (cwd : string) (segs : list string) :
  Forall (fun n => baseName n = true) segs ->
  resolve cwd [ofSegments segs] = ofSegments segs.
Proof.
  intros H. unfold resolve.
  change (rev [ofSegments segs] ++ [cwd]) with [ofSegments segs; cwd].
  rewrite resolveLoop_head by reflexivity.
  change (ofSegments segs +++ "/" +++ "")%string
    with (ofSegments segs +++ String "/" "")%string.
  unfold normalizeString.
  rewrite split_app_sep, stack_app, stack_ofSegments by assumption.
  simpl (split ""). cbn [stack fold_left]. rewrite step_empty.
  now rewrite app_nil_r, rev_involutive.
Qed.

(** *** [path.normalize] and [path.join] *)

Lemma trailingSeparator_app (a s : string) :
  s <> "" -> trailingSeparator (a +++ s) = trailingSeparator s.
Proof.
  intros Hs. induction a as [|c a IH]; simpl; [reflexivity|].
  destruct (a +++ s)%string eqn:E; [|exact IH].
  destruct a; simpl in E; [congruence | discriminate].
Qed.

Lemma trailingSeparator_sepFree (s : string) :
  sepFree s = true -> trailingSeparator s = false.
Proof.
  induction s as [|c s IH]; simpl; [reflexivity|].
  intros H. apply andb_true_iff in H as [Hc Hs].
  destruct s; [now apply negb_true_iff in Hc | now apply IH].
Qed.

Lemma concat_snoc (segs : list string) (n : string) :
  String.concat "/" (segs ++ [n]) =
  match segs with
  | [] => n
  | _ => (String.concat "/" segs +++ "/" +++ n)%string
  end.
Proof.
  induction segs as [|a segs IH]; [reflexivity|].
  destruct segs as [|b segs]; [reflexivity|].
  change (String.concat "/" ((a :: b :: segs) ++ [n]))
    with (a +++ "/" +++ String.concat "/" ((b :: segs) ++ [n]))%string.
  rewrite IH.
  change (String.concat "/" (a :: b :: segs))
    with (a +++ "/" +++ String.concat "/" (b :: segs))%string.
  now rewrite !append_assoc.
Qed.

Lemma concat_not_empty (segs : list string) :
  segs <> [] ->
  Forall (fun n => baseName n = true) segs ->
  (String.concat "/" segs =? "")%string = false.
Proof.
  intros Hne H. destruct segs as [|a segs]; [congruence|].
  inversion H; subst.
  destruct (baseName_parts _ H2) as (Ha & _).
  destruct a as [|c a]; [congruence|].
  destruct segs; reflexivity.
Qed.

Lemma trailingSeparator_ofSegments (segs : list string) (n : string) :
  baseName n = true -> trailingSeparator (ofSegments (segs ++ [n])) = false.
Proof.
  intros Hn. destruct (baseName_parts _ Hn) as (Hne & _ & _ & Hf).
  unfold ofSegments. rewrite concat_snoc.
  destruct segs.
  - rewrite trailingSeparator_app by assumption.
    now apply trailingSeparator_sepFree.
  - rewrite <- !append_assoc, trailingSeparator_app by assumption.
    now apply trailingSeparator_sepFree.
Qed.

Lemma normalize_absolute (p : string) :
  isAbsolute p = true ->
  trailingSeparator p = false ->
  (normalizeString p false =? "")%string = false ->
  normalize p = ("/" +++ normalizeString p false)%string.
Proof.
  intros Ha Ht Hb. unfold normalize.
  rewrite (isAbsolute_not_empty _ Ha), Ha, Ht. simpl negb.
  now rewrite Hb.
Qed.

Lemma normalizeString_ofSegments (segs : list string) :
  Forall (fun n => baseName n = true) segs ->
  normalizeString (ofSegments segs) false = String.concat "/" segs.
Proof.
  intros H. unfold normalizeString.
  rewrite stack_ofSegments by assumption.
  now rewrite app_nil_r, rev_involutive.
Qed.

(** Normalizing a canonical absolute path returns it. *)
Lemma normalize_ofSegments (segs : list string) :
  Forall (fun n => baseName n = true) segs ->
  normalize (ofSegments segs) = ofSegments segs.
Proof.
  intros H. destruct segs as [|a segs]; [reflexivity|].
  destruct (exists_last (l := a :: segs)) as (segs' & n & E);
    [discriminate|].
  rewrite E in *. clear E a segs.
  assert (Hn : baseName n = true).
  { apply Forall_app in H as [_ H]. now inversion H. }
  rewrite normalize_absolute.
  - now rewrite normalizeString_ofSegments.
  - reflexivity.
  - now apply trailingSeparator_ofSegments.
  - rewrite normalizeString_ofSegments by assumption.
    apply concat_not_empty; [now destruct segs' | assumption].
Qed.

Lemma join_canonical (segs : list string) :
  Forall (fun n => baseName n = true) segs ->
  join [ofSegments segs] = ofSegments segs.
Proof.
  intros H. unfold join. cbn [filter].
  change (ofSegments segs =? "")%string with false. cbn [negb].
  change (String.concat "/" [ofSegments segs]) with (ofSegments segs).
  now apply normalize_ofSegments.
Qed.

(** Joining a base name to a canonical absolute path appends a segment. *)
Lemma join_child (segs : list string) (n : string) :
  Forall (fun x => baseName x = true) segs ->
  baseName n = true ->
  join [ofSegments segs; n] = ofSegments (segs ++ [n]).
Proof.
  intros H Hn. destruct (baseName_parts _ Hn) as (Hne & _ & _ & Hf).
  unfold join. cbn [filter].
  change (ofSegments segs =? "")%string with false. cbn [negb].
  apply String.eqb_neq in Hne. rewrite Hne. cbn [negb].
  change (String.concat "/" [ofSegments segs; n])
    with (ofSegments segs +++ String "/" n)%string.
  assert (Hb : normalizeString (ofSegments segs +++ String "/" n) false
               = String.concat "/" (segs ++ [n])).
  { unfold normalizeString.
    rewrite split_app_sep, stack_app, stack_ofSegments by assumption.
    rewrite (split_sepFree n) by assumption.
    cbn [stack fold_left]. rewrite step_baseName by assumption.
    cbn [rev]. now rewrite app_nil_r, rev_involutive. }
  rewrite normalize_absolute.
  - now rewrite Hb.
  - reflexivity.
  - change (ofSegments segs +++ String "/" n)%string
      with (ofSegments segs +++ "/" +++ n)%string.
    rewrite <- append_assoc, trailingSeparator_app
      by (now apply String.eqb_neq).
    now apply trailingSeparator_sepFree.
  - rewrite Hb. apply concat_not_empty; [now destruct segs|].
    apply Forall_app; split; [assumption | now constructor].
Qed.


End PathFacts.

(** ** Running the program *)

Section ProgramFacts.

Context {World : Type} {FS : FileSystem World}.

Local Open Scope promise_scope.

Lemma bind_resolved {A B} (m : M A) (k : A -> M B) (w : World) a w1 t1 :
  m w = (Resolved a, w1, t1) ->
  bind m k w = (outcomeOf (k a w1), worldOf (k a w1), t1 ++ traceOf (k a w1)).
Proof.
  intros H. unfold bind. rewrite H.
  now destruct (k a w1) as [[o w2] t2].
Qed.

(** A computation that does not resolve ends the sequence it is in. *)
Lemma bind_stopped (m : M unit) (k : unit -> M unit) (w : World) o w1 t1 :
  m w = (o, w1, t1) -> o <> Resolved tt -> bind m k w = (o, w1, t1).
Proof.
  intros H Ho. unfold bind. rewrite H.
  destruct o as [[]| | | |]; congruence.
Qed.

Lemma valid_run (p : string) (w : World) :
  valid p w = (Resolved (probe w p), w, [FsRealpath p]).
Proof. reflexivity. Qed.

Lemma descriptors_run (loc : string) (w : World) :
  descriptors loc w =
  match fs_readdir w loc with
  | inl e => (Uncaught e, w, [FsReaddir loc])
  | inr files => (Resolved (remap loc files), w, [FsReaddir loc])
  end.
Proof.
  unfold descriptors, bind, FS_readdir.
  destruct (fs_readdir w loc); reflexivity.
Qed.

(** The four ways through the [default] branch of [clean]. *)
Lemma leaf_run (d : Descriptor) (w : World) :
  leaf d w =
  if probe w (path d)
  then
    match fs_unlink w (path d) with
    | (Some e, w1) =>
        (Resolved tt, snd (fs_rm w1 (path d) retryOptions),
         [ FsRealpath (path d);
           ConsoleDebug ["[Debug] Removing"; path d; "..."];
           FsUnlink (path d);
           FsRm (path d) retryOptions ])
    | (None, w1) =>
        (Resolved tt, w1,
         [ FsRealpath (path d);
           ConsoleDebug ["[Debug] Removing"; path d; "..."];
           FsUnlink (path d) ])
    end
  else
    (Pending, w,
     [ FsRealpath (path d);
       ConsoleDebug ["[Debug] Removing"; path d; "..."] ]).
Proof.
  unfold leaf, bind. rewrite valid_run. unfold console_debug.
  destruct (probe w (path d)); [|reflexivity].
  unfold FS_unlink, unlinked, bind.
  destruct (fs_unlink w (path d)) as [[e|] w1]; [|reflexivity].
  simpl. unfold FS_rm, retryOptions.
  destruct (fs_rm w1 (path d) _) as [r w2]. reflexivity.
Qed.

Lemma forEach_cons_resolved {A} (body : A -> M unit) x xs (w : World) w1 t1 :
  body x w = (Resolved tt, w1, t1) ->
  forEach (x :: xs) body w =
  (outcomeOf (forEach xs body w1), worldOf (forEach xs body w1),
   t1 ++ traceOf (forEach xs body w1)).
Proof.
  intros H.
  exact (bind_resolved (body x) (fun _ => forEach xs body) w tt w1 t1 H).
Qed.

Lemma forEach_cons_stopped {A} (body : A -> M unit) x xs (w : World) o w1 t1 :
  body x w = (o, w1, t1) -> o <> Resolved tt ->
  forEach (x :: xs) body w = (o, w1, t1).
Proof.
  intros H Ho.
  exact (bind_stopped (body x) (fun _ => forEach xs body) w o w1 t1 H Ho).
Qed.

(** The loop resolves exactly when every call of its body did, in order. *)
Lemma forEach_settled {A} (body : A -> M unit) xs (w : World) w' t :
  forEach xs body w = (Resolved tt, w', t) <-> AllSettled body xs w w' t.
Proof.
  split.
  - revert w w' t. induction xs as [|x xs IH]; intros w w' t H.
    + inversion H; subst. constructor.
    + destruct (body x w) as [[o w1] t1] eqn:E.
      destruct o as [[]| | | |];
        try (rewrite (forEach_cons_stopped _ _ _ _ _ _ _ E) in H
               by discriminate; discriminate).
      rewrite (forEach_cons_resolved _ _ _ _ _ _ E) in H.
      destruct (forEach xs body w1) as [[o2 w2] t2] eqn:E2.
      unfold outcomeOf, worldOf, traceOf in H. simpl in H.
      inversion H; subst.
      econstructor; [exact E | now apply IH].
  - induction 1 as [w | x xs w w1 t1 w2 t2 Hx _ IH].
    + reflexivity.
    + rewrite (forEach_cons_resolved _ _ _ _ _ _ Hx), IH. reflexivity.
Qed.

Lemma clean_leaf (fuel : nat) (d : Descriptor) (w : World) :
  directory (properties d) = false -> clean fuel d w = leaf d w.
Proof. intros H. destruct fuel; simpl; now rewrite H. Qed.

Lemma clean_unlisted (fuel : nat) (d : Descriptor) (w : World) e :
  directory (properties d) = true ->
  fs_readdir w (path d) = inl e ->
  clean fuel d w = (Uncaught e, w, [FsReaddir (path d)]).
Proof.
  intros H E. destruct fuel; simpl; rewrite H;
    unfold bind; now rewrite descriptors_run, E.
Qed.

Lemma clean_listed (fuel : nat) (d : Descriptor) (w : World) files :
  directory (properties d) = true ->
  fs_readdir w (path d) = inr files ->
  clean (S fuel) d w =
  (outcomeOf (forEach (remap (path d) files) (clean fuel) w),
   worldOf (forEach (remap (path d) files) (clean fuel) w),
   FsReaddir (path d)
     :: traceOf (forEach (remap (path d) files) (clean fuel) w)).
Proof.
  intros H E. simpl. rewrite H.
  erewrite bind_resolved by (rewrite descriptors_run, E; reflexivity).
  reflexivity.
Qed.

(** [clean] on a directory that can be listed, whatever the fuel. *)
Lemma clean_listed_any (fuel : nat) (d : Descriptor) (w : World) files :
  directory (properties d) = true ->
  fs_readdir w (path d) = inr files ->
  clean fuel d w =
  (outcomeOf (forEach (remap (path d) files)
                (match fuel with
                 | O => fun _ => outOfFuel
                 | S fuel' => clean fuel'
                 end) w),
   worldOf (forEach (remap (path d) files)
              (match fuel with
               | O => fun _ => outOfFuel
               | S fuel' => clean fuel'
               end) w),
   FsReaddir (path d)
     :: traceOf (forEach (remap (path d) files)
                   (match fuel with
                    | O => fun _ => outOfFuel
                    | S fuel' => clean fuel'
                    end) w)).
Proof.
  intros H E. destruct fuel; simpl; rewrite H;
    erewrite bind_resolved by (rewrite descriptors_run, E; reflexivity);
    reflexivity.
Qed.

Lemma forEach_stable {A} (b1 b2 : A -> M unit) (xs : list A) :
  (forall x (w : World) o w' t,
      b1 x w = (o, w', t) -> o <> OutOfFuel -> b2 x w = (o, w', t)) ->
  forall (w : World) o w' t,
    forEach xs b1 w = (o, w', t) -> o <> OutOfFuel ->
    forEach xs b2 w = (o, w', t).
Proof.
  intros Hb. induction xs as [|x xs IH]; intros w o w' t H Ho.
  - exact H.
  - destruct (b1 x w) as [[o1 w1] t1] eqn:E.
    destruct o1 as [[]|e|e| |].
    + rewrite (forEach_cons_resolved _ _ _ _ _ _ E) in H.
      destruct (forEach xs b1 w1) as [[o2 w2] t2] eqn:E2.
      cbn in H. inversion H; subst.
      assert (E' : b2 x w = (Resolved tt, w1, t1))
        by (now apply Hb).
      rewrite (forEach_cons_resolved _ _ _ _ _ _ E').
      now rewrite (IH _ _ _ _ E2 Ho).
    + rewrite (forEach_cons_stopped _ _ _ _ _ _ _ E) in H by discriminate.
      inversion H; subst. apply forEach_cons_stopped; [|discriminate].
      now apply Hb.
    + rewrite (forEach_cons_stopped _ _ _ _ _ _ _ E) in H by discriminate.
      inversion H; subst. apply forEach_cons_stopped; [|discriminate].
      now apply Hb.
    + rewrite (forEach_cons_stopped _ _ _ _ _ _ _ E) in H by discriminate.
      inversion H; subst. apply forEach_cons_stopped; [|discriminate].
      now apply Hb.
    + rewrite (forEach_cons_stopped _ _ _ _ _ _ _ E) in H by discriminate.
      inversion H; subst. congruence.
Qed.

(** The fuel is a bound and nothing else: a run that did not exhaust it is
    the same with more. *)
Lemma clean_fuel_stable (fuel : nat) :
  forall (d : Descriptor) (w : World) o w' t,
    clean fuel d w = (o, w', t) -> o <> OutOfFuel ->
    clean (S fuel) d w = (o, w', t).
Proof.
  induction fuel as [|fuel IH]; intros d w o w' t H Ho;
    destruct (directory (properties d)) eqn:Hd;
    try (rewrite clean_leaf in H by assumption;
         rewrite clean_leaf by assumption; exact H);
    (destruct (fs_readdir w (path d)) as [e|files] eqn:E;
     [ rewrite (clean_unlisted _ _ _ _ Hd E) in H;
       rewrite (clean_unlisted _ _ _ _ Hd E); exact H |]);
    rewrite (clean_listed_any _ _ _ _ Hd E) in H;
    rewrite (clean_listed_any _ _ _ _ Hd E).
  - destruct (forEach (remap (path d) files) (fun _ => outOfFuel) w)
      as [[o1 w1] t1] eqn:E1.
    cbn in H. inversion H; subst.
    erewrite forEach_stable; [reflexivity | | exact E1 | exact Ho].
    intros x w0 o0 w0' t0 Hx Hne. inversion Hx; subst. congruence.
  - destruct (forEach (remap (path d) files) (clean fuel) w)
      as [[o1 w1] t1] eqn:E1.
    cbn in H. inversion H; subst.
    erewrite forEach_stable; [reflexivity | | exact E1 | exact Ho].
    exact IH.
Qed.

(** [Remove] on a path that the probe does not find. *)
Lemma Remove_absent_run (fuel : nat) (target : string) (w : World) :
  probe w target = false ->
  Remove fuel target w = (Resolved tt, w, absentTrace target).
Proof.
  intros H. unfold Remove, tryCatch, bind.
  rewrite valid_run, H. reflexivity.
Qed.

(** [Remove] on a path that the probe finds: the listing, the traversal and
    the purge, each only if what precedes it went through. *)
Lemma Remove_existing_run (fuel : nat) (target : string) (w : World) :
  probe w target = true ->
  Remove fuel target w =
  match fs_readdir w target with
  | inl e => (Uncaught e, w, prologue target ++ [FsReaddir target])
  | inr files =>
      match forEach (remap target files) (clean fuel) w with
      | (Resolved _, w1, t1) =>
          match fs_rm w1 target purgeOptions with
          | (Some e, w2) =>
              (Uncaught e, w2,
               prologue target ++ FsReaddir target :: t1
                 ++ [FsRm target purgeOptions])
          | (None, w2) =>
              (Resolved tt, w2,
               prologue target ++ FsReaddir target :: t1
                 ++ [FsRm target purgeOptions; StdoutWrite newline])
          end
      | (o, w1, t1) => (o, w1, prologue target ++ FsReaddir target :: t1)
      end
  end.
Proof.
  intros H. unfold Remove, tryCatch, bind.
  rewrite valid_run, H. unfold console_debug, stdout_write.
  rewrite descriptors_run.
  destruct (fs_readdir w target) as [e|files]; [reflexivity|].
  destruct (forEach (remap target files) (clean fuel) w) as [[o w1] t1].
  destruct o as [[]|e|e| |]; simpl;
    try (now rewrite ?app_nil_r).
  unfold finalize, bind, FS_rm, purgeOptions.
  destruct (fs_rm w1 target _) as [[e|] w2]; simpl;
    now rewrite <- ?app_assoc.
Qed.

(** *** No rejection *)





(** *** Fuel *)

Lemma Remove_fuel_stable (fuel : nat) (target : string) (w : World) o w' t :
  Remove fuel target w = (o, w', t) -> o <> OutOfFuel ->
  Remove (S fuel) target w = (o, w', t).
Proof.
  intros H Ho. destruct (probe w target) eqn:Hp.
  - rewrite (Remove_existing_run _ _ _ Hp) in H.
    rewrite (Remove_existing_run _ _ _ Hp).
    destruct (fs_readdir w target) as [e|files]; [exact H|].
    destruct (forEach (remap target files) (clean fuel) w)
      as [[o1 w1] t1] eqn:E1.
    assert (Hne : o1 <> OutOfFuel).
    { intros ->. inversion H; subst. congruence. }
    rewrite (forEach_stable (clean fuel) (clean (S fuel)) _
               (clean_fuel_stable fuel) _ _ _ _ E1 Hne).
    exact H.
  - rewrite (Remove_absent_run _ _ _ Hp) in H.
    rewrite (Remove_absent_run _ _ _ Hp). exact H.
Qed.

(** *** What a run issues *)

Lemma count_app (f : event -> bool) (t1 t2 : list event) :
  count f (t1 ++ t2) = count f t1 + count f t2.
Proof. unfold count. now rewrite filter_app, length_app. Qed.

Lemma count_none (f : event -> bool) (t : list event) :
  Forall (fun e => f e = false) t -> count f t = 0.
Proof.
  unfold count. induction 1 as [|e t He _ IH]; simpl; [reflexivity|].
  now rewrite He.
Qed.

Lemma walker_no_purge (t : list event) :
  Forall (fun e => walkerEvent e = true) t -> count isPurge t = 0.
Proof.
  intros H. apply count_none. eapply Forall_impl; [|exact H].
  intros [p|p|p|p [f r]|a|x|x]; simpl; try easy.
  destruct f, r; simpl; congruence.
Qed.

Lemma walker_no_warning (t : list event) :
  Forall (fun e => walkerEvent e = true) t -> count isWarning t = 0.
Proof.
  intros H. apply count_none. eapply Forall_impl; [|exact H].
  intros [p|p|p|p o|a|x|x]; simpl; congruence.
Qed.

Lemma leaf_events (d : Descriptor) (w : World) :
  Forall (fun e => walkerEvent e = true) (traceOf (leaf d w)).
Proof.
  rewrite leaf_run. destruct (probe w (path d)).
  - destruct (fs_unlink w (path d)) as [[e|] w1]; repeat constructor.
  - repeat constructor.
Qed.

Lemma forEach_events {A} (body : A -> M unit) (xs : list A) :
  (forall x (w : World),
      Forall (fun e => walkerEvent e = true) (traceOf (body x w))) ->
  forall w : World,
    Forall (fun e => walkerEvent e = true) (traceOf (forEach xs body w)).
Proof.
  intros Hb. induction xs as [|x xs IH]; intros w; [constructor|].
  specialize (Hb x w).
  destruct (body x w) as [[o w1] t1] eqn:E.
  destruct o as [[]| | | |];
    try (rewrite (forEach_cons_stopped _ _ _ _ _ _ _ E) by discriminate;
         exact Hb).
  rewrite (forEach_cons_resolved _ _ _ _ _ _ E).
  apply Forall_app; split; [exact Hb | apply IH].
Qed.

(** The traversal issues walker events only: in particular neither a purge
    nor a warning. *)
Lemma clean_events (fuel : nat) (d : Descriptor) (w : World) :
  Forall (fun e => walkerEvent e = true) (traceOf (clean fuel d w)).
Proof.
  revert d w. induction fuel as [|fuel IH]; intros d w.
  - destruct (directory (properties d)) eqn:Hd.
    + simpl. rewrite Hd. unfold bind. rewrite descriptors_run.
      destruct (fs_readdir w (path d)) as [e|files];
        [repeat constructor|].
      destruct (remap (path d) files); repeat constructor.
    + rewrite clean_leaf by assumption. apply leaf_events.
  - destruct (directory (properties d)) eqn:Hd.
    + destruct (fs_readdir w (path d)) as [e|files] eqn:E.
      * rewrite (clean_unlisted _ _ _ _ Hd E). repeat constructor.
      * rewrite (clean_listed _ _ _ _ Hd E).
        constructor; [reflexivity|]. now apply forEach_events.
    + rewrite clean_leaf by assumption. apply leaf_events.
Qed.

Lemma walk_events (fuel : nat) (ds : list Descriptor) (w : World) :
  Forall (fun e => walkerEvent e = true)
         (traceOf (forEach ds (clean fuel) w)).
Proof. apply forEach_events. intros x w'. apply clean_events. Qed.

Lemma prologue_no_purge (target : string) :
  count isPurge (prologue target) = 0.
Proof. reflexivity. Qed.

Lemma prologue_no_warning (target : string) :
  count isWarning (prologue target) = 0.
Proof. reflexivity. Qed.

End ProgramFacts.

(** ** Where the traversal goes *)

Section Confinement.

Context {World : Type} {FS : FileSystem World}.
Context {Contract : FileSystemContract World}.

Import Path PathFacts.

Lemma prefix_refl (l : list string) : prefix l l.
Proof. exists []. now rewrite app_nil_r. Qed.

Lemma prefix_trans (l1 l2 l3 : list string) :
  prefix l1 l2 -> prefix l2 l3 -> prefix l1 l3.
Proof.
  intros [r1 ->] [r2 ->]. exists (r1 ++ r2). now rewrite app_assoc.
Qed.

Lemma prefix_snoc (l1 l2 : list string) (n : string) :
  prefix l1 l2 -> prefix l1 (l2 ++ [n]).
Proof. intros H. eapply prefix_trans; [exact H | now exists [n]]. Qed.

Lemma location_resolved (p : string) :
  location p = resolvedSegments fs_cwd [p].
Proof. unfold location. apply segments_resolve, cwd_absolute. Qed.

Lemma location_baseNames (p : string) :
  Forall (fun n => baseName n = true) (location p).
Proof. rewrite location_resolved. apply resolvedSegments_baseNames. Qed.

Lemma location_canonical (segs : list string) :
  Forall (fun n => baseName n = true) segs ->
  location (ofSegments segs) = segs.
Proof.
  intros H. unfold location.
  rewrite resolve_canonical by assumption.
  now apply segments_ofSegments.
Qed.

Lemma remap_map (loc : string) (files : list Dirent) :
  remap loc files = map (descriptorOf loc) files.
Proof. reflexivity. Qed.

(** The path that [remap] gives the entry [f] of [loc]. *)
Lemma descriptorOf_path (loc : string) (f : Dirent) :
  baseName (dirent_name f) = true ->
  path (descriptorOf loc f) = ofSegments (location loc ++ [dirent_name f]).
Proof.
  intros Hn. unfold descriptorOf. cbn [path].
  rewrite (resolve_ofSegments _ _ cwd_absolute).
  rewrite resolvedSegments_child by assumption.
  rewrite <- location_resolved.
  apply join_canonical, Forall_app. split.
  - apply location_baseNames.
  - now constructor.
Qed.

Lemma descriptorOf_join (loc : string) (f : Dirent) :
  baseName (dirent_name f) = true ->
  path (descriptorOf loc f) =
  join [resolve fs_cwd [loc]; name (descriptorOf loc f)].
Proof.
  intros Hn. rewrite descriptorOf_path by assumption.
  rewrite (resolve_ofSegments _ _ cwd_absolute), <- location_resolved.
  cbn [name descriptorOf]. symmetry.
  apply join_child; [apply location_baseNames | assumption].
Qed.

Lemma descriptorOf_below (base : list string) (loc : string) (f : Dirent) :
  baseName (dirent_name f) = true ->
  prefix base (location loc) ->
  canonicalBelow base (path (descriptorOf loc f)).
Proof.
  intros Hn Hb. exists (location loc ++ [dirent_name f]). repeat split.
  - apply Forall_app. split; [apply location_baseNames | now constructor].
  - now apply descriptorOf_path.
  - now apply prefix_snoc.
Qed.

Lemma canonicalBelow_location (base : list string) (p : string) :
  canonicalBelow base p -> prefix base (location p).
Proof.
  intros (segs & Hs & -> & Hp). now rewrite location_canonical.
Qed.

(** The entries of a successful listing of [loc] lie below [loc]. *)
Lemma listed_below (base : list string) (w : World) (loc : string)
  (files : list Dirent) :
  fs_readdir w loc = inr files ->
  prefix base (location loc) ->
  Forall (fun d => canonicalBelow base (path d)) (remap loc files).
Proof.
  intros E Hb. rewrite remap_map. apply Forall_map.
  pose proof (readdir_names _ _ _ E) as Hn.
  eapply Forall_impl; [|exact Hn].
  intros f Hf. now apply descriptorOf_below.
Qed.

Lemma confined_ret {A} (base : list string) (w : World) (o : outcome A) :
  confined base w (o, w, []).
Proof. split; [constructor | reflexivity]. Qed.

Lemma confined_step {A B} (base : list string) (w w1 : World)
  (t1 : list event) (r : outcome B * World * list event) (o : outcome A) :
  confined base w (o, w1, t1) ->
  confined base w1 r ->
  confined base w (outcomeOf r, worldOf r, t1 ++ traceOf r).
Proof.
  intros [Ht1 Hw1] [Ht2 Hw2]. split.
  - apply Forall_app. split; assumption.
  - intros l Hl. cbn. rewrite (Hw2 l Hl). apply (Hw1 l Hl).
Qed.

Lemma confined_leaf (base : list string) (d : Descriptor) (w : World) :
  prefix base (location (path d)) -> confined base w (leaf d w).
Proof.
  intros Hb.
  assert (Hout : forall l, ~ prefix base l -> ~ prefix (location (path d)) l).
  { intros l Hl Hp. apply Hl. eapply prefix_trans; eassumption. }
  assert (Hin : forall e p, eventPath e = Some p -> p = path d ->
                            prefix base (location p)).
  { intros e p _ ->. exact Hb. }
  rewrite leaf_run. destruct (probe w (path d)).
  - destruct (fs_unlink w (path d)) as [[e|] w1] eqn:Eu.
    + destruct (fs_rm w1 (path d) retryOptions) as [r w2] eqn:Er.
      split.
      * repeat constructor; intros p Hp; inversion Hp; subst; exact Hb.
      * intros l Hl. cbn.
        rewrite (rm_frame _ _ _ _ _ Er l (Hout l Hl)).
        apply (unlink_frame _ _ _ _ Eu l (Hout l Hl)).
    + split.
      * repeat constructor; intros p Hp; inversion Hp; subst; exact Hb.
      * intros l Hl. cbn.
        apply (unlink_frame _ _ _ _ Eu l (Hout l Hl)).
  - split.
    + repeat constructor; intros p Hp; inversion Hp; subst; exact Hb.
    + reflexivity.
Qed.

Lemma confined_forEach {A} (base : list string) (body : A -> M unit)
  (xs : list A) :
  Forall (fun x => forall w : World, confined base w (body x w)) xs ->
  forall w : World, confined base w (forEach xs body w).
Proof.
  induction 1 as [|x xs Hx _ IH]; intros w.
  - apply confined_ret.
  - specialize (Hx w). destruct (body x w) as [[o w1] t1] eqn:E.
    destruct o as [[]| | | |];
      try (rewrite (forEach_cons_stopped _ _ _ _ _ _ _ E) by discriminate;
           exact Hx).
    rewrite (forEach_cons_resolved _ _ _ _ _ _ E).
    eapply confined_step; [exact Hx | apply IH].
Qed.

Lemma confined_readdir {A} (base : list string) (w : World) (p : string)
  (r : outcome A * World * list event) :
  prefix base (location p) ->
  confined base w r ->
  confined base w (outcomeOf r, worldOf r, FsReaddir p :: traceOf r).
Proof.
  intros Hb [Ht Hw]. split; [|exact Hw].
  constructor; [|exact Ht]. intros q Hq. inversion Hq; subst. exact Hb.
Qed.

(** A call of [clean] on a descriptor below [base] stays below [base]. *)
Lemma confined_clean (base : list string) (fuel : nat) :
  forall (d : Descriptor) (w : World),
    canonicalBelow base (path d) -> confined base w (clean fuel d w).
Proof.
  induction fuel as [|fuel IH]; intros d w Hd;
    pose proof (canonicalBelow_location _ _ Hd) as Hb;
    destruct (directory (properties d)) eqn:Hdir;
    try (rewrite clean_leaf by assumption; now apply confined_leaf).
  - simpl. rewrite Hdir. unfold bind. rewrite descriptors_run.
    destruct (fs_readdir w (path d)) as [e|files].
    + apply (confined_readdir base w (path d) (Uncaught e, w, []) Hb).
      apply confined_ret.
    + destruct (remap (path d) files);
        [apply (confined_readdir base w (path d) (Resolved tt, w, []) Hb)
        |apply (confined_readdir base w (path d) (OutOfFuel, w, []) Hb)];
        apply confined_ret.
  - destruct (fs_readdir w (path d)) as [e|files] eqn:E.
    + rewrite (clean_unlisted _ _ _ _ Hdir E).
      apply (confined_readdir base w (path d) (Uncaught e, w, []) Hb).
      apply confined_ret.
    + rewrite (clean_listed _ _ _ _ Hdir E).
      apply confined_readdir; [exact Hb|].
      apply confined_forEach.
      eapply Forall_impl; [|exact (listed_below base w _ _ E Hb)].
      intros c Hc w'. now apply IH.
Qed.

(** A call of [Remove] stays at or below its target. *)
Lemma confined_Remove (fuel : nat) (target : string) (w : World) :
  confined (location target) w (Remove fuel target w).
Proof.
  assert (Hself : forall e, eventPath e = Some target \/ eventPath e = None ->
            forall p, eventPath e = Some p ->
                      prefix (location target) (location p)).
  { intros e [H|H] p Hp; rewrite H in Hp; inversion Hp; subst.
    apply prefix_refl. }
  destruct (probe w target) eqn:Hp.
  - rewrite (Remove_existing_run _ _ _ Hp).
    assert (Hpro : within (location target) (prologue target)).
    { repeat constructor; apply Hself; simpl; auto. }
    destruct (fs_readdir w target) as [e|files] eqn:E.
    + split; [|reflexivity].
      apply Forall_app. split; [exact Hpro|].
      repeat constructor. apply Hself; simpl; auto.
    + pose proof (confined_forEach (location target) (clean fuel)
                    (remap target files)) as Hwalk.
      specialize (Hwalk
        (Forall_impl _
           (fun d Hd w' => confined_clean (location target) fuel d w' Hd)
           (listed_below _ w _ _ E (prefix_refl _))) w).
      destruct (forEach (remap target files) (clean fuel) w)
        as [[o w1] t1].
      destruct Hwalk as [Ht Hw].
      assert (Hlist : within (location target)
                        (prologue target ++ FsReaddir target :: t1)).
      { apply Forall_app. split; [exact Hpro|].
        constructor; [apply Hself; simpl; auto | exact Ht]. }
      destruct o as [[]|e|e| |]; try (split; [exact Hlist | exact Hw]).
      destruct (fs_rm w1 target purgeOptions) as [[e|] w2] eqn:Er.
      * split.
        -- apply Forall_app. split; [exact Hpro|].
           constructor; [apply Hself; simpl; auto|].
           apply Forall_app. split; [exact Ht|].
           repeat constructor. apply Hself; simpl; auto.
        -- intros l Hl. cbn.
           rewrite (rm_frame _ _ _ _ _ Er l Hl). apply (Hw l Hl).
      * split.
        -- apply Forall_app. split; [exact Hpro|].
           constructor; [apply Hself; simpl; auto|].
           apply Forall_app. split; [exact Ht|].
           repeat constructor; apply Hself; simpl; auto.
        -- intros l Hl. cbn.
           rewrite (rm_frame _ _ _ _ _ Er l Hl). apply (Hw l Hl).
  - rewrite (Remove_absent_run _ _ _ Hp). split; [|reflexivity].
    repeat constructor; apply Hself; simpl; auto.
Qed.

End Confinement.

(** ** The in-memory host keeps the contract *)

Module MemFSFacts.
Import Path MemFS.

Lemma eqSegs_eq (a b : list string) : eqSegs a b = true <-> a = b.
Proof.
  revert b. induction a as [|x a IH]; intros [|y b]; simpl;
    try (split; [discriminate | congruence]); [easy|].
  rewrite andb_true_iff, String.eqb_eq, IH.
  split; [intros [-> ->]; reflexivity | intros H; now inversion H].
Qed.

Lemma eqSegs_refl (a : list string) : eqSegs a a = true.
Proof. now apply eqSegs_eq. Qed.

Lemma prefixb_prefix (a b : list string) : prefixb a b = true <-> prefix a b.
Proof.
  revert b. induction a as [|x a IH]; intros b; simpl.
  - split; [intros _; now exists b | reflexivity].
  - destruct b as [|y b].
    + split; [discriminate | intros [r Hr]; discriminate].
    + rewrite andb_true_iff, String.eqb_eq, IH. split.
      * intros [-> [r ->]]. now exists r.
      * intros [r Hr]. inversion Hr; subst. split; [reflexivity | now exists r].
Qed.

Lemma prefixb_refl (a : list string) : prefixb a a = true.
Proof. apply prefixb_prefix. exists []. now rewrite app_nil_r. Qed.

Lemma lookup_removeUnder (l k : list string) (w : World) :
  lookup k (removeUnder l w) = if prefixb l k then None else lookup k w.
Proof.
  induction w as [|[k' i] w IH]; simpl.
  - now destruct (prefixb l k).
  - destruct (eqSegs k' k) eqn:E.
    + apply eqSegs_eq in E. subst k'.
      destruct (prefixb l k); simpl; [exact IH|].
      now rewrite eqSegs_refl.
    + destruct (prefixb l k'); simpl; [exact IH|].
      now rewrite E.
Qed.

Lemma lookup_removeAt (l k : list string) (w : World) :
  lookup k (removeAt l w) = if eqSegs l k then None else lookup k w.
Proof.
  induction w as [|[k' i] w IH]; simpl.
  - now destruct (eqSegs l k).
  - destruct (eqSegs k' l) eqn:E; simpl.
    + apply eqSegs_eq in E. subst k'.
      rewrite IH. now destruct (eqSegs l k).
    + destruct (eqSegs k' k) eqn:E'; [|exact IH].
      apply eqSegs_eq in E'. subst k'.
      destruct (eqSegs l k) eqn:E''; [|reflexivity].
      apply eqSegs_eq in E''. subst l. now rewrite eqSegs_refl in E.
Qed.

Lemma childName_baseName (l k : list string) (n : string) :
  childName l k = Some n -> baseName n = true.
Proof.
  revert k. induction l as [|a l IH]; intros [|b k]; simpl; try discriminate.
  - destruct k; [|discriminate].
    destruct (baseName b) eqn:E; [|discriminate].
    now intros [= <-].
  - destruct (a =? b)%string; [apply IH | discriminate].
Qed.

Lemma childName_snoc (l k : list string) (n : string) :
  childName l k = Some n -> k = l ++ [n].
Proof.
  revert k. induction l as [|a l IH]; intros [|b k]; simpl; try discriminate.
  - destruct k; [|discriminate].
    destruct (baseName b); [|discriminate]. now intros [= <-].
  - destruct (a =? b)%string eqn:E; [|discriminate].
    apply String.eqb_eq in E. subst b. intros H. now rewrite (IH k H).
Qed.

(** An entry of the table rows of [l] is named by a base name and has the
    kind of what is stored under that name. *)
Lemma rows_lookup (l : list string) (w : World) (f : Dirent) :
  In f (rows l w) ->
  baseName (dirent_name f) = true /\
  exists i, lookup (l ++ [dirent_name f]) w = Some i /\
            dirent_type f = kind i.
Proof.
  unfold rows. intros H. apply in_flat_map in H as ([k i0] & _ & H).
  cbn [fst] in H.
  destruct (childName l k) as [n|] eqn:E; [|contradiction].
  destruct (lookup k w) as [i|] eqn:El; [|contradiction].
  destruct H as [<- | []]. cbn [dirent_name dirent_type]. split.
  - eapply childName_baseName, E.
  - exists i. now rewrite <- (childName_snoc _ _ _ E).
Qed.

Lemma In_distinct (l : list Dirent) (f : Dirent) :
  In f (distinct l) -> In f l.
Proof.
  induction l as [|g l IH]; simpl; [easy|].
  intros [-> | H]; [now left|].
  apply filter_In in H as [H _]. right. now apply IH.
Qed.

Lemma distinct_names (l : list Dirent) :
  NoDup (map dirent_name (distinct l)).
Proof.
  induction l as [|g l IH]; simpl; constructor.
  - rewrite in_map_iff. intros (h & Hn & Hh).
    apply filter_In in Hh as [_ Hh]. apply negb_true_iff in Hh.
    apply String.eqb_neq in Hh. contradiction.
  - clear - IH. induction (distinct l) as [|h t IHt]; simpl; [constructor|].
    inversion IH as [|? ? Hnot Hrest]; subst.
    destruct (negb (dirent_name h =? dirent_name g)%string); [|now apply IHt].
    simpl. constructor; [|now apply IHt].
    rewrite in_map_iff. intros (x & Hx & Hin).
    apply filter_In in Hin as [Hin _]. apply Hnot.
    rewrite in_map_iff. now exists x.
Qed.

Lemma insert_perm (f : Dirent) (l : list Dirent) :
  Permutation (f :: l) (insert f l).
Proof.
  induction l as [|g l IH]; simpl; [reflexivity|].
  destruct (String.leb (dirent_name f) (dirent_name g)); [reflexivity|].
  rewrite perm_swap. now apply perm_skip.
Qed.

Lemma sort_perm (l : list Dirent) : Permutation l (sort l).
Proof.
  induction l as [|f l IH]; simpl; [reflexivity|].
  rewrite <- insert_perm. now apply perm_skip.
Qed.

Lemma In_children (l : list string) (w : World) (f : Dirent) :
  In f (children l w) -> In f (rows l w).
Proof.
  unfold children. intros H. apply In_distinct.
  eapply Permutation_in; [symmetry; apply sort_perm | exact H].
Qed.

Lemma children_names (l : list string) (w : World) :
  Forall (fun f => baseName (dirent_name f) = true) (children l w).
Proof.
  apply Forall_forall. intros f Hf.
  now apply In_children, rows_lookup in Hf.
Qed.

Lemma children_distinct (l : list string) (w : World) :
  NoDup (map dirent_name (children l w)).
Proof.
  unfold children.
  eapply Permutation_NoDup;
    [apply Permutation_map, sort_perm | apply distinct_names].
Qed.

Lemma realpath_missing (cwd : string) (w : World) (p : string) :
  lookup (locate cwd p) w = None ->
  realpath cwd w p = inl (errno "ENOENT" "realpath").
Proof. intros H. unfold realpath. simpl. now rewrite H. Qed.

(** The in-memory host, run from an absolute directory, keeps the
    contract. *)
Lemma host_contract (cwd : string) :
  isAbsolute cwd = true -> @FileSystemContract World (host cwd).
Proof.
  intros Hcwd. constructor.
  - exact Hcwd.
  - intros w p files. simpl. unfold readdir.
    destruct (follow 40 w (locate cwd p)) as [e|l]; [discriminate|].
    destruct (lookup l w) as [i|]; [|discriminate].
    destruct (isDir i); [|discriminate].
    destruct (readdirFault i); [discriminate|].
    intros [= <-]. apply children_names.
  - intros w p w'. simpl. unfold rm. simpl force. simpl recursive.
    destruct (lookup (locate cwd p) w) as [i|] eqn:E.
    + rewrite andb_false_r.
      destruct (firstFault (locate cwd p) w); [discriminate|].
      intros [= <-]. eexists. apply realpath_missing.
      now rewrite lookup_removeUnder, prefixb_refl.
    + intros [= <-]. eexists. now apply realpath_missing.
  - intros w p r w'. simpl. unfold unlink, location. simpl fs_cwd.
    fold (locate cwd p).
    destruct (lookup (locate cwd p) w) as [i|]; [|now intros [= <- <-]].
    destruct (unlinkFault i); [now intros [= <- <-]|].
    destruct (isDir i); [now intros [= <- <-]|].
    intros [= <- <-] l Hl. rewrite lookup_removeAt.
    destruct (eqSegs (locate cwd p) l) eqn:E; [|reflexivity].
    apply eqSegs_eq in E. subst l. exfalso. apply Hl.
    exists []. now rewrite app_nil_r.
  - intros w p o r w'. simpl. unfold rm, location. simpl fs_cwd.
    fold (locate cwd p).
    destruct (lookup (locate cwd p) w) as [i|].
    + destruct (isDir i && negb (recursive o)); [now intros [= <- <-]|].
      destruct (firstFault (locate cwd p) w); [now intros [= <- <-]|].
      intros [= <- <-] l Hl. rewrite lookup_removeUnder.
      destruct (prefixb (locate cwd p) l) eqn:E; [|reflexivity].
      apply prefixb_prefix in E. contradiction.
    + destruct (force o); now intros [= <- <-].
Qed.

Lemma ci_contract : @FileSystemContract World ci.
Proof. apply host_contract. reflexivity. Qed.

End MemFSFacts.

(** ** Properties of the specification *)

Section Properties.

Context {World : Type} {FS : FileSystem World}.

Local Open Scope promise_scope.

Lemma forEach_reaches {A} (body : A -> M unit) (before : list A) (x : A)
  (after : list A) (w w1 : World) (t1 : list event) o w2 t2 :
  AllSettled body before w w1 t1 ->
  body x w1 = (o, w2, t2) ->
  o <> Resolved tt ->
  forEach (before ++ x :: after) body w = (o, w2, t1 ++ t2).
Proof.
  intros Hs Hx Ho. induction Hs as [w | y ys w wa ta wb tb Hy _ IH].
  - now apply forEach_cons_stopped.
  - change ((y :: ys) ++ x :: after) with (y :: (ys ++ x :: after)).
    rewrite (forEach_cons_resolved _ _ _ _ _ _ Hy), (IH Hx).
    cbn. now rewrite app_assoc.
Qed.

Lemma unlistable_stops (fuel : nat) (d : Descriptor) (w : World)
  (e : ErrnoException) (w' : World) (t : list event) :
  ReachesUnlistable fuel d w e w' t ->
  clean fuel d w = (Uncaught e, w', t).
Proof.
  induction 1 as [fuel d w e Hd E
                 | fuel d w files before x after w1 t1 e w2 t2
                     Hd E Hr Hs _ IH].
  - now apply clean_unlisted.
  - rewrite (clean_listed _ _ _ _ Hd E), Hr.
    now rewrite (forEach_reaches _ _ _ _ _ _ _ _ _ _ Hs IH) by discriminate.
Qed.

(** The run ends with the listing that failed. *)
Lemma unlistable_last (fuel : nat) (d : Descriptor) (w : World)
  (e : ErrnoException) (w' : World) (t : list event) :
  ReachesUnlistable fuel d w e w' t ->
  exists t' p, t = t' ++ [FsReaddir p] /\ fs_readdir w' p = inl e.
Proof.
  induction 1 as [fuel d w e Hd E
                 | fuel d w files before x after w1 t1 e w2 t2
                     Hd E Hr Hs _ IH].
  - now exists [], (path d).
  - destruct IH as (t' & p & -> & Hp).
    exists (FsReaddir (path d) :: t1 ++ t'), p. split; [|exact Hp].
    cbn. now rewrite app_assoc.
Qed.

(** C6.  For every path that the probe does not find, [Remove] returns
    successfully and leaves the filesystem alone: the world is unchanged, and
    beyond the probe nothing is asked of it: no listing, no unlink, no
    removal. *)
Theorem Remove_absent_is_noop (fuel : nat) (target : string) (w : World) :
  probe w target = false ->
  outcomeOf (Remove fuel target w) = Resolved tt /\
  worldOf (Remove fuel target w) = w /\
  traceOf (Remove fuel target w) = [FsRealpath target; StdoutWrite newline] /\
  count isReaddir (traceOf (Remove fuel target w)) = 0 /\
  count isMutation (traceOf (Remove fuel target w)) = 0.
Proof.
  intros H. rewrite (Remove_absent_run _ _ _ H). repeat split.
Qed.

(** C2 (what the code does).  For every target that the probe finds and
    whose listing fails with [e], the callback of the listing throws [e]:
    the run ends there with [e] as an exception that no [catch] receives.
    The promise of [Remove] is not rejected, and a caller that awaits
    [Remove] inside [try]/[catch] does not see its handler run, whatever
    the handler is: the failure does not reach the caller.  Nothing follows
    the listing: the purge of the Finalizer is not attempted and the
    filesystem is unchanged. *)
Theorem top_listing_failure_reaches_no_catch (fuel : nat) (target : string)
  (w : World) (e : ErrnoException) :
  probe w target = true ->
  fs_readdir w target = inl e ->
  outcomeOf (Remove fuel target w) = Uncaught e /\
  (forall e', outcomeOf (Remove fuel target w) <> Rejected e') /\
  (forall handler : ErrnoException -> M unit,
      tryCatch (Remove fuel target) handler w = Remove fuel target w) /\
  worldOf (Remove fuel target w) = w /\
  traceOf (Remove fuel target w) = prologue target ++ [FsReaddir target] /\
  count isPurge (traceOf (Remove fuel target w)) = 0 /\
  count isMutation (traceOf (Remove fuel target w)) = 0.
Proof.
  intros Hp E. unfold tryCatch.
  rewrite (Remove_existing_run _ _ _ Hp), E. repeat split. discriminate.
Qed.

(** C3 (what the code does).  For every leaf entry whose unlink fails,
    whatever the code of the failure, [clean] makes one forced,
    non-recursive removal, records no warning and resolves. *)
Theorem retry_whatever_the_code (fuel : nat) (d : Descriptor) (w w1 : World)
  (e : ErrnoException) :
  directory (properties d) = false ->
  probe w (path d) = true ->
  fs_unlink w (path d) = (Some e, w1) ->
  outcomeOf (clean fuel d w) = Resolved tt /\
  traceOf (clean fuel d w) =
    [ FsRealpath (path d);
      ConsoleDebug ["[Debug] Removing"; path d; "..."];
      FsUnlink (path d);
      FsRm (path d) retryOptions ] /\
  count isForcedRemoval (traceOf (clean fuel d w)) = 1 /\
  count isWarning (traceOf (clean fuel d w)) = 0.
Proof.
  intros Hd Hp Hu. rewrite (clean_leaf _ _ _ Hd), leaf_run, Hp, Hu.
  repeat split.
Qed.

(** C4 (what the code does).  For every leaf entry whose path the probe does
    not find, [clean] attempts no unlink and never settles: its promise stays
    pending. *)
Theorem missing_leaf_never_settles (fuel : nat) (d : Descriptor) (w : World) :
  directory (properties d) = false ->
  probe w (path d) = false ->
  outcomeOf (clean fuel d w) = Pending /\
  worldOf (clean fuel d w) = w /\
  count isUnlink (traceOf (clean fuel d w)) = 0 /\
  count isMutation (traceOf (clean fuel d w)) = 0.
Proof.
  intros Hd Hp. rewrite (clean_leaf _ _ _ Hd), leaf_run, Hp.
  repeat split.
Qed.

(** C7 (as amended).  Within one [Remove] on a target that the probe finds
    and that can be listed: (1) the traversal issues no purge; (2) when
    every [clean] call on the entries, made one after the other in listing
    order, has returned, the purge is issued exactly once, after all the
    events of the traversal, and nothing but the closing newline follows
    it; (3) when they have not all returned, no purge is issued; (4) a
    [clean] call on a directory that can be listed returns exactly when the
    [clean] calls on all its children, made one after the other in listing
    order, have returned, its events being the listing followed by theirs,
    child by child; (5) a [clean] call on a directory returns only if its
    listing succeeded; (6) a [clean] call on a leaf that the probe finds
    returns after it has issued the unlink of that leaf. *)
Theorem purge_follows_traversal (fuel : nat) (target : string) (w : World)
  (files : list Dirent) :
  probe w target = true ->
  fs_readdir w target = inr files ->
  count isPurge (traceOf (forEach (remap target files) (clean fuel) w)) = 0 /\
  (forall w1 t1,
      AllSettled (clean fuel) (remap target files) w w1 t1 ->
      count isPurge (traceOf (Remove fuel target w)) = 1 /\
      count isPurge t1 = 0 /\
      exists tail,
        traceOf (Remove fuel target w) =
          prologue target ++ FsReaddir target :: t1
            ++ FsRm target purgeOptions :: tail /\
        (tail = [] \/ tail = [StdoutWrite newline])) /\
  ((~ exists w1 t1, AllSettled (clean fuel) (remap target files) w w1 t1) ->
   count isPurge (traceOf (Remove fuel target w)) = 0) /\
  (forall fuel' d (w0 : World) files',
      directory (properties d) = true ->
      fs_readdir w0 (path d) = inr files' ->
      forall (w' : World) t,
        clean (S fuel') d w0 = (Resolved tt, w', t) <->
        exists t',
          t = FsReaddir (path d) :: t' /\
          AllSettled (clean fuel') (remap (path d) files') w0 w' t') /\
  (forall fuel' d (w0 w' : World) t,
      directory (properties d) = true ->
      clean fuel' d w0 = (Resolved tt, w', t) ->
      exists files', fs_readdir w0 (path d) = inr files') /\
  (forall fuel' d (w0 : World),
      directory (properties d) = false ->
      probe w0 (path d) = true ->
      exists (w' : World) t,
        clean fuel' d w0 = (Resolved tt, w', t) /\
        In (FsUnlink (path d)) t /\
        count isPurge t = 0).
Proof.
  intros Hp E.
  pose proof (walk_events fuel (remap target files) w) as Hev.
  pose proof (walker_no_purge _ Hev) as Hnone.
  pose proof (forEach_settled (clean fuel) (remap target files) w) as Hiff.
  rewrite (Remove_existing_run _ _ _ Hp), E.
  destruct (forEach (remap target files) (clean fuel) w) as [[o w1] t1].
  cbn [traceOf snd] in Hnone.
  assert (Hcount : forall tail,
            count isPurge
              (prologue target ++ FsReaddir target :: t1 ++ tail)
            = count isPurge tail).
  { intros tail. rewrite count_app, prologue_no_purge.
    change (FsReaddir target :: t1 ++ tail)
      with ([FsReaddir target] ++ t1 ++ tail).
    now rewrite !count_app, Hnone. }
  split; [exact Hnone|].
  split; [|split; [|split; [|split]]].
  - intros w1' t1' Hs. apply Hiff in Hs. inversion Hs; subst.
    destruct (fs_rm w1' target purgeOptions) as [[e|] w2];
      cbn [traceOf snd]; rewrite Hcount;
      (split; [reflexivity|]); (split; [exact Hnone|]);
      eexists; (split; [reflexivity|]); [now left | now right].
  - intros Hn.
    destruct o as [[]|e|e| |];
      try (cbn [traceOf snd]; rewrite <- (app_nil_r t1); now rewrite Hcount).
    exfalso. apply Hn. exists w1, t1. now apply Hiff.
  - intros fuel' d w0 files' Hd E' w' t.
    rewrite (clean_listed _ _ _ _ Hd E').
    pose proof (forEach_settled (clean fuel') (remap (path d) files') w0)
      as Hiff'.
    destruct (forEach (remap (path d) files') (clean fuel') w0)
      as [[o' w1'] t1'].
    cbn [outcomeOf worldOf traceOf fst snd]. split.
    + intros [= -> <- <-]. exists t1'. split; [reflexivity|].
      now apply Hiff'.
    + intros (t' & -> & Hs). apply Hiff' in Hs. now inversion Hs.
  - intros fuel' d w0 w' t Hd Hc.
    destruct (fs_readdir w0 (path d)) as [e|files'] eqn:E'.
    + rewrite (clean_unlisted _ _ _ _ Hd E') in Hc. discriminate.
    + now exists files'.
  - intros fuel' d w0 Hd Hpd.
    rewrite (clean_leaf _ _ _ Hd), leaf_run, Hpd.
    destruct (fs_unlink w0 (path d)) as [[e|] w1'];
      eexists _, _; (split; [reflexivity|]);
      (split; [cbn; tauto | reflexivity]).
Qed.

(** C8 (as amended).  A directory whose listing fails is fatal wherever the
    traversal meets it, as it is at the top level: when the traversal of an
    entry reaches, at any depth, a directory whose listing fails with [e],
    [Remove] ends with [e] in the world of that listing, and its events are
    those issued until then, the failed listing last.  The entries that
    come after are not visited: the run is the same whatever they are.  No
    warning is recorded and the purge is not attempted. *)
Theorem listing_failure_is_fatal_at_any_depth (fuel : nat) (target : string)
  (w : World) (files : list Dirent) (before : list Descriptor)
  (x : Descriptor) (after : list Descriptor) (w1 : World) (t1 : list event)
  (e : ErrnoException) (w2 : World) (t2 : list event) :
  probe w target = true ->
  fs_readdir w target = inr files ->
  remap target files = before ++ x :: after ->
  AllSettled (clean fuel) before w w1 t1 ->
  ReachesUnlistable fuel x w1 e w2 t2 ->
  Remove fuel target w =
    (Uncaught e, w2, prologue target ++ FsReaddir target :: t1 ++ t2) /\
  (exists t' p, t2 = t' ++ [FsReaddir p] /\ fs_readdir w2 p = inl e) /\
  (forall after',
      forEach (before ++ x :: after') (clean fuel) w
      = (Uncaught e, w2, t1 ++ t2)) /\
  count isWarning (traceOf (Remove fuel target w)) = 0 /\
  count isPurge (traceOf (Remove fuel target w)) = 0.
Proof.
  intros Hp E Hr Hs Hx.
  pose proof (unlistable_stops _ _ _ _ _ _ Hx) as Hc.
  pose proof (walk_events fuel (remap target files) w) as Hev.
  assert (Hrun : forall after',
             forEach (before ++ x :: after') (clean fuel) w
             = (Uncaught e, w2, t1 ++ t2)).
  { intros after'.
    now rewrite (forEach_reaches _ _ _ after' _ _ _ _ _ _ Hs Hc)
      by discriminate. }
  rewrite (Remove_existing_run _ _ _ Hp), E.
  rewrite Hr in *. rewrite (Hrun after) in *.
  cbn [traceOf outcomeOf fst snd] in *.
  split; [reflexivity|].
  split; [exact (unlistable_last _ _ _ _ _ _ Hx)|].
  split; [exact Hrun|].
  change (FsReaddir target :: t1 ++ t2)
    with ([FsReaddir target] ++ t1 ++ t2).
  rewrite !(count_app _ (prologue target)).
  rewrite !(count_app _ [FsReaddir target]).
  rewrite prologue_no_warning, prologue_no_purge.
  now rewrite (walker_no_warning _ Hev), (walker_no_purge _ Hev).
Qed.

End Properties.

Section PropertiesUnderContract.

Context {World : Type} {FS : FileSystem World}.
Context {Contract : FileSystemContract World}.

Local Open Scope promise_scope.




(** C10.  Every descriptor of one successful listing has for path the join
    of the resolved listing directory with its base name: its location is
    the location of the listed directory followed by that name.  Every path
    that [clean] hands to the filesystem for such a descriptor lies in the
    listed directory, and every path that [Remove] hands to it lies at or
    below the target. *)
Theorem descriptor_paths_lie_in_listed_directory (w : World) (loc : string)
  (files : list Dirent) :
  fs_readdir w loc = inr files ->
  Forall (fun d =>
            path d = Path.join [Path.resolve fs_cwd [loc]; name d] /\
            location (path d) = location loc ++ [name d])
         (remap loc files) /\
  (forall fuel d (w0 : World),
      In d (remap loc files) ->
      within (location loc) (traceOf (clean fuel d w0))) /\
  (forall fuel target (w0 : World),
      within (location target) (traceOf (Remove fuel target w0))).
Proof.
  intros E. pose proof (readdir_names _ _ _ E) as Hn.
  split; [|split].
  - rewrite remap_map. apply Forall_map.
    eapply Forall_impl; [|exact Hn].
    intros f Hf. split.
    + now apply descriptorOf_join.
    + rewrite descriptorOf_path by assumption.
      apply location_canonical, Forall_app. split.
      * apply location_baseNames.
      * now constructor.
  - intros fuel d w0 Hd.
    pose proof (listed_below (location loc) w loc files E
                  (prefix_refl _)) as Hb.
    rewrite Forall_forall in Hb.
    now apply (confined_clean (location loc) fuel d w0 (Hb d Hd)).
  - intros fuel target w0. now apply (confined_Remove fuel target w0).
Qed.

End PropertiesUnderContract.

(** ** Trees reached without symbolic link *)

Section Entries.

Context {World : Type} {FS : FileSystem World}.
Hypothesis Hcwd : Path.isAbsolute fs_cwd = true.

Import Path PathFacts.

Lemma entry_canonical (loc n : string) :
  baseName n = true ->
  entryPath loc n = ofSegments (location loc ++ [n]).
Proof.
  intros Hn. unfold entryPath, location.
  rewrite (resolve_ofSegments _ _ Hcwd), (segments_resolve _ _ Hcwd).
  rewrite resolvedSegments_child by assumption.
  apply join_canonical, Forall_app. split.
  - apply resolvedSegments_baseNames.
  - now constructor.
Qed.

Lemma entry_names (loc n : string) :
  baseName n = true ->
  Forall (fun x => baseName x = true) (location loc ++ [n]).
Proof.
  intros Hn. apply Forall_app. split; [|now constructor].
  unfold location. rewrite (segments_resolve _ _ Hcwd).
  apply resolvedSegments_baseNames.
Qed.

Lemma entry_resolved (loc n : string) :
  baseName n = true ->
  resolve fs_cwd [entryPath loc n] = entryPath loc n.
Proof.
  intros Hn. rewrite (entry_canonical _ _ Hn).
  apply resolve_canonical. now apply entry_names.
Qed.

Lemma entry_location (loc n : string) :
  baseName n = true ->
  location (entryPath loc n) = location loc ++ [n].
Proof.
  intros Hn. unfold location at 1. rewrite (entry_resolved _ _ Hn).
  rewrite (entry_canonical _ _ Hn).
  apply segments_ofSegments. now apply entry_names.
Qed.

(** What is reached without symbolic link is found by the probe. *)
Lemma physical_probe (w : World) (p : string) :
  physical w p -> probe w p = true.
Proof.
  unfold physical, probe. intros ->.
  now rewrite (resolve_ofSegments _ _ Hcwd).
Qed.

End Entries.

Section Tree.

Context {World : Type} {FS : FileSystem World}.
Context {Tree : TreeContract World}.

Import Path.

Local Open Scope promise_scope.

Lemma entry_not_prefix (l : list string) (n : string) : ~ prefix (l ++ [n]) l.
Proof.
  intros [rest H]. apply (f_equal (@length string)) in H.
  rewrite !length_app in H. cbn in H. lia.
Qed.

Lemma entry_prefix_same (l : list string) (a b : string) :
  prefix (l ++ [a]) (l ++ [b]) -> a = b.
Proof.
  intros [rest H]. rewrite <- app_assoc in H.
  apply app_inv_head in H. now inversion H.
Qed.

Lemma entry_below (l k : list string) (n : string) :
  prefix (l ++ [n]) k -> prefix l k.
Proof.
  intros [rest ->]. exists (n :: rest). now rewrite <- app_assoc.
Qed.

Lemma keeps_world {A B} (touched : list string -> Prop) (w : World)
  (r : outcome A * World * list event) (r' : outcome B * World * list event) :
  worldOf r' = worldOf r -> keeps touched w r -> keeps touched w r'.
Proof. unfold keeps. now intros ->. Qed.

Lemma keeps_same {A} (touched : list string -> Prop) (w : World)
  (r : outcome A * World * list event) :
  worldOf r = w -> keeps touched w r.
Proof. unfold keeps. intros ->. now split. Qed.

Lemma keeps_more {A} (T T' : list string -> Prop) (w : World)
  (r : outcome A * World * list event) :
  (forall l, T l -> T' l) -> keeps T w r -> keeps T' w r.
Proof.
  intros H [Hn Hp]. split.
  - intros l Hl. apply Hn. intros Ht. now apply Hl, H.
  - intros q Hq Hl. apply Hp; [exact Hq|]. intros Ht. now apply Hl, H.
Qed.

Lemma keeps_then {A B} (T : list string -> Prop) (w w1 : World)
  (o : outcome A) (t1 : list event) (r : outcome B * World * list event) :
  keeps T w (o, w1, t1) -> keeps T w1 r -> keeps T w r.
Proof.
  intros [Hn1 Hp1] [Hn2 Hp2]. split.
  - intros l Hl. rewrite (Hn2 l Hl). apply (Hn1 l Hl).
  - intros q Hq Hl. apply Hp2; [|exact Hl]. now apply Hp1.
Qed.

(** The leaf branch on an entry of a directory reached without symbolic
    link changes nothing but that entry. *)
Lemma leaf_keeps (loc : string) (f : Dirent) (w : World) :
  physical w loc ->
  baseName (dirent_name f) = true ->
  keeps (prefix (location loc ++ [dirent_name f])) w
    (leaf (descriptorOf loc f) w).
Proof.
  intros Hloc Hn. rewrite leaf_run.
  change (path (descriptorOf loc f)) with (entryPath loc (dirent_name f)).
  destruct (probe w (entryPath loc (dirent_name f)));
    [|now apply keeps_same].
  destruct (fs_unlink w (entryPath loc (dirent_name f))) as [r w1] eqn:Eu.
  destruct (tree_unlink _ _ _ _ _ Hloc Hn Eu) as (Hf1 & Hp1 & _).
  assert (Hne : forall l, ~ prefix (location loc ++ [dirent_name f]) l ->
                          l <> location loc ++ [dirent_name f]).
  { intros l Hl ->. apply Hl. exists []. now rewrite app_nil_r. }
  assert (H1 : keeps (prefix (location loc ++ [dirent_name f])) w
                 (Resolved tt, w1, @nil event)).
  { split.
    - intros l Hl. now apply Hf1, Hne.
    - intros q Hq Hl. apply Hp1; [exact Hq | now apply Hne]. }
  destruct r as [e|].
  - destruct (fs_rm w1 (entryPath loc (dirent_name f)) retryOptions)
      as [r2 w2] eqn:Er.
    assert (Hloc1 : physical w1 loc).
    { apply Hp1; [exact Hloc|]. intros H.
      apply (entry_not_prefix (location loc) (dirent_name f)).
      exists []. now rewrite app_nil_r. }
    destruct (tree_retry _ _ _ _ _ Hloc1 Hn Er) as (Hf2 & Hp2 & _).
    eapply keeps_then; [exact H1|]. split; cbn [worldOf fst snd].
    + exact Hf2.
    + exact Hp2.
  - eapply keeps_world; [|exact H1]. reflexivity.
Qed.

(** The loop over the entries of a directory reached without symbolic
    link, when its body keeps to the entry it is given. *)
Lemma forEach_keeps (body : Descriptor -> M unit) (loc : string) :
  (forall f (w : World),
      physical w loc ->
      baseName (dirent_name f) = true ->
      (isDirectory f = true -> physical w (entryPath loc (dirent_name f))) ->
      keeps (prefix (location loc ++ [dirent_name f])) w
        (body (descriptorOf loc f) w)) ->
  forall files (w : World),
    physical w loc ->
    Forall (fun f => baseName (dirent_name f) = true) files ->
    NoDup (map dirent_name files) ->
    (forall f, In f files -> isDirectory f = true ->
               physical w (entryPath loc (dirent_name f))) ->
    keeps (fun l => exists f, In f files /\
                              prefix (location loc ++ [dirent_name f]) l)
      w (forEach (remap loc files) body w).
Proof.
  intros Hbody. induction files as [|f files IH]; intros w Hloc Hn Hd Hdir.
  - now apply keeps_same.
  - inversion Hn as [|? ? Hnf Hnrest]; subst.
    inversion Hd as [|? ? Hfresh Hdrest]; subst.
    pose proof (Hbody f w Hloc Hnf (Hdir f (or_introl eq_refl))) as Hk.
    change (remap loc (f :: files))
      with (descriptorOf loc f :: remap loc files).
    destruct (body (descriptorOf loc f) w) as [[o w1] t1] eqn:E.
    assert (Hk' : keeps (fun l => exists g, In g (f :: files) /\
                            prefix (location loc ++ [dirent_name g]) l)
                    w (o, w1, t1)).
    { eapply keeps_more; [|exact Hk]. intros l Hl. exists f. split;
        [now left | exact Hl]. }
    destruct o as [[]| | | |];
      try (rewrite (forEach_cons_stopped _ _ _ _ _ _ _ E) by discriminate;
           exact Hk').
    rewrite (forEach_cons_resolved _ _ _ _ _ _ E).
    eapply keeps_then; [exact Hk'|].
    eapply keeps_world; [reflexivity|].
    destruct Hk as [_ Hp].
    eapply keeps_more; [|apply IH].
    + intros l (g & Hg & Hl). exists g. split; [now right | exact Hl].
    + apply Hp; [exact Hloc | apply entry_not_prefix].
    + exact Hnrest.
    + exact Hdrest.
    + intros g Hg Hgd. apply Hp; [apply Hdir; [now right | exact Hgd]|].
      rewrite (entry_location tree_cwd)
        by (rewrite Forall_forall in Hnrest; now apply Hnrest).
      intros Hpre. apply entry_prefix_same in Hpre.
      apply Hfresh. rewrite Hpre. now apply in_map.
Qed.

(** A call of [clean] on an entry of a directory reached without symbolic
    link changes nothing but that entry and what is below it. *)
Lemma clean_keeps (fuel : nat) :
  forall (loc : string) (f : Dirent) (w : World),
    physical w loc ->
    baseName (dirent_name f) = true ->
    (isDirectory f = true -> physical w (entryPath loc (dirent_name f))) ->
    keeps (prefix (location loc ++ [dirent_name f])) w
      (clean fuel (descriptorOf loc f) w).
Proof.
  induction fuel as [|fuel IH]; intros loc f w Hloc Hn Hdir;
    destruct (isDirectory f) eqn:Hd;
    try (rewrite clean_leaf by exact Hd; now apply leaf_keeps);
    assert (Hd' : directory (properties (descriptorOf loc f)) = true)
      by exact Hd.
  - destruct (fs_readdir w (path (descriptorOf loc f))) as [e|files] eqn:E.
    + rewrite (clean_unlisted _ _ _ _ Hd' E). now apply keeps_same.
    + rewrite (clean_listed_any _ _ _ _ Hd' E). apply keeps_same.
      cbn [worldOf fst snd]. clear.
      generalize (remap (path (descriptorOf loc f)) files).
      intros l. now destruct l.
  - destruct (fs_readdir w (path (descriptorOf loc f))) as [e|files] eqn:E.
    + rewrite (clean_unlisted _ _ _ _ Hd' E). now apply keeps_same.
    + rewrite (clean_listed _ _ _ _ Hd' E).
      change (path (descriptorOf loc f))
        with (entryPath loc (dirent_name f)) in *.
      eapply keeps_world; [reflexivity|].
      eapply keeps_more;
        [|apply (forEach_keeps (clean fuel) (entryPath loc (dirent_name f)))].
      * intros l (g & _ & Hl). apply entry_below in Hl.
        now rewrite (entry_location tree_cwd) in Hl.
      * intros g w0. apply IH.
      * now apply Hdir.
      * exact (tree_names _ _ _ E).
      * exact (tree_distinct _ _ _ E).
      * intros g Hg Hgd.
        exact (tree_directory _ _ _ _ (Hdir eq_refl) E Hg Hgd).
Qed.

(** A call of [Remove] on a target reached without symbolic link changes
    no location outside the tree of the target. *)
Lemma Remove_frame (fuel : nat) (target : string) (w : World) :
  physical w target ->
  forall l, ~ prefix (location target) l ->
            untouched l w (Remove fuel target w).
Proof.
  intros Hphys l Hl. unfold untouched.
  rewrite (Remove_existing_run _ _ _ (physical_probe tree_cwd _ _ Hphys)).
  destruct (fs_readdir w target) as [e|files] eqn:E; [reflexivity|].
  pose proof (forEach_keeps (clean fuel) target
                (fun f w0 => clean_keeps fuel target f w0)
                files w Hphys (tree_names _ _ _ E) (tree_distinct _ _ _ E)
                (fun f Hf Hd => tree_directory _ _ _ _ Hphys E Hf Hd))
    as [Hnode Hp].
  destruct (forEach (remap target files) (clean fuel) w) as [[o w1] t1].
  cbn [worldOf fst snd] in Hnode, Hp.
  assert (Hout : ~ exists f, In f files /\
                   prefix (location target ++ [dirent_name f]) l).
  { intros (f & _ & Hf). now apply Hl, (entry_below _ _ _ Hf). }
  destruct o as [[]|e|e| |]; try exact (Hnode l Hout).
  assert (Hphys1 : physical w1 target).
  { apply Hp; [exact Hphys|]. intros (f & _ & Hf).
    exact (entry_not_prefix _ _ Hf). }
  destruct (fs_rm w1 target purgeOptions) as [[e|] w2] eqn:Er;
    cbn [worldOf fst snd];
    rewrite (tree_purge _ _ _ _ Hphys1 Er l Hl); exact (Hnode l Hout).
Qed.



End Tree.

(** ** The in-memory host keeps the laws of such trees *)

Module MemFSTree.
Import Path PathFacts MemFS MemFSFacts.

Lemma segments_baseNames (p : string) :
  Forall (fun n => baseName n = true) (segments p).
Proof.
  unfold segments. apply Forall_rev.
  apply stack_false_baseName; [apply split_pieces | constructor].
Qed.

Lemma follow_baseNames (hops : nat) (w : World) (l0 l : list string) :
  Forall (fun n => baseName n = true) l0 ->
  follow hops w l0 = inr l ->
  Forall (fun n => baseName n = true) l.
Proof.
  revert l0. induction hops as [|hops IH]; intros l0 H0; simpl;
    destruct (lookup l0 w) as [i|]; try discriminate;
    destruct (isLink i); try discriminate;
    try (intros [= <-]; exact H0).
  apply IH, segments_baseNames.
Qed.

Lemma follow_found (hops : nat) (w : World) (l0 l : list string) :
  follow hops w l0 = inr l ->
  exists i, lookup l w = Some i /\ isLink i = false.
Proof.
  revert l0. induction hops as [|hops IH]; intros l0; simpl;
    destruct (lookup l0 w) as [i|] eqn:E; try discriminate;
    destruct (isLink i) eqn:Ei; try discriminate;
    try (intros [= <-]; now exists i).
  apply IH.
Qed.

Lemma follow_here (hops : nat) (w : World) (l : list string) (i : Inode) :
  lookup l w = Some i -> isLink i = false -> follow hops w l = inr l.
Proof. intros H Hi. destruct hops; simpl; now rewrite H, Hi. Qed.

Section Host.

Variable cwd : string.
Hypothesis Hcwd : isAbsolute cwd = true.

Lemma locate_baseNames (p : string) :
  Forall (fun n => baseName n = true) (locate cwd p).
Proof. apply segments_baseNames. Qed.

Lemma resolve_locate (p : string) :
  resolve cwd [p] = ofSegments (locate cwd p).
Proof.
  unfold locate. rewrite (segments_resolve _ _ Hcwd).
  now apply resolve_ofSegments.
Qed.

(** In the table, what is reached without symbolic link is what is stored
    and is no link. *)
Lemma physical_lookup (w : World) (p : string) :
  @physical World (host cwd) w p <->
  exists i, lookup (locate cwd p) w = Some i /\ isLink i = false.
Proof.
  unfold physical. cbn [fs_realpath fs_cwd host]. unfold realpath. split.
  - destruct (follow 40 w (locate cwd p)) as [e|l] eqn:E; [discriminate|].
    intros [= H]. rewrite resolve_locate in H.
    apply (f_equal segments) in H.
    rewrite !segments_ofSegments in H
      by (first [apply locate_baseNames
                | exact (follow_baseNames _ _ _ _ (locate_baseNames p) E)]).
    subst l. exact (follow_found _ _ _ _ E).
  - intros (i & Hl & Hi). rewrite (follow_here _ _ _ _ Hl Hi).
    now rewrite resolve_locate.
Qed.

Lemma locate_entry (loc n : string) :
  baseName n = true ->
  locate cwd (@entryPath World (host cwd) loc n) = locate cwd loc ++ [n].
Proof. intros Hn. exact (@entry_location World (host cwd) Hcwd loc n Hn). Qed.

(** The in-memory host, run from an absolute directory, keeps the laws of
    trees reached without symbolic link. *)
Lemma host_tree : @TreeContract World (host cwd).
Proof.
  constructor.
  - exact Hcwd.
  - exact (@readdir_names World (host cwd) (host_contract cwd Hcwd)).
  - intros w p files. cbn [fs_readdir host]. unfold readdir.
    destruct (follow 40 w (locate cwd p)) as [e|l]; [discriminate|].
    destruct (lookup l w) as [i|]; [|discriminate].
    destruct (isDir i); [|discriminate].
    destruct (readdirFault i); [discriminate|].
    intros [= <-]. apply children_distinct.
  - intros w loc files f Hloc E Hf Hd.
    apply physical_lookup in Hloc as (i & Hl & Hi).
    cbn [fs_readdir host] in E. unfold readdir in E.
    rewrite (follow_here _ _ _ _ Hl Hi), Hl in E.
    destruct (isDir i); [|discriminate].
    destruct (readdirFault i); [discriminate|].
    injection E as <-.
    apply In_children, rows_lookup in Hf as (Hn & i' & Hl' & Hk).
    apply physical_lookup. rewrite (locate_entry _ _ Hn).
    exists i'. split; [exact Hl'|].
    unfold isLink. unfold isDirectory in Hd. rewrite Hk in Hd.
    now destruct (kind i').
  - intros w loc n r w' _ Hn. cbn [fs_unlink host]. unfold unlink.
    unfold location. cbn [fs_cwd host].
    fold (locate cwd loc). rewrite (locate_entry _ _ Hn).
    assert (Hsame : (r, w') = (r, w) ->
              (forall l, l <> locate cwd loc ++ [n] ->
                         lookup l w' = lookup l w) /\
              (forall q, @physical World (host cwd) w q ->
                         segments (resolve cwd [q]) <> locate cwd loc ++ [n] ->
                         @physical World (host cwd) w' q)) by
      (intros [= ->]; now split).
    destruct (lookup (locate cwd loc ++ [n]) w) as [i|] eqn:El.
    + destruct (unlinkFault i);
        [intros [= <- <-]; split; [|split]; try easy; now apply Hsame|].
      destruct (isDir i);
        [intros [= <- <-]; split; [|split]; try easy; now apply Hsame|].
      intros [= <- <-]. split; [|split].
      * intros l Hl. cbn [fs_node host]. rewrite lookup_removeAt.
        destruct (eqSegs (locate cwd loc ++ [n]) l) eqn:E; [|reflexivity].
        apply eqSegs_eq in E. now subst l.
      * intros q Hq Hne. apply physical_lookup.
        apply physical_lookup in Hq as (i' & Hl' & Hi').
        exists i'. split; [|exact Hi']. rewrite lookup_removeAt.
        destruct (eqSegs (locate cwd loc ++ [n]) (locate cwd q)) eqn:E;
          [|exact Hl'].
        apply eqSegs_eq in E. now rewrite E in Hne.
      * intros _. cbn [fs_node host].
        now rewrite lookup_removeAt, eqSegs_refl.
    + intros [= <- <-]. split; [|split]; try easy.
  - intros w loc n r w' _ Hn. cbn [fs_rm host]. unfold rm.
    unfold location. cbn [fs_cwd host force recursive].
    fold (locate cwd loc). rewrite (locate_entry _ _ Hn).
    destruct (lookup (locate cwd loc ++ [n]) w) as [i|] eqn:El.
    + rewrite andb_true_r.
      destruct (isDir i);
        [intros [= <- <-]; split; [|split]; easy|].
      destruct (firstFault (locate cwd loc ++ [n]) w);
        [intros [= <- <-]; split; [|split]; easy|].
      intros [= <- <-]. split; [|split].
      * intros l Hl. cbn [fs_node host]. rewrite lookup_removeUnder.
        destruct (prefixb (locate cwd loc ++ [n]) l) eqn:E; [|reflexivity].
        apply prefixb_prefix in E. contradiction.
      * intros q Hq Hne. apply physical_lookup.
        apply physical_lookup in Hq as (i' & Hl' & Hi').
        exists i'. split; [|exact Hi']. rewrite lookup_removeUnder.
        destruct (prefixb (locate cwd loc ++ [n]) (locate cwd q)) eqn:E;
          [|exact Hl'].
        apply prefixb_prefix in E. contradiction.
      * intros _. cbn [fs_node host].
        now rewrite lookup_removeUnder, prefixb_refl.
    + intros [= <- <-]. split; [|split]; easy.
  - intros w target r w' _.
    exact (@rm_frame World (host cwd) (host_contract cwd Hcwd)
             w target _ r w').
Qed.

End Host.

Lemma ci_tree : @TreeContract World ci.
Proof. apply host_tree. reflexivity. Qed.

End MemFSTree.

(** ** Runs on the in-memory host *)

Section Runs.

Import MemFS MemFSFacts.

#[local] Existing Instance ci.
#[local] Existing Instance ci_contract.
#[local] Existing Instance MemFSTree.ci_tree.

(** The mixed content scenario: [a.txt] is unlinked, [b] is entered and
    [c.txt] unlinked, the link [d] is unlinked, [root] is purged; what the
    link pointed to is as it was. *)
Example mixed_run :
  Remove 3 "root" mixed = (Resolved tt, elsewhere, mixedTrace).
Proof. reflexivity. Qed.

(** A file whose unlink fails with [EPERM] is removed by the retry. *)
Example denied_run :
  outcomeOf (Remove 3 "root" denied) = Resolved tt /\
  worldOf (Remove 3 "root" denied) = [] /\
  count isForcedRemoval (traceOf (Remove 3 "root" denied)) = 1.
Proof. repeat split. Qed.

(** With a link whose target is missing in the tree, the whole call stays
    pending and the purge is never made. *)
Example dangling_run :
  outcomeOf (Remove 3 "root" dangling) = Pending /\
  worldOf (Remove 3 "root" dangling) = dangling /\
  count isPurge (traceOf (Remove 3 "root" dangling)) = 0.
Proof. repeat split. Qed.

(** When neither the unlink, nor the retry, nor the purge removes a file,
    the error of the purge ends the call; the failed retry is silent. *)
Example stuck_run :
  outcomeOf (Remove 3 "root" stuck) = Uncaught (errno "EBUSY" "rm") /\
  worldOf (Remove 3 "root" stuck) = stuck /\
  count isWarning (traceOf (Remove 3 "root" stuck)) = 0 /\
  count isPurge (traceOf (Remove 3 "root" stuck)) = 1.
Proof. repeat split. Qed.

(** With too little fuel for the nesting, the model says so. *)
Example shallow_run : outcomeOf (Remove 0 "root" mixed) = OutOfFuel.
Proof. reflexivity. Qed.

Lemma Remove_absent_is_noop_witness :
  probe mixed "nothing" = false /\
  outcomeOf (Remove 3 "nothing" mixed) = Resolved tt /\
  worldOf (Remove 3 "nothing" mixed) = mixed /\
  traceOf (Remove 3 "nothing" mixed)
    = [FsRealpath "nothing"; StdoutWrite newline] /\
  count isReaddir (traceOf (Remove 3 "nothing" mixed)) = 0 /\
  count isMutation (traceOf (Remove 3 "nothing" mixed)) = 0.
Proof.
  split; [reflexivity|].
  apply (Remove_absent_is_noop 3 "nothing" mixed). reflexivity.
Defined.

Lemma top_listing_failure_reaches_no_catch_witness :
  probe locked "/locked-dir" = true /\
  fs_readdir locked "/locked-dir" = inl (errno "EACCES" "scandir") /\
  outcomeOf (Remove 3 "/locked-dir" locked)
    = Uncaught (errno "EACCES" "scandir") /\
  (forall e', outcomeOf (Remove 3 "/locked-dir" locked) <> Rejected e') /\
  (forall handler : ErrnoException -> M unit,
      tryCatch (Remove 3 "/locked-dir") handler locked
      = Remove 3 "/locked-dir" locked) /\
  worldOf (Remove 3 "/locked-dir" locked) = locked /\
  traceOf (Remove 3 "/locked-dir" locked)
    = prologue "/locked-dir" ++ [FsReaddir "/locked-dir"] /\
  count isPurge (traceOf (Remove 3 "/locked-dir" locked)) = 0 /\
  count isMutation (traceOf (Remove 3 "/locked-dir" locked)) = 0.
Proof.
  split; [reflexivity|]. split; [reflexivity|].
  apply (top_listing_failure_reaches_no_catch 3 "/locked-dir" locked
           (errno "EACCES" "scandir")); reflexivity.
Defined.

Lemma retry_whatever_the_code_witness :
  directory (properties (descriptorIn "root" "f" DT_REG)) = false /\
  probe busy (path (descriptorIn "root" "f" DT_REG)) = true /\
  fs_unlink busy (path (descriptorIn "root" "f" DT_REG))
    = (Some (errno "EBUSY" "unlink"), busy) /\
  outcomeOf (clean 3 (descriptorIn "root" "f" DT_REG) busy) = Resolved tt /\
  traceOf (clean 3 (descriptorIn "root" "f" DT_REG) busy) =
    [ FsRealpath "/home/ci/root/f";
      ConsoleDebug ["[Debug] Removing"; "/home/ci/root/f"; "..."];
      FsUnlink "/home/ci/root/f";
      FsRm "/home/ci/root/f" retryOptions ] /\
  count isForcedRemoval
    (traceOf (clean 3 (descriptorIn "root" "f" DT_REG) busy)) = 1 /\
  count isWarning
    (traceOf (clean 3 (descriptorIn "root" "f" DT_REG) busy)) = 0.
Proof.
  split; [reflexivity|]. split; [reflexivity|]. split; [reflexivity|].
  apply (retry_whatever_the_code 3 (descriptorIn "root" "f" DT_REG)
           busy busy (errno "EBUSY" "unlink")); reflexivity.
Defined.

Lemma missing_leaf_never_settles_witness :
  directory (properties (descriptorIn "root" "d" DT_LNK)) = false /\
  probe dangling (path (descriptorIn "root" "d" DT_LNK)) = false /\
  outcomeOf (clean 3 (descriptorIn "root" "d" DT_LNK) dangling) = Pending /\
  worldOf (clean 3 (descriptorIn "root" "d" DT_LNK) dangling) = dangling /\
  count isUnlink
    (traceOf (clean 3 (descriptorIn "root" "d" DT_LNK) dangling)) = 0 /\
  count isMutation
    (traceOf (clean 3 (descriptorIn "root" "d" DT_LNK) dangling)) = 0.
Proof.
  split; [reflexivity|]. split; [reflexivity|].
  apply (missing_leaf_never_settles 3 (descriptorIn "root" "d" DT_LNK)
           dangling); reflexivity.
Defined.



Lemma purge_follows_traversal_witness :
  probe mixed "root" = true /\
  fs_readdir mixed "root" = inr mixedListing /\
  AllSettled (clean 3) (remap "root" mixedListing) mixed
    (worldOf (forEach (remap "root" mixedListing) (clean 3) mixed))
    (traceOf (forEach (remap "root" mixedListing) (clean 3) mixed)) /\
  count isPurge
    (traceOf (forEach (remap "root" mixedListing) (clean 3) mixed)) = 0 /\
  count isPurge (traceOf (Remove 3 "root" mixed)) = 1.
Proof.
  assert (Hs : AllSettled (clean 3) (remap "root" mixedListing) mixed
                 (worldOf (forEach (remap "root" mixedListing) (clean 3)
                             mixed))
                 (traceOf (forEach (remap "root" mixedListing) (clean 3)
                             mixed)))
    by (apply forEach_settled; reflexivity).
  split; [reflexivity|]. split; [reflexivity|]. split; [exact Hs|].
  pose proof (purge_follows_traversal 3 "root" mixed mixedListing
                eq_refl eq_refl) as H.
  split; [exact (proj1 H) | exact (proj1 (proj1 (proj2 H) _ _ Hs))].
Defined.

(** C7, the claim as stated, fails in [lockedBelow]: [root] exists and can
    be listed, the listing of [root/b/sub] fails, and the purge is not
    invoked once but never. *)
Lemma purge_is_skipped_when_a_listing_fails :
  probe lockedBelow "root" = true /\
  fs_readdir lockedBelow "root" = inr lockedBelowListing /\
  count isPurge (traceOf (Remove 3 "root" lockedBelow)) = 0 /\
  count isPurge (traceOf (Remove 3 "root" lockedBelow)) <> 1.
Proof. repeat split. discriminate. Qed.

Lemma listing_failure_is_fatal_at_any_depth_witness :
  probe lockedBelow "root" = true /\
  fs_readdir lockedBelow "root" = inr lockedBelowListing /\
  remap "root" lockedBelowListing
    = [descriptorIn "root" "a.txt" DT_REG]
        ++ descriptorIn "root" "b" DT_DIR
        :: [descriptorIn "root" "z.txt" DT_REG] /\
  AllSettled (clean 3) [descriptorIn "root" "a.txt" DT_REG]
    lockedBelow lockedBelowNext (unlinkTrace "/home/ci/root/a.txt") /\
  ReachesUnlistable 3 (descriptorIn "root" "b" DT_DIR) lockedBelowNext
    (errno "EACCES" "scandir") lockedBelowNext
    [FsReaddir "/home/ci/root/b"; FsReaddir "/home/ci/root/b/sub"] /\
  Remove 3 "root" lockedBelow =
    (Uncaught (errno "EACCES" "scandir"), lockedBelowNext,
     prologue "root" ++ FsReaddir "root"
       :: unlinkTrace "/home/ci/root/a.txt"
       ++ [FsReaddir "/home/ci/root/b"; FsReaddir "/home/ci/root/b/sub"]) /\
  (forall after',
      forEach ([descriptorIn "root" "a.txt" DT_REG]
                 ++ descriptorIn "root" "b" DT_DIR :: after')
        (clean 3) lockedBelow
      = (Uncaught (errno "EACCES" "scandir"), lockedBelowNext,
         unlinkTrace "/home/ci/root/a.txt"
           ++ [FsReaddir "/home/ci/root/b";
               FsReaddir "/home/ci/root/b/sub"])) /\
  count isWarning (traceOf (Remove 3 "root" lockedBelow)) = 0 /\
  count isPurge (traceOf (Remove 3 "root" lockedBelow)) = 0.
Proof.
  assert (Hs : AllSettled (clean 3) [descriptorIn "root" "a.txt" DT_REG]
                 lockedBelow lockedBelowNext
                 (unlinkTrace "/home/ci/root/a.txt")).
  { exact (settled_cons (clean 3) (descriptorIn "root" "a.txt" DT_REG) []
             lockedBelow lockedBelowNext
             (unlinkTrace "/home/ci/root/a.txt") lockedBelowNext []
             eq_refl (settled_nil _ _)). }
  assert (Hr : ReachesUnlistable 3 (descriptorIn "root" "b" DT_DIR)
                 lockedBelowNext (errno "EACCES" "scandir") lockedBelowNext
                 [FsReaddir "/home/ci/root/b";
                  FsReaddir "/home/ci/root/b/sub"]).
  { apply (unlistable_below 2 (descriptorIn "root" "b" DT_DIR)
             lockedBelowNext [entry "sub" DT_DIR] []
             (descriptorIn "/home/ci/root/b" "sub" DT_DIR) []
             lockedBelowNext [] (errno "EACCES" "scandir") lockedBelowNext
             [FsReaddir "/home/ci/root/b/sub"]);
      try reflexivity; [constructor|].
    apply (unlistable_here 2 (descriptorIn "/home/ci/root/b" "sub" DT_DIR)
             lockedBelowNext (errno "EACCES" "scandir")); reflexivity. }
  assert (Hp : probe lockedBelow "root" = true) by reflexivity.
  assert (Hl : fs_readdir lockedBelow "root" = inr lockedBelowListing)
    by reflexivity.
  assert (Hm : remap "root" lockedBelowListing
               = [descriptorIn "root" "a.txt" DT_REG]
                   ++ descriptorIn "root" "b" DT_DIR
                   :: [descriptorIn "root" "z.txt" DT_REG]) by reflexivity.
  split; [exact Hp|]. split; [exact Hl|]. split; [exact Hm|].
  split; [exact Hs|]. split; [exact Hr|].
  destruct (listing_failure_is_fatal_at_any_depth 3 "root" lockedBelow
              lockedBelowListing [descriptorIn "root" "a.txt" DT_REG]
              (descriptorIn "root" "b" DT_DIR)
              [descriptorIn "root" "z.txt" DT_REG] lockedBelowNext
              (unlinkTrace "/home/ci/root/a.txt")
              (errno "EACCES" "scandir") lockedBelowNext
              [FsReaddir "/home/ci/root/b"; FsReaddir "/home/ci/root/b/sub"]
              Hp Hl Hm Hs Hr)
    as (Hrun & _ & Hafter & Hw & Hpu).
  split; [exact Hrun|]. split; [exact Hafter|]. split; [exact Hw | exact Hpu].
Defined.

(** C8, the claim as stated, fails in [lockedBelow]: the listing of
    [root/b/sub], a directory met below the top level, fails; [Remove] ends
    with that error, records no warning and makes no purge. *)
Lemma nested_listing_failure_is_not_absorbed :
  fs_readdir lockedBelowNext "/home/ci/root/b/sub"
    = inl (errno "EACCES" "scandir") /\
  outcomeOf (Remove 3 "root" lockedBelow)
    = Uncaught (errno "EACCES" "scandir") /\
  count isWarning (traceOf (Remove 3 "root" lockedBelow)) = 0 /\
  count isPurge (traceOf (Remove 3 "root" lockedBelow)) = 0 /\
  ~ absorbed (Remove 3 "root" lockedBelow).
Proof.
  repeat split. intros (H & _). discriminate H.
Qed.



Lemma descriptor_paths_lie_in_listed_directory_witness :
  fs_readdir mixed "root" = inr mixedListing /\
  Forall (fun d =>
            path d = Path.join [Path.resolve fs_cwd ["root"]; name d] /\
            location (path d) = location "root" ++ [name d])
         (remap "root" mixedListing) /\
  within (location "root") (traceOf (Remove 3 "root" mixed)).
Proof.
  assert (E : fs_readdir mixed "root" = inr mixedListing) by reflexivity.
  split; [exact E|].
  destruct (descriptor_paths_lie_in_listed_directory mixed "root"
              mixedListing E) as (Hpaths & _ & Hrun).
  split; [exact Hpaths | exact (Hrun 3 "root" mixed)].
Defined.

End Runs.

(* ===================================================================== *)
(** * Part III: further properties of the code                            *)
(* ===================================================================== *)

(** ** More about [Remove] (remove.ts) *)

Section RemoveFurther.

Context {World : Type} {FS : FileSystem World}.

Local Open Scope promise_scope.


(** X2.  No call of [Remove] records a warning: [console.warn] is never
    reached, whatever the filesystem answers. *)
Theorem Remove_never_warns (fuel : nat) (target : string) (w : World) :
  count isWarning (traceOf (Remove fuel target w)) = 0.
Proof.
  destruct (probe w target) eqn:Hp.
  - rewrite (Remove_existing_run _ _ _ Hp).
    destruct (fs_readdir w target) as [e|files]; [reflexivity|].
    pose proof (walker_no_warning _
                  (walk_events fuel (remap target files) w)) as Hw.
    destruct (forEach (remap target files) (clean fuel) w) as [[o w1] t1].
    cbn [traceOf snd] in Hw.
    assert (Hc : forall tail,
               count isWarning
                 (prologue target ++ FsReaddir target :: t1 ++ tail)
               = count isWarning tail).
    { intros tail. rewrite count_app, prologue_no_warning.
      change (FsReaddir target :: t1 ++ tail)
        with ([FsReaddir target] ++ t1 ++ tail).
      now rewrite !count_app, Hw. }
    destruct o as [[]|e|e| |];
      try (cbn [traceOf snd]; rewrite <- (app_nil_r t1); now rewrite Hc).
    destruct (fs_rm w1 target purgeOptions) as [[e|] w2];
      cbn [traceOf snd]; now rewrite Hc.
  - now rewrite (Remove_absent_run _ _ _ Hp).
Qed.

(** X3.  When the traversal has returned and the purge fails with [e],
    [Remove] ends with [e]: the error of [FS.rm] is thrown by its callback.
    The purge is the last thing issued: the closing newline is not
    written. *)
Theorem purge_failure_is_fatal (fuel : nat) (target : string) (w : World)
  (files : list Dirent) (w1 : World) (t1 : list event)
  (e : ErrnoException) (w2 : World) :
  probe w target = true ->
  fs_readdir w target = inr files ->
  AllSettled (clean fuel) (remap target files) w w1 t1 ->
  fs_rm w1 target purgeOptions = (Some e, w2) ->
  Remove fuel target w =
  (Uncaught e, w2,
   prologue target ++ FsReaddir target :: t1 ++ [FsRm target purgeOptions]).
Proof.
  intros Hp E Hs Hr. apply forEach_settled in Hs.
  now rewrite (Remove_existing_run _ _ _ Hp), E, Hs, Hr.
Qed.

(** X5.  On a leaf, [clean] issues at most one unlink and at most one forced
    removal; the forced removal is issued exactly when the probe found the
    leaf and its unlink failed; and a leaf that the probe found always
    resolves, whatever the unlink and the forced removal report: the result
    of the forced removal is not looked at. *)
Theorem leaf_discipline (fuel : nat) (d : Descriptor) (w : World) :
  directory (properties d) = false ->
  count isUnlink (traceOf (clean fuel d w)) <= 1 /\
  count isForcedRemoval (traceOf (clean fuel d w)) <= 1 /\
  (count isForcedRemoval (traceOf (clean fuel d w)) = 1 <->
   probe w (path d) = true /\
   exists e, fst (fs_unlink w (path d)) = Some e) /\
  (probe w (path d) = true ->
   outcomeOf (clean fuel d w) = Resolved tt) /\
  count isPurge (traceOf (clean fuel d w)) = 0.
Proof.
  intros Hd. rewrite (clean_leaf _ _ _ Hd), leaf_run.
  destruct (probe w (path d)).
  - destruct (fs_unlink w (path d)) as [[e|] w1]; cbn;
      repeat split; try lia; try discriminate; eauto;
      try (intros (_ & e & He); discriminate).
  - cbn. repeat split; try lia; try discriminate;
      try (intros (H & _); discriminate).
Qed.

End RemoveFurther.

Section RemoveFurtherUnderContract.

Context {World : Type} {FS : FileSystem World}.
Context {Contract : FileSystemContract World}.

Import Path PathFacts.

Local Open Scope promise_scope.

Lemma forEach_untouched {A} (l : list string) (body : A -> M unit)
  (xs : list A) :
  Forall (fun x => forall w : World,
              fs_node (worldOf (body x w)) l = fs_node w l) xs ->
  forall w : World, fs_node (worldOf (forEach xs body w)) l = fs_node w l.
Proof.
  induction 1 as [|x xs Hx _ IH]; intros w; [reflexivity|].
  specialize (Hx w). destruct (body x w) as [[o w1] t1] eqn:E.
  destruct o as [[]| | | |];
    try (rewrite (forEach_cons_stopped _ _ _ _ _ _ _ E) by discriminate;
         exact Hx).
  rewrite (forEach_cons_resolved _ _ _ _ _ _ E).
  cbn [worldOf fst snd] in *. now rewrite IH.
Qed.

Lemma snoc_not_prefix (l : list string) (n : string) : ~ prefix (l ++ [n]) l.
Proof.
  intros [rest H]. apply (f_equal (@length string)) in H.
  rewrite !length_app in H. cbn in H. lia.
Qed.

(** Cleaning an entry of [loc] leaves the node of [loc] itself as it was. *)
Lemma entry_leaves_parent (fuel : nat) (loc : string) (f : Dirent)
  (w : World) :
  baseName (dirent_name f) = true ->
  fs_node (worldOf (clean fuel (descriptorOf loc f) w)) (location loc)
  = fs_node w (location loc).
Proof.
  intros Hn.
  assert (Hc : canonicalBelow (location loc ++ [dirent_name f])
                 (path (descriptorOf loc f))).
  { exists (location loc ++ [dirent_name f]). repeat split.
    - apply Forall_app. split; [apply location_baseNames | now constructor].
    - now apply descriptorOf_path.
    - apply prefix_refl. }
  apply (confined_clean _ fuel _ w Hc). apply snoc_not_prefix.
Qed.

(** X6.  The traversal removes no directory it goes through: after the
    [clean] calls on the entries of a listed directory, whether they
    returned or not, the directory itself is as it was.  This holds for the
    target of [Remove] and for every directory below it; removing them is
    left to the purge. *)
Theorem traversal_leaves_directory_in_place (fuel : nat) (loc : string)
  (w : World) (files : list Dirent) :
  fs_readdir w loc = inr files ->
  untouched (location loc) w (forEach (remap loc files) (clean fuel) w) /\
  (forall f, In f files -> isDirectory f = true ->
     forall fuel' (w0 : World),
       untouched (location (path (descriptorOf loc f))) w0
         (clean fuel' (descriptorOf loc f) w0)).
Proof.
  intros E. pose proof (readdir_names _ _ _ E) as Hn. split.
  - unfold untouched. apply forEach_untouched.
    rewrite remap_map. apply Forall_map.
    eapply Forall_impl; [|exact Hn].
    intros f Hf w0. now apply entry_leaves_parent.
  - intros f Hin Hdir fuel' w0. unfold untouched.
    assert (Hd : directory (properties (descriptorOf loc f)) = true)
      by exact Hdir.
    destruct (fs_readdir w0 (path (descriptorOf loc f)))
      as [e|files'] eqn:E'.
    + now rewrite (clean_unlisted _ _ _ _ Hd E').
    + rewrite (clean_listed_any _ _ _ _ Hd E'). cbn [worldOf fst].
      apply forEach_untouched.
      pose proof (readdir_names _ _ _ E') as Hn'.
      rewrite remap_map. apply Forall_map.
      eapply Forall_impl; [|exact Hn'].
      intros g Hg w1. destruct fuel' as [|fuel'']; [reflexivity|].
      now apply entry_leaves_parent.
Qed.

End RemoveFurtherUnderContract.

(** ** [Reader] (read-directory.ts) *)

Section ReaderFacts.

Context {World : Type} {FS : FileSystem World}.

Import ReadDirectory.

Local Open Scope promise_scope.

Lemma Reader_run (target : string) (w : World) :
  Reader target w =
  if probe w target
  then match fs_readdir w target with
       | inl e => (Uncaught e, w, [FsRealpath target; FsReaddir target])
       | inr files =>
           (Resolved
              (Some (map (fun f => Path.join [Path.resolve fs_cwd [target];
                                              dirent_name f]) files)),
            w, [FsRealpath target; FsReaddir target])
       end
  else (Resolved None, w, [FsRealpath target]).
Proof.
  unfold Reader, bind. change (ReadDirectory.valid target w)
    with (Resolved (probe w target), w, [FsRealpath target]).
  destruct (probe w target); [|reflexivity].
  unfold ReadDirectory.descriptors, bind, FS_readdir.
  destruct (fs_readdir w target); reflexivity.
Qed.

(** X7.  [Reader] resolves with [null] exactly when the probe does not find
    the target, and then it has not listed anything; no call of [Reader]
    changes the filesystem. *)
Theorem Reader_null_iff_absent (target : string) (w : World) :
  (outcomeOf (Reader target w) = Resolved None <-> probe w target = false) /\
  (probe w target = false ->
   traceOf (Reader target w) = [FsRealpath target]) /\
  worldOf (Reader target w) = w /\
  count isMutation (traceOf (Reader target w)) = 0.
Proof.
  rewrite Reader_run. destruct (probe w target).
  - destruct (fs_readdir w target) as [e|files]; cbn;
      repeat split; try discriminate.
  - cbn. repeat split.
Qed.

(** X8.  When the probe finds the target and its listing fails with [e],
    [Reader] ends with [e] thrown by the handler of the listing: the caller
    gets neither [null] nor a list, and no rejection either. *)
Theorem Reader_listing_failure (target : string) (w : World)
  (e : ErrnoException) :
  probe w target = true ->
  fs_readdir w target = inl e ->
  Reader target w = (Uncaught e, w, [FsRealpath target; FsReaddir target]).
Proof. intros Hp E. now rewrite Reader_run, Hp, E. Qed.

End ReaderFacts.

Section ReaderUnderContract.

Context {World : Type} {FS : FileSystem World}.
Context {Contract : FileSystemContract World}.

Import ReadDirectory.

Local Open Scope promise_scope.

(** X9.  On a target that the probe finds and that can be listed, [Reader]
    resolves with the paths of the descriptors that [Remove] builds for the
    same listing, in the same order: one path per entry, each naming the
    entry inside the target. *)
Theorem Reader_agrees_with_remap (target : string) (w : World)
  (files : list Dirent) :
  probe w target = true ->
  fs_readdir w target = inr files ->
  Reader target w =
    (Resolved (Some (map path (remap target files))), w,
     [FsRealpath target; FsReaddir target]) /\
  Forall2 (fun f p => location p = location target ++ [dirent_name f])
          files (map path (remap target files)).
Proof.
  intros Hp E. pose proof (readdir_names _ _ _ E) as Hn.
  rewrite Reader_run, Hp, E, remap_map, map_map. split.
  - do 4 f_equal. apply map_ext_in. intros f Hf.
    rewrite Forall_forall in Hn. symmetry.
    now apply (descriptorOf_join target f (Hn f Hf)).
  - clear E. induction Hn as [|f files Hf _ IH]; constructor; [|exact IH].
    rewrite descriptorOf_path by assumption.
    apply location_canonical, Forall_app. split.
    + apply location_baseNames.
    + now constructor.
Qed.

End ReaderUnderContract.

(** ** The array of [options] (clone.ts) *)

Module StrFacts.
Import Str.

Lemma split_never_empty (sep : ascii) (s : string) : split sep s <> [].
Proof.
  destruct s as [|c s]; simpl; [discriminate|].
  destruct (Ascii.eqb c sep); [discriminate|].
  destruct (split sep s); discriminate.
Qed.

Lemma occurrences_app (c : ascii) (a b : string) :
  occurrences c (a +++ b) = occurrences c a + occurrences c b.
Proof.
  induction a as [|x a IH]; simpl; [reflexivity|]. rewrite IH. lia.
Qed.

(** Joining what [split] returns gives the string back. *)
Lemma join_split (sep : ascii) (s : string) :
  join (String sep "") (split sep s) = s.
Proof.
  unfold join. induction s as [|c s IH]; [reflexivity|].
  simpl split. destruct (Ascii.eqb_spec c sep) as [->|Hc].
  - destruct (split sep s) as [|p ps] eqn:E;
      [now apply split_never_empty in E|].
    change (String.concat (String sep "") ("" :: p :: ps))
      with (String sep (String.concat (String sep "") (p :: ps))).
    now rewrite IH.
  - destruct (split sep s) as [|p ps] eqn:E;
      [now apply split_never_empty in E|].
    rewrite <- IH. destruct ps; reflexivity.
Qed.

Lemma length_split (sep : ascii) (s : string) :
  length (split sep s) = S (occurrences sep s).
Proof.
  induction s as [|c s IH]; [reflexivity|].
  simpl. destruct (Ascii.eqb c sep); simpl.
  - now rewrite IH.
  - destruct (split sep s) as [|p ps] eqn:E;
      [now apply split_never_empty in E|].
    exact IH.
Qed.

Lemma split_at_separator (sep : ascii) (a b : string) :
  split sep (a +++ String sep b) = split sep a ++ split sep b.
Proof.
  induction a as [|c a IH]; simpl.
  - now rewrite Ascii.eqb_refl.
  - destruct (Ascii.eqb c sep).
    + now rewrite IH.
    + rewrite IH. destruct (split sep a) as [|p ps] eqn:E;
        [now apply split_never_empty in E | reflexivity].
Qed.

Lemma split_absent (sep : ascii) (s : string) :
  occurrences sep s = 0 -> split sep s = [s].
Proof.
  induction s as [|c s IH]; simpl; [reflexivity|].
  destruct (Ascii.eqb c sep); [discriminate|].
  intros H. now rewrite (IH H).
Qed.

(** Splitting a join of pieces without separator gives the pieces back. *)
Lemma split_join (sep : ascii) (parts : list string) :
  parts <> [] ->
  Forall (fun x => occurrences sep x = 0) parts ->
  split sep (join (String sep "") parts) = parts.
Proof.
  unfold join. induction parts as [|a parts IH]; intros Hne H; [congruence|].
  inversion H; subst. destruct parts as [|b parts].
  - now apply split_absent.
  - change (String.concat (String sep "") (a :: b :: parts))
      with (a +++ String sep (String.concat (String sep "") (b :: parts))).
    rewrite split_at_separator, (split_absent sep a) by assumption.
    rewrite IH by (try discriminate; assumption). reflexivity.
Qed.

Lemma occurrences_removeFirst_same (c : ascii) (s : string) :
  occurrences c (removeFirst c s) = pred (occurrences c s).
Proof.
  induction s as [|x s IH]; [reflexivity|].
  simpl. destruct (Ascii.eqb x c) eqn:E; [reflexivity|].
  simpl. now rewrite E.
Qed.

Lemma occurrences_removeFirst_other (c c' : ascii) (s : string) :
  Ascii.eqb c' c = false ->
  occurrences c (removeFirst c' s) = occurrences c s.
Proof.
  intros Hc. induction s as [|x s IH]; [reflexivity|].
  simpl. destruct (Ascii.eqb x c') eqn:E.
  - apply Ascii.eqb_eq in E. subst x. now rewrite Hc.
  - simpl. now rewrite IH.
Qed.

Lemma removeFirst_absent (c : ascii) (s : string) :
  occurrences c s = 0 -> removeFirst c s = s.
Proof.
  induction s as [|x s IH]; [reflexivity|].
  simpl. destruct (Ascii.eqb x c); [discriminate|].
  intros H. now rewrite (IH H).
Qed.

(** The occurrences of [c] in a join: those in the parts and, when [c] is
    the separator, one between two parts. *)
Lemma occurrences_join (c sep : ascii) (parts : list string) :
  occurrences c (join (String sep "") parts) =
  list_sum (map (occurrences c) parts)
  + (if Ascii.eqb sep c then pred (length parts) else 0).
Proof.
  unfold join. induction parts as [|a parts IH].
  - simpl. now destruct (Ascii.eqb sep c).
  - destruct parts as [|b parts].
    + simpl. destruct (Ascii.eqb sep c); lia.
    + change (String.concat (String sep "") (a :: b :: parts))
        with (a +++ String sep (String.concat (String sep "") (b :: parts))).
      rewrite occurrences_app. cbn [occurrences]. rewrite IH.
      cbn [map list_sum fold_right length pred Nat.pred].
      destruct (Ascii.eqb sep c); lia.
Qed.

Lemma occurrences_none (c : ascii) (parts : list string) :
  Forall (fun x => occurrences c x = 0) parts ->
  list_sum (map (occurrences c) parts) = 0.
Proof.
  induction 1 as [|x l Hx _ IH]; [reflexivity|].
  cbn [map list_sum fold_right]. rewrite Hx. exact IH.
Qed.

End StrFacts.

Section CloneOptions.

Import Str StrFacts Clone.

Lemma partials_shape (repository : string) (directory branch : option string) :
  exists rest,
    partials repository directory branch = "clone" :: repository :: rest.
Proof.
  unfold partials.
  destruct branch as [b|]; [destruct (given (Some b))|];
    destruct directory; eexists; reflexivity.
Qed.

(** The replacements touch no space. *)
Lemma lexical_spaces (repository : string) (directory branch : option string) :
  occurrences " " (lexical repository directory branch) =
  occurrences " " (join " " (partials repository directory branch)).
Proof.
  unfold lexical.
  now rewrite !occurrences_removeFirst_other by reflexivity.
Qed.

Lemma plainArgument_spec (s : string) :
  plainArgument s = true ->
  forall c, In c (" "%char :: escapes) -> occurrences c s = 0.
Proof.
  unfold plainArgument. rewrite forallb_forall.
  intros H c Hc. now apply Nat.eqb_eq, H.
Qed.

Lemma partials_plain (repository : string) (directory branch : option string) :
  plainArgument repository = true ->
  (forall d, directory = Some d -> plainArgument d = true) ->
  (forall b, branch = Some b -> plainArgument b = true) ->
  Forall (fun x => plainArgument x = true)
         (partials repository directory branch).
Proof.
  intros Hr Hd Hb. unfold partials.
  destruct branch as [b|]; [destruct (given (Some b))|];
    destruct directory as [d|];
    repeat constructor; auto.
Qed.

(** X10.  When the repository, the directory and the branch hold no space
    and none of [$ { } ( )], the array that [options] returns is the array
    of the parts as given: [clone], the repository, [--branch] and the
    branch when a branch is given, and the directory.  [Execute] and
    [Wrapper] hand that array to [execFile] without a shell: the process
    they start receives [git] followed by these parts. *)
Theorem options_of_plain_arguments (repository : string)
  (directory branch : option string) :
  plainArgument repository = true ->
  (forall d, directory = Some d -> plainArgument d = true) ->
  (forall b, branch = Some b -> plainArgument b = true) ->
  options repository directory branch
  = partials repository directory branch /\
  argv repository directory branch
  = "git" :: partials repository directory branch.
Proof.
  intros Hr Hd Hb.
  cut (options repository directory branch
       = partials repository directory branch);
    [intros H; split; [exact H | unfold argv; now rewrite H]|].
  pose proof (partials_plain _ _ _ Hr Hd Hb) as Hp.
  destruct (partials_shape repository directory branch) as [rest Hs].
  assert (Hocc : forall c, In c (" "%char :: escapes) ->
            Forall (fun x => occurrences c x = 0)
                   (partials repository directory branch)).
  { intros c Hc. eapply Forall_impl; [|exact Hp].
    intros x Hx. now apply (plainArgument_spec x Hx). }
  assert (Hj : forall c, In c escapes ->
            Ascii.eqb " " c = false ->
            occurrences c (join " " (partials repository directory branch))
            = 0).
  { intros c Hc Hne. rewrite occurrences_join, Hne.
    rewrite (occurrences_none c _ (Hocc c (or_intror Hc))). reflexivity. }
  unfold options, lexical.
  rewrite (removeFirst_absent "$") by (apply Hj; simpl; auto).
  rewrite (removeFirst_absent "{") by (apply Hj; simpl; auto).
  rewrite (removeFirst_absent "}") by (apply Hj; simpl; auto).
  rewrite (removeFirst_absent "(") by (apply Hj; simpl; auto 6).
  rewrite (removeFirst_absent ")") by (apply Hj; simpl; auto 6).
  apply split_join; [rewrite Hs; discriminate|].
  apply Hocc. simpl. auto.
Qed.

(** X11.  The escaping removes one occurrence of each of [$ { } ( )] and no
    more: put back together with spaces, the array that [options] returns
    holds one occurrence less of such a character than the parts did, none
    less when they held none.  So it is for the arguments that the process
    started by [Execute] and [Wrapper] receives: together they hold every
    occurrence but the first. *)
Theorem options_remove_first_occurrence_only (repository : string)
  (directory branch : option string) (c : ascii) :
  In c escapes ->
  occurrences c (join " " (options repository directory branch))
  = pred (occurrences c (join " " (partials repository directory branch))) /\
  list_sum (map (occurrences c) (argv repository directory branch))
  = pred (list_sum (map (occurrences c)
                      (partials repository directory branch))).
Proof.
  intros Hc.
  assert (H : occurrences c (join " " (options repository directory branch))
              = pred (occurrences c
                        (join " " (partials repository directory branch)))).
  { unfold options.
    change (join " " (split " " (lexical repository directory branch)))
      with (join (String " " "")
              (split " " (lexical repository directory branch))).
    rewrite join_split. unfold lexical.
    simpl in Hc.
    destruct Hc as [<-|[<-|[<-|[<-|[<-|[]]]]]];
      repeat first
        [ rewrite occurrences_removeFirst_same
        | rewrite occurrences_removeFirst_other by reflexivity ];
      reflexivity. }
  split; [exact H|].
  change (join " " (options repository directory branch))
    with (join (String " " "") (options repository directory branch)) in H.
  change (join " " (partials repository directory branch))
    with (join (String " " "") (partials repository directory branch)) in H.
  rewrite !occurrences_join in H.
  unfold argv. cbn [map list_sum fold_right].
  simpl in Hc.
  destruct Hc as [<-|[<-|[<-|[<-|[<-|[]]]]]];
    cbn [Ascii.eqb Bool.eqb] in H; rewrite !Nat.add_0_r in H;
    cbn [occurrences Ascii.eqb Bool.eqb]; cbn [Nat.add]; exact H.
Qed.

(** X12.  Every space inside the repository, the directory or the branch
    starts a new element: the array that [options] returns has as many
    elements as there are parts, plus one for each such space.  [Execute]
    and [Wrapper] hand that array to [execFile] without a shell: the
    process they start receives [git] and one argument for each element. *)
Theorem options_split_at_inner_spaces (repository : string)
  (directory branch : option string) :
  length (options repository directory branch)
  = length (partials repository directory branch)
    + innerSpaces (partials repository directory branch) /\
  length (argv repository directory branch)
  = 1 + length (partials repository directory branch)
    + innerSpaces (partials repository directory branch).
Proof.
  cut (length (options repository directory branch)
       = length (partials repository directory branch)
         + innerSpaces (partials repository directory branch));
    [intros H; split; [exact H | unfold argv; cbn [length]; now rewrite H]|].
  unfold options, innerSpaces.
  rewrite length_split, lexical_spaces.
  change (join " " (partials repository directory branch))
    with (join (String " " "") (partials repository directory branch)).
  rewrite occurrences_join.
  destruct (partials_shape repository directory branch) as [rest ->].
  simpl. lia.
Qed.

(** X13.  Whatever the repository, the directory and the branch are, the
    first argument handed to [git] is [clone]. *)
Theorem options_start_with_clone (repository : string)
  (directory branch : option string) :
  exists rest, options repository directory branch = "clone" :: rest.
Proof.
  unfold options, lexical.
  destruct (partials_shape repository directory branch) as [rest ->].
  change (join " " ("clone" :: repository :: rest))
    with ("clone " +++ join " " (repository :: rest))%string.
  simpl.
  destruct (split " " _) as [|p ps] eqn:E;
    [now apply split_never_empty in E|].
  now eexists.
Qed.

End CloneOptions.

(** ** The flags of the command line (cli.ts) *)

Section CliFacts.

Import Cli.

Lemma includes_In (l : list string) (x : string) :
  includes l x = true <-> In x l.
Proof.
  unfold includes. rewrite existsb_exists. split.
  - intros (y & Hy & E). apply String.eqb_eq in E. now subst.
  - intros H. exists x. split; [exact H | apply String.eqb_refl].
Qed.

Lemma includes_same (l l' : list string) (x : string) :
  (forall y, In y l <-> In y l') -> includes l x = includes l' x.
Proof.
  intros H. destruct (includes l x) eqn:E.
  - symmetry. apply includes_In, H, includes_In, E.
  - destruct (includes l' x) eqn:E'; [|reflexivity].
    apply includes_In, H, includes_In in E'. congruence.
Qed.

(** X14.  The flags are decided by which strings occur after the first two
    entries of [process.argv]: the first two entries, the order of the
    others and their repetitions do not count. *)
Theorem flags_depend_on_arguments_only (a b a' b' : string)
  (rest rest' : list string) :
  (forall x, In x rest <-> In x rest') ->
  CLI (a :: b :: rest) = CLI (a' :: b' :: rest') /\
  Debug (a :: b :: rest) = Debug (a' :: b' :: rest').
Proof.
  intros H. unfold CLI, Spawn, Execute, Wrapper, Shell, Debug, Arguments.
  cbn [splice2 fst skipn].
  now rewrite !(includes_same rest rest' _ H).
Qed.

(** X15.  Once cli.ts is evaluated, [process.argv] holds its first two
    entries only: a [--debug] among the arguments sets [Debug], and is no
    longer seen by the guard of the self-test of clone.ts, which is
    evaluated afterwards. *)
Theorem debug_flag_is_consumed (node script : string) (args : list string) :
  node <> "--debug" -> script <> "--debug" ->
  (Debug (node :: script :: args) = true <-> In "--debug" args) /\
  argvAfter (node :: script :: args) = [node; script] /\
  Clone.selfTest (argvAfter (node :: script :: args)) = false.
Proof.
  intros Hn Hs. split; [apply includes_In|]. split; [reflexivity|].
  unfold argvAfter, Clone.selfTest. cbn [splice2 snd firstn existsb].
  apply not_eq_sym, String.eqb_neq in Hn, Hs.
  now rewrite Hn, Hs.
Qed.

End CliFacts.

(** ** [Parse] (expression.ts) *)

Module RegExpFacts.
Import RegExp RegExpMatch PathFacts.

Lemma length_append (a b : string) :
  String.length (a +++ b) = String.length a + String.length b.
Proof. induction a as [|x a IH]; simpl; [reflexivity | now rewrite IH]. Qed.

(** What was consumed is the prefix that was consumed. *)
Lemma taken_append (u rest : string) : taken (u +++ rest) rest = u.
Proof.
  unfold taken. rewrite length_append.
  replace (String.length u + String.length rest - String.length rest)
    with (String.length u) by lia.
  induction u as [|x u IH]; simpl.
  - now destruct rest.
  - now rewrite IH.
Qed.

Lemma plusClass_sound (R : Type) (member : ascii -> bool) (s : string)
  (k : string -> option R) (x : R) :
  plusClass R member s k = Some x ->
  exists u rest,
    s = (u +++ rest)%string /\ u <> "" /\
    allChars (classMatch member) u = true /\ k rest = Some x.
Proof.
  revert x. induction s as [|c s IH]; intros x H; simpl in H;
    [discriminate|].
  destruct (classMatch member c) eqn:Hc; [|discriminate].
  destruct (plusClass R member s k) as [y|] eqn:E.
  - inversion H; subst y.
    destruct (IH x eq_refl) as (u & rest & -> & _ & Hu & Hk).
    exists (String c u), rest. repeat split; try discriminate; auto.
    simpl. now rewrite Hc, Hu.
  - exists (String c ""), s. repeat split; try discriminate; auto.
    simpl. now rewrite Hc.
Qed.

(** Whatever the matcher finds is a match: the input splits into what [r]
    matched and what the continuation went on with. *)
Lemma run_sound (R : Type) (r : regex) :
  forall (s : string) (caps : captures)
         (k : string -> captures -> option R) (x : R),
    run R r s caps k = Some x ->
    exists u rest c,
      s = (u +++ rest)%string /\ Matches r u c /\
      k rest (c ++ caps) = Some x.
Proof.
  induction r as [|c0| |member|r1 IH1 r2 IH2|r1 IH1 r2 IH2|r IH|r IH|n r IH];
    intros s caps k x H; simpl in H.
  - exists "", s, []. repeat split; [constructor | exact H].
  - destruct s as [|a s]; [discriminate|].
    destruct (Ascii.eqb (upper a) (upper c0)) eqn:E; [|discriminate].
    exists (String a ""), s, []. repeat split; [now constructor | exact H].
  - destruct s as [|a s]; [discriminate|].
    destruct (lineTerminator a) eqn:E; [discriminate|].
    exists (String a ""), s, []. repeat split; [now constructor | exact H].
  - apply plusClass_sound in H as (u & rest & -> & Hne & Hu & Hk).
    exists u, rest, []. repeat split; [now constructor | exact Hk].
  - apply IH1 in H as (u1 & s1 & c1 & -> & H1 & H).
    apply IH2 in H as (u2 & s2 & c2 & -> & H2 & H).
    exists (u1 +++ u2)%string, s2, (c2 ++ c1). repeat split.
    + now rewrite append_assoc.
    + now constructor.
    + now rewrite <- app_assoc.
  - destruct (run R r1 s caps k) as [y|] eqn:E.
    + inversion H; subst y.
      apply IH1 in E as (u & rest & c & -> & Hm & Hk).
      exists u, rest, c. repeat split; [now apply matches_alt_left | exact Hk].
    + apply IH2 in H as (u & rest & c & -> & Hm & Hk).
      exists u, rest, c. repeat split; [now apply matches_alt_right | exact Hk].
  - destruct (run R r s caps k) as [y|] eqn:E.
    + inversion H; subst y.
      apply IH in E as (u & rest & c & -> & Hm & Hk).
      exists u, rest, c. repeat split; [now apply matches_opt_some | exact Hk].
    + exists "", s, []. repeat split; [apply matches_opt_none | exact H].
  - apply IH in H as (u & rest & c & -> & Hm & Hk).
    exists u, rest, c. repeat split; [now constructor | exact Hk].
  - apply IH in H as (u & rest & c & -> & Hm & Hk).
    rewrite taken_append in Hk.
    exists u, rest, ((n, u) :: c). repeat split; [now constructor | exact Hk].
Qed.

Lemma exec_sound (r : regex) (s : string) (caps : captures) :
  exec r s = Some caps ->
  exists pre u rest,
    s = (pre +++ u +++ rest)%string /\ Matches r u caps.
Proof.
  induction s as [|a s IH]; simpl; intros H.
  - destruct (run captures r "" [] (fun _ c => Some c)) as [y|] eqn:E;
      [|discriminate].
    inversion H; subst y.
    apply run_sound in E as (u & rest & c & Hs & Hm & Hk).
    rewrite app_nil_r in Hk. inversion Hk; subst.
    exists "", u, rest. split; [exact Hs | exact Hm].
  - destruct (run captures r (String a s) [] (fun _ c => Some c))
      as [y|] eqn:E.
    + inversion H; subst y.
      apply run_sound in E as (u & rest & c & Hs & Hm & Hk).
      rewrite app_nil_r in Hk. inversion Hk; subst.
      exists "", u, rest. split; [exact Hs | exact Hm].
    + destruct (IH H) as (pre & u & rest & -> & Hm).
      exists (String a pre), u, rest. split; [reflexivity | exact Hm].
Qed.

Lemma matches_literal (lit u : string) (c : captures) :
  Matches (literal lit) u c -> sameFold u lit = true /\ c = [].
Proof.
  revert u c. induction lit as [|a lit IH]; intros u c H; simpl in H.
  - inversion H; subst. now split.
  - inversion H as [| | | |r1 r2 u1 u2 c1 c2 H1 H2| | | | | |]; subst.
    inversion H1; subst. apply IH in H2 as [Hs ->].
    split; [|reflexivity]. simpl. now rewrite H3, Hs.
Qed.

End RegExpFacts.

Module ExpressionFacts.
Import RegExp RegExpMatch RegExpFacts Expression ExpressionSpec PathFacts.

Lemma matches_unnamed (r : regex) (u : string) (c : captures) :
  Matches r u c -> unnamed r = true -> c = [].
Proof.
  induction 1 as [ | | | |r1 r2 u1 u2 c1 c2 _ IH1 _ IH2
                 |r1 r2 u c _ IH|r1 r2 u c _ IH|r u c _ IH| |r u c _ IH|];
    simpl; intros Hn; try reflexivity; try discriminate;
    try (apply andb_true_iff in Hn as [Hn1 Hn2]); auto.
  now rewrite (IH1 Hn1), (IH2 Hn2).
Qed.

Lemma unnamed_literal (lit : string) : unnamed (literal lit) = true.
Proof. induction lit; simpl; auto. Qed.

(** Only [/] has the upper-case form of [/], and only [:] that of [:]. *)
Lemma upper_slash (x : ascii) :
  Ascii.eqb (upper x) (upper "/") = true -> x = "/"%char.
Proof.
  destruct x as [[] [] [] [] [] [] [] []]; vm_compute; intros H;
    first [discriminate H | reflexivity].
Qed.

Lemma upper_colon (x : ascii) :
  Ascii.eqb (upper x) (upper ":") = true -> x = ":"%char.
Proof.
  destruct x as [[] [] [] [] [] [] [] []]; vm_compute; intros H;
    first [discriminate H | reflexivity].
Qed.

Lemma matches_slash (u : string) (c : captures) :
  Matches (Lit "/") u c -> u = "/" /\ c = [].
Proof.
  intros H. inversion H; subst. split; [|reflexivity].
  now rewrite (upper_slash _ H1).
Qed.

Lemma matches_colon (u : string) (c : captures) :
  Matches (Lit ":") u c -> u = ":" /\ c = [].
Proof.
  intros H. inversion H; subst. split; [|reflexivity].
  now rewrite (upper_colon _ H1).
Qed.

Lemma matches_class (member : ascii -> bool) (u : string) (c : captures) :
  Matches (PlusClass member) u c -> accepted member u = true /\ c = [].
Proof.
  intros H. inversion H; subst. split; [|reflexivity].
  unfold accepted. apply andb_true_iff. split; [|assumption].
  now apply negb_true_iff, String.eqb_neq.
Qed.

(** What a match of the expression is made of. *)
Lemma matches_expression (u : string) (c : captures) :
  Matches expression u c ->
  exists scheme host sep ns nm rest,
    u = address scheme host sep ns nm rest /\
    c = [ ("name", nm); ("namespace", ns);
          ("hostname", scheme +++ host +++ sep)%string ] /\
    isScheme scheme = true /\
    accepted hostMember host = true /\
    isSeparator sep = true /\
    accepted nameMember ns = true /\
    accepted nameMember nm = true.
Proof.
  intros H. unfold expression in H.
  inversion H as [| | | |? ? uh ut ch ct Hh Ht| | | | | |]; subst. clear H.
  inversion Hh as [| | | | | | | | | |? ? ? ch' Hh']; subst. clear Hh.
  inversion Hh' as [| | | |? ? us uhs cs chs Hs Hhs| | | | | |]; subst.
  clear Hh'.
  inversion Hs as [| | | | | | | | |? ? ? Hs'|]; subst. clear Hs.
  inversion Hhs as [| | | |? ? uho use cho cse Hho Hse| | | | | |]; subst.
  clear Hhs.
  inversion Hho as [| | | | | | | | |? ? ? Hho'|]; subst. clear Hho.
  apply matches_class in Hho' as [Hhost ->].
  inversion Hse as [| | | | | | | | |? ? ? Hse'|]; subst. clear Hse.
  inversion Ht as [| | | |? ? uns ut2 cns ct2 Hns Ht2| | | | | |]; subst.
  clear Ht.
  inversion Hns as [| | | | | | | | | |? ? ? cns' Hns']; subst. clear Hns.
  apply matches_class in Hns' as [Hnsp ->].
  inversion Ht2 as [| | | |? ? usl ut3 csl ct3 Hsl Ht3| | | | | |]; subst.
  clear Ht2.
  apply matches_slash in Hsl as [-> ->].
  inversion Ht3 as [| | | |? ? unm ue cnm ce Hnm He| | | | | |]; subst.
  clear Ht3.
  inversion Hnm as [| | | | | | | | | |? ? ? cnm' Hnm']; subst. clear Hnm.
  apply matches_class in Hnm' as [Hname ->].
  apply matches_unnamed in He; [subst ce | reflexivity].
  assert (Hscheme : isScheme us = true /\ cs = []).
  { unfold isScheme.
    inversion Hs' as [| | | | |? ? ? ? Hl|? ? ? ? Hr| | | |]; subst.
    - apply (matches_literal "git@") in Hl as [-> ->]. now split.
    - apply (matches_literal "https://") in Hr as [-> ->].
      split; [apply orb_true_r | reflexivity]. }
  destruct Hscheme as [Hscheme ->].
  assert (Hsep : isSeparator use = true /\ cse = []).
  { unfold isSeparator.
    inversion Hse' as [| | | | |? ? ? ? Hl|? ? ? ? Hr| | | |]; subst.
    - apply matches_slash in Hl as [-> ->]. now split.
    - apply matches_colon in Hr as [-> ->]. now split. }
  destruct Hsep as [Hsep ->].
  exists us, uho, use, uns, unm, ue. repeat split; try assumption.
  unfold address. now rewrite !append_assoc.
Qed.

End ExpressionFacts.

Module ParseFacts.
Import RegExp RegExpMatch RegExpFacts Expression ExpressionSpec
  ExpressionFacts PathFacts.

Lemma exec_here (r : regex) (s : string) (c : captures) :
  run captures r s [] (fun _ caps => Some caps) = Some c ->
  exec r s = Some c.
Proof. intros H. destruct s; simpl; now rewrite H. Qed.

Lemma run_literal (R : Type) (lit v rest : string) (caps : captures)
  (k : string -> captures -> option R) :
  sameFold v lit = true ->
  run R (literal lit) (v +++ rest) caps k = k rest caps.
Proof.
  revert v. induction lit as [|c lit IH]; intros v H.
  - destruct v; [reflexivity | discriminate].
  - destruct v as [|x v]; [discriminate|].
    simpl in H. apply andb_true_iff in H as [Hx Hv].
    simpl. rewrite Hx. now apply IH.
Qed.

Lemma plusClass_stops (R : Type) (member : ascii -> bool) (rest : string)
  (k : string -> option R) :
  stopsAt (classMatch member) rest = true ->
  plusClass R member rest k = None.
Proof.
  destruct rest as [|c rest]; [reflexivity|].
  simpl. intros H. apply negb_true_iff in H. now rewrite H.
Qed.

(** The class takes the whole run of its characters when what follows lets
    the match go through. *)
Lemma plusClass_maximal (R : Type) (member : ascii -> bool) (u rest : string)
  (k : string -> option R) (x : R) :
  accepted member u = true ->
  stopsAt (classMatch member) rest = true ->
  k rest = Some x ->
  plusClass R member (u +++ rest) k = Some x.
Proof.
  unfold accepted. intros Hu Hr Hk.
  apply andb_true_iff in Hu as [Hne Hu].
  destruct u as [|c u]; [discriminate|]. clear Hne.
  revert c Hu. induction u as [|d u IH]; intros c Hu;
    simpl in Hu; apply andb_true_iff in Hu as [Hc Hu].
  - simpl. now rewrite Hc, (plusClass_stops R member rest k Hr).
  - change (String c (String d u) +++ rest)%string
      with (String c (String d u +++ rest)).
    cbn [plusClass]. now rewrite Hc, (IH d Hu).
Qed.

Lemma run_named_class (R : Type) (n : string) (member : ascii -> bool)
  (u rest : string) (caps : captures) (k : string -> captures -> option R)
  (x : R) :
  accepted member u = true ->
  stopsAt (classMatch member) rest = true ->
  k rest ((n, u) :: caps) = Some x ->
  run R (Named n (PlusClass member)) (u +++ rest) caps k = Some x.
Proof.
  intros Hu Hr Hk. simpl.
  apply plusClass_maximal; [assumption | assumption|].
  now rewrite taken_append.
Qed.

Lemma run_separator (R : Type) (sep rest : string) (caps : captures)
  (k : string -> captures -> option R) :
  isSeparator sep = true ->
  run R (Group (Alt (Lit "/") (Lit ":"))) (sep +++ rest) caps k
  = k rest caps.
Proof.
  unfold isSeparator. intros H. apply orb_true_iff in H as [H|H];
    apply String.eqb_eq in H; subst sep.
  - simpl. change (Ascii.eqb (upper "/") (upper "/")) with true.
    cbn iota. now destruct (k rest caps).
  - simpl. change (Ascii.eqb (upper ":") (upper "/")) with false.
    change (Ascii.eqb (upper ":") (upper ":")) with true. reflexivity.
Qed.

Lemma run_scheme (R : Type) (scheme rest : string) (caps : captures)
  (k : string -> captures -> option R) (x : R) :
  isScheme scheme = true ->
  k rest caps = Some x ->
  run R (Group (Alt (literal "git@") (literal "https://")))
    (scheme +++ rest) caps k = Some x.
Proof.
  unfold isScheme. intros H Hk. apply orb_true_iff in H as [H|H].
  - change (run R (Group (Alt (literal "git@") (literal "https://")))
              (scheme +++ rest) caps k)
      with (match run R (literal "git@") (scheme +++ rest) caps k with
            | Some y => Some y
            | None => run R (literal "https://") (scheme +++ rest) caps k
            end).
    now rewrite (run_literal R "git@" scheme rest caps k H), Hk.
  - change (run R (Group (Alt (literal "git@") (literal "https://")))
              (scheme +++ rest) caps k)
      with (match run R (literal "git@") (scheme +++ rest) caps k with
            | Some y => Some y
            | None => run R (literal "https://") (scheme +++ rest) caps k
            end).
    rewrite (run_literal R "https://" scheme rest caps k H), Hk.
    destruct scheme as [|c scheme]; [discriminate|].
    simpl in H. apply andb_true_iff in H as [Hc _].
    apply Ascii.eqb_eq in Hc. simpl. rewrite Hc. reflexivity.
Qed.

(** Without a named group, a match leaves the captures as they were. *)
Lemma plusClass_neutral (member : ascii -> bool) (s : string)
  (k : string -> option captures) (caps : captures) :
  (forall rest, k rest = Some caps \/ k rest = None) ->
  plusClass captures member s k = Some caps \/
  plusClass captures member s k = None.
Proof.
  intros Hk. induction s as [|c s IH]; simpl; [now right|].
  destruct (classMatch member c); [|now right].
  destruct IH as [-> | ->]; [now left | apply Hk].
Qed.

Lemma run_unnamed (r : regex) :
  unnamed r = true ->
  forall (s : string) (caps : captures)
         (k : string -> captures -> option captures),
    (forall s' c, k s' c = Some c \/ k s' c = None) ->
    run captures r s caps k = Some caps \/ run captures r s caps k = None.
Proof.
  induction r as [|c0| |member|r1 IH1 r2 IH2|r1 IH1 r2 IH2|r IH|r IH|n r IH];
    simpl; intros Hn s caps k Hk; try discriminate.
  - apply Hk.
  - destruct s as [|a s]; [now right|].
    destruct (Ascii.eqb (upper a) (upper c0)); [apply Hk | now right].
  - destruct s as [|a s]; [now right|].
    destruct (lineTerminator a); [now right | apply Hk].
  - apply plusClass_neutral. intros rest. apply Hk.
  - apply andb_true_iff in Hn as [Hn1 Hn2].
    apply (IH1 Hn1). intros s' c. now apply (IH2 Hn2).
  - apply andb_true_iff in Hn as [Hn1 Hn2].
    destruct (IH1 Hn1 s caps k Hk) as [-> | ->];
      [now left | now apply (IH2 Hn2)].
  - destruct (IH Hn s caps k Hk) as [-> | ->]; [now left | apply Hk].
  - now apply IH.
Qed.

(** The end of the expression matches whatever follows the name, and adds
    nothing to the groups. *)
Lemma run_ending (s : string) (caps : captures) :
  run captures ending s caps (fun _ c => Some c) = Some caps.
Proof.
  unfold ending.
  set (last := fun (s1 : string) (c1 : captures) =>
                 run captures (Group (Opt (Group (Lit "/")))) s1 c1
                   (fun _ c => Some c)).
  assert (Hlast : forall s1 c1, last s1 c1 = Some c1).
  { intros s1 c1. unfold last. simpl.
    destruct s1 as [|a s1]; [reflexivity|].
    now destruct (Ascii.eqb (upper a) (upper "/")). }
  change (run captures
            (Seq (Opt (Group (Seq Dot (literal "git"))))
                 (Group (Opt (Group (Lit "/"))))) s caps
            (fun _ c => Some c))
    with (match run captures (Group (Seq Dot (literal "git"))) s caps last
          with
          | Some y => Some y
          | None => last s caps
          end).
  destruct (run_unnamed (Group (Seq Dot (literal "git"))) eq_refl s caps last)
    as [-> | ->];
    [intros s' c; left; apply Hlast | reflexivity | apply Hlast].
Qed.

Lemma accepted_stops_host (sep rest : string) :
  isSeparator sep = true ->
  stopsAt (classMatch hostMember) (sep +++ rest) = true.
Proof.
  unfold isSeparator. intros H. apply orb_true_iff in H as [H|H];
    apply String.eqb_eq in H; subst sep; reflexivity.
Qed.

Lemma run_seq (R : Type) (r1 r2 : regex) (s : string) (caps : captures)
  (k : string -> captures -> option R) :
  run R (Seq r1 r2) s caps k
  = run R r1 s caps (fun s1 caps1 => run R r2 s1 caps1 k).
Proof. reflexivity. Qed.

Lemma run_named (R : Type) (n : string) (r : regex) (s : string)
  (caps : captures) (k : string -> captures -> option R) :
  run R (Named n r) s caps k
  = run R r s caps (fun s1 caps1 => k s1 ((n, taken s s1) :: caps1)).
Proof. reflexivity. Qed.

Lemma run_group (R : Type) (r : regex) (s : string) (caps : captures)
  (k : string -> captures -> option R) :
  run R (Group r) s caps k = run R r s caps k.
Proof. reflexivity. Qed.

Lemma run_plus (R : Type) (member : ascii -> bool) (s : string)
  (caps : captures) (k : string -> captures -> option R) :
  run R (PlusClass member) s caps k
  = plusClass R member s (fun rest => k rest caps).
Proof. reflexivity. Qed.

Lemma run_lit (R : Type) (c : ascii) (rest : string) (caps : captures)
  (k : string -> captures -> option R) :
  run R (Lit c) (String c rest) caps k = k rest caps.
Proof. simpl. now rewrite Ascii.eqb_refl. Qed.

(** The matcher on an address, from its start. *)
Lemma run_address (scheme host sep ns nm rest : string) :
  isScheme scheme = true ->
  accepted hostMember host = true ->
  isSeparator sep = true ->
  accepted nameMember ns = true ->
  accepted nameMember nm = true ->
  stopsAt (classMatch nameMember) rest = true ->
  run captures expression (address scheme host sep ns nm rest) []
    (fun _ c => Some c)
  = Some [ ("name", nm); ("namespace", ns);
           ("hostname", scheme +++ host +++ sep)%string ].
Proof.
  intros Hs Hh Hp Hns Hnm Hr. unfold expression, address.
  rewrite run_seq, run_named, run_seq.
  apply run_scheme; [assumption|]. cbv beta.
  rewrite run_seq, run_group, run_plus.
  apply plusClass_maximal;
    [assumption | now apply accepted_stops_host |]. cbv beta.
  rewrite run_separator by assumption.
  replace (taken (scheme +++ host +++ sep +++ ns +++ "/" +++ nm +++ rest)
             (ns +++ "/" +++ nm +++ rest))
    with (scheme +++ host +++ sep)%string
    by (rewrite <- (taken_append (scheme +++ host +++ sep)
                      (ns +++ "/" +++ nm +++ rest));
        now rewrite !append_assoc).
  rewrite run_seq, run_named, run_plus.
  change ("/" +++ nm +++ rest)%string with (String "/" (nm +++ rest)).
  apply plusClass_maximal; [assumption | reflexivity |]. cbv beta.
  rewrite taken_append, run_seq, run_lit, run_seq, run_named, run_plus.
  apply plusClass_maximal; [assumption | assumption |]. cbv beta.
  rewrite taken_append. apply run_ending.
Qed.

Lemma sameFold_starts (v lit rest : string) :
  sameFold v lit = true -> startsWithFold (v +++ rest) lit = true.
Proof.
  revert v. induction lit as [|c lit IH]; intros v H;
    [now destruct (v +++ rest)%string|].
  destruct v as [|x v]; [discriminate|].
  simpl in *. apply andb_true_iff in H as [Hx Hv].
  now rewrite Hx, (IH v Hv).
Qed.

Lemma containsFold_append (pre v lit rest : string) :
  sameFold v lit = true ->
  containsFold (pre +++ v +++ rest) lit = true.
Proof.
  intros H. induction pre as [|a pre IH].
  - change ("" +++ v +++ rest)%string with (v +++ rest)%string.
    pose proof (sameFold_starts v lit rest H) as Hst.
    destruct (v +++ rest)%string; cbn [containsFold]; now rewrite Hst.
  - cbn [append containsFold]. rewrite IH. apply orb_true_r.
Qed.

(** A part that the name class accepts is a base name, and a plain
    argument for [git]. *)
Lemma nameMember_chars (c : ascii) :
  classMatch nameMember c = true ->
  Ascii.eqb c "/" = false /\ Ascii.eqb c "." = false /\
  forallb (fun e => negb (Ascii.eqb c e)) (" "%char :: Clone.escapes) = true.
Proof.
  destruct c as [[] [] [] [] [] [] [] []]; vm_compute; intros H;
    first [discriminate H | repeat split].
Qed.

Lemma accepted_name_sepFree (nm : string) :
  allChars (classMatch nameMember) nm = true -> Path.sepFree nm = true.
Proof.
  induction nm as [|c nm IH]; simpl; [reflexivity|].
  intros H. apply andb_true_iff in H as [Hc Hn].
  destruct (nameMember_chars c Hc) as (Hs & _).
  unfold Path.sep. now rewrite Hs, (IH Hn).
Qed.

Lemma accepted_name_occurrences (nm : string) (e : ascii) :
  allChars (classMatch nameMember) nm = true ->
  In e (" "%char :: Clone.escapes) ->
  Str.occurrences e nm = 0.
Proof.
  intros H He. induction nm as [|c nm IH]; simpl; [reflexivity|].
  simpl in H. apply andb_true_iff in H as [Hc Hn].
  destruct (nameMember_chars c Hc) as (_ & _ & Hf).
  rewrite forallb_forall in Hf. specialize (Hf e He).
  apply negb_true_iff in Hf. now rewrite Hf, (IH Hn).
Qed.

Lemma accepted_name_baseName (nm : string) :
  accepted nameMember nm = true ->
  Path.baseName nm = true /\ plainArgument nm = true.
Proof.
  unfold accepted. intros H. apply andb_true_iff in H as [Hne Hall].
  split.
  - unfold Path.baseName. rewrite Hne, (accepted_name_sepFree nm Hall).
    destruct nm as [|c nm]; [discriminate|].
    simpl in Hall. apply andb_true_iff in Hall as [Hc _].
    destruct (nameMember_chars c Hc) as (_ & Hd & _).
    assert (Hdot : (String c nm =? ".")%string = false).
    { simpl. now rewrite Hd. }
    assert (Hdots : (String c nm =? "..")%string = false).
    { simpl. now rewrite Hd. }
    now rewrite Hdot, Hdots.
  - unfold plainArgument. apply forallb_forall. intros e He.
    apply Nat.eqb_eq. now apply accepted_name_occurrences.
Qed.

Lemma Parse_name (s : string) (a : Attributes) :
  Parse s = Some a ->
  exists nm, name a = Some nm /\ accepted nameMember nm = true.
Proof.
  unfold Parse. destruct (exec expression s) as [caps|] eqn:E;
    [|discriminate].
  intros [= <-].
  apply exec_sound in E as (pre & u & tail & -> & Hm).
  apply matches_expression in Hm
    as (scheme & host & sep & ns & nm & rest & -> & -> & H).
  exists nm. split; [reflexivity | apply H].
Qed.

(** Resolving a base name appends it to the segments of the working
    directory. *)
Lemma resolvedSegments_single (cwd n : string) :
  Path.baseName n = true ->
  Path.resolvedSegments cwd [n] = Path.resolvedSegments cwd [] ++ [n].
Proof.
  intros Hn. unfold Path.resolvedSegments.
  change (rev [n] ++ [cwd]) with (n :: (rev [] ++ [cwd])).
  destruct (baseName_parts _ Hn) as (Hne & _).
  apply String.eqb_neq in Hne.
  rewrite resolveLoop_relative by (try assumption; now apply baseName_relative).
  rewrite resolveLoop_acc. cbn [fst].
  rewrite stack_terminated_child;
    [reflexivity | apply resolveLoop_terminated; now left | assumption].
Qed.


(** X17.  The name that [Parse] returns, which the strategies take for
    directory when none is given, is a base name: not empty, not [.] nor
    [..], without [/]; and it holds no space and none of [$ { } ( )]. *)
Theorem Parse_name_is_a_base_name (s : string) (a : Attributes) :
  Parse s = Some a ->
  exists nm,
    name a = Some nm /\
    Path.baseName nm = true /\
    plainArgument nm = true.
Proof.
  unfold Parse. destruct (exec expression s) as [caps|] eqn:E;
    [|discriminate].
  intros [= <-].
  apply exec_sound in E as (pre & u & tail & -> & Hm).
  apply matches_expression in Hm
    as (scheme & host & sep & ns & nm & rest & -> & -> & H).
  destruct H as (_ & _ & _ & _ & Hnm).
  exists nm. split; [reflexivity|]. now apply accepted_name_baseName.
Qed.

(** X18.  An address that holds neither [git@] nor [https://], in any case
    of the letters, makes [Parse] throw: the expression does not match and
    [groups] is read off [null].  So it is for every [http://] or [ssh://]
    address without such a part. *)
Theorem Parse_throws_without_scheme (s : string) :
  containsFold s "git@" = false ->
  containsFold s "https://" = false ->
  Parse s = None.
Proof.
  intros Hg Hh. destruct (Parse s) as [a|] eqn:E; [|reflexivity].
  unfold Parse in E. destruct (exec expression s) as [caps|] eqn:Ex;
    [|discriminate].
  apply exec_sound in Ex as (pre & u & tail & -> & Hm).
  apply matches_expression in Hm
    as (scheme & host & sep & ns & nm & rest & -> & _ & Hs & _).
  unfold isScheme in Hs. unfold address in *.
  rewrite !append_assoc in Hg, Hh.
  apply orb_true_iff in Hs as [Hs|Hs].
  - now rewrite (containsFold_append pre scheme "git@" _ Hs) in Hg.
  - now rewrite (containsFold_append pre scheme "https://" _ Hs) in Hh.
Qed.

(** X19.  On an address that starts with a scheme, a host, a separator, a
    namespace, a [/] and a name, [Parse] returns these parts, whatever
    follows the name, provided it does not go on with a character of the
    name: a [.git], a [/], a further path are dropped. *)
Theorem Parse_of_address (scheme host sep ns nm rest : string) :
  isScheme scheme = true ->
  accepted hostMember host = true ->
  isSeparator sep = true ->
  accepted nameMember ns = true ->
  accepted nameMember nm = true ->
  stopsAt (classMatch nameMember) rest = true ->
  Parse (address scheme host sep ns nm rest)
  = Some {| hostname := Some (scheme +++ host +++ sep)%string;
            namespace := Some ns;
            name := Some nm |}.
Proof.
  intros Hs Hh Hp Hns Hnm Hr. unfold Parse.
  now rewrite (exec_here _ _ _ (run_address _ _ _ _ _ _ Hs Hh Hp Hns Hnm Hr)).
Qed.

End ParseFacts.

Section StrategyFacts.

Context {World : Type} {FS : FileSystem World}
        {Tree : TreeContract World}.

Import Expression.

Lemma location_child (n : string) :
  Path.baseName n = true -> location n = location "" ++ [n].
Proof.
  intros Hn. unfold location.
  rewrite !(PathFacts.segments_resolve _ _ tree_cwd).
  now rewrite ParseFacts.resolvedSegments_single.
Qed.

(** X20.  When no directory is given to a strategy, or an empty one, the
    directory it removes before cloning is the name that [Parse] returns,
    and it names an entry of the working directory, whatever the address
    of the repository is.  When that entry does not exist, or is reached
    without symbolic link, the call of [Remove] that the strategy makes
    changes nothing outside that entry. *)
Theorem default_directory_stays_in_working_directory (fuel : nat)
  (repository : string) (directory : option string) (a : Attributes)
  (w : World) :
  Parse repository = Some a ->
  Clone.given directory = false ->
  exists nm,
    Strategy.chosen directory a = Some nm /\
    Path.baseName nm = true /\
    location nm = location "" ++ [nm] /\
    (probe w nm = false \/ physical w nm ->
     forall l, ~ Path.prefix (location "" ++ [nm]) l ->
               untouched l w (Remove fuel nm w)).
Proof.
  intros Hp Hg. apply ParseFacts.Parse_name in Hp as (nm & Hn & Ha).
  apply ParseFacts.accepted_name_baseName in Ha as [Hb _].
  exists nm. unfold Strategy.chosen. rewrite Hg.
  split; [exact Hn|]. split; [exact Hb|].
  split; [now apply location_child|].
  rewrite <- (location_child nm Hb).
  intros [Habsent | Hphys] l Hl.
  - unfold untouched. now rewrite (Remove_absent_run _ _ _ Habsent).
  - now apply Remove_frame.
Qed.

End StrategyFacts.

(** ** The further properties on the example worlds and inputs *)

Section FurtherRuns.

Import MemFS MemFSFacts Str Clone Cli RegExp Expression ExpressionSpec.

#[local] Existing Instance ci.
#[local] Existing Instance ci_contract.
#[local] Existing Instance MemFSTree.ci_tree.

Lemma purge_failure_is_fatal_witness :
  probe stuck "root" = true /\
  fs_readdir stuck "root" = inr [entry "f" DT_REG] /\
  AllSettled (clean 3) (remap "root" [entry "f" DT_REG]) stuck stuck
    (retryTrace "/home/ci/root/f") /\
  fs_rm stuck "root" purgeOptions = (Some (errno "EBUSY" "rm"), stuck) /\
  Remove 3 "root" stuck =
  (Uncaught (errno "EBUSY" "rm"), stuck,
   prologue "root" ++ FsReaddir "root"
     :: retryTrace "/home/ci/root/f" ++ [FsRm "root" purgeOptions]).
Proof.
  assert (Hs : AllSettled (clean 3) (remap "root" [entry "f" DT_REG])
                 stuck stuck (retryTrace "/home/ci/root/f")).
  { exact (settled_cons (clean 3) (descriptorIn "root" "f" DT_REG) []
             stuck stuck (retryTrace "/home/ci/root/f") stuck []
             eq_refl (settled_nil _ _)). }
  split; [reflexivity|]. split; [reflexivity|]. split; [exact Hs|].
  split; [reflexivity|].
  apply (purge_failure_is_fatal 3 "root" stuck [entry "f" DT_REG] stuck
           (retryTrace "/home/ci/root/f") (errno "EBUSY" "rm") stuck);
    [reflexivity | reflexivity | exact Hs | reflexivity].
Defined.

Lemma leaf_discipline_witness :
  directory (properties (descriptorIn "root" "f" DT_REG)) = false /\
  count isUnlink
    (traceOf (clean 3 (descriptorIn "root" "f" DT_REG) stuck)) <= 1 /\
  count isForcedRemoval
    (traceOf (clean 3 (descriptorIn "root" "f" DT_REG) stuck)) <= 1 /\
  (count isForcedRemoval
     (traceOf (clean 3 (descriptorIn "root" "f" DT_REG) stuck)) = 1 <->
   probe stuck (path (descriptorIn "root" "f" DT_REG)) = true /\
   exists e,
     fst (fs_unlink stuck (path (descriptorIn "root" "f" DT_REG)))
     = Some e) /\
  (probe stuck (path (descriptorIn "root" "f" DT_REG)) = true ->
   outcomeOf (clean 3 (descriptorIn "root" "f" DT_REG) stuck)
   = Resolved tt) /\
  count isPurge
    (traceOf (clean 3 (descriptorIn "root" "f" DT_REG) stuck)) = 0.
Proof.
  split; [reflexivity|].
  apply (leaf_discipline 3 (descriptorIn "root" "f" DT_REG) stuck).
  reflexivity.
Defined.

Lemma traversal_leaves_directory_in_place_witness :
  fs_readdir mixed "root" = inr mixedListing /\
  untouched (location "root") mixed
    (forEach (remap "root" mixedListing) (clean 3) mixed) /\
  (forall f, In f mixedListing -> isDirectory f = true ->
     forall fuel' (w0 : World),
       untouched (location (path (descriptorOf "root" f))) w0
         (clean fuel' (descriptorOf "root" f) w0)).
Proof.
  split; [reflexivity|].
  apply (traversal_leaves_directory_in_place 3 "root" mixed mixedListing).
  reflexivity.
Defined.

Lemma Reader_listing_failure_witness :
  probe locked "/locked-dir" = true /\
  fs_readdir locked "/locked-dir" = inl (errno "EACCES" "scandir") /\
  ReadDirectory.Reader "/locked-dir" locked
  = (Uncaught (errno "EACCES" "scandir"), locked,
     [FsRealpath "/locked-dir"; FsReaddir "/locked-dir"]).
Proof.
  split; [reflexivity|]. split; [reflexivity|].
  apply (Reader_listing_failure "/locked-dir" locked
           (errno "EACCES" "scandir")); reflexivity.
Defined.

Lemma Reader_agrees_with_remap_witness :
  probe mixed "root" = true /\
  fs_readdir mixed "root" = inr mixedListing /\
  ReadDirectory.Reader "root" mixed =
    (Resolved (Some (map path (remap "root" mixedListing))), mixed,
     [FsRealpath "root"; FsReaddir "root"]) /\
  Forall2 (fun f p => location p = location "root" ++ [dirent_name f])
          mixedListing (map path (remap "root" mixedListing)).
Proof.
  split; [reflexivity|]. split; [reflexivity|].
  apply (Reader_agrees_with_remap "root" mixed mixedListing); reflexivity.
Defined.

Lemma options_of_plain_arguments_witness :
  plainArgument "https://github.com/iac-factory/git-clone.git" = true /\
  plainArgument "test" = true /\
  plainArgument "main" = true /\
  options "https://github.com/iac-factory/git-clone.git"
    (Some "test") (Some "main")
  = partials "https://github.com/iac-factory/git-clone.git"
      (Some "test") (Some "main") /\
  argv "https://github.com/iac-factory/git-clone.git"
    (Some "test") (Some "main")
  = "git" :: partials "https://github.com/iac-factory/git-clone.git"
               (Some "test") (Some "main").
Proof.
  split; [reflexivity|]. split; [reflexivity|]. split; [reflexivity|].
  apply (options_of_plain_arguments
           "https://github.com/iac-factory/git-clone.git"
           (Some "test") (Some "main"));
    [reflexivity | intros d [= <-]; reflexivity
     | intros b [= <-]; reflexivity].
Defined.

Lemma options_remove_first_occurrence_only_witness :
  In "$"%char escapes /\
  occurrences "$"
    (join " " (options "https://host/a/b" (Some "$(id)$(id)") None))
  = pred (occurrences "$"
            (join " " (partials "https://host/a/b" (Some "$(id)$(id)")
                         None))) /\
  list_sum (map (occurrences "$")
              (argv "https://host/a/b" (Some "$(id)$(id)") None))
  = pred (list_sum (map (occurrences "$")
                      (partials "https://host/a/b" (Some "$(id)$(id)")
                         None))).
Proof.
  split; [left; reflexivity|].
  apply (options_remove_first_occurrence_only "https://host/a/b"
           (Some "$(id)$(id)") None "$"%char).
  left; reflexivity.
Defined.

Lemma flags_depend_on_arguments_only_witness :
  (forall x, In x ["-s"; "--debug"] <-> In x ["--debug"; "-s"; "-s"]) /\
  CLI ("node" :: "index.js" :: ["-s"; "--debug"])
  = CLI ("ts-node" :: "index.ts" :: ["--debug"; "-s"; "-s"]) /\
  Debug ("node" :: "index.js" :: ["-s"; "--debug"])
  = Debug ("ts-node" :: "index.ts" :: ["--debug"; "-s"; "-s"]).
Proof.
  assert (H : forall x, In x ["-s"; "--debug"]
                        <-> In x ["--debug"; "-s"; "-s"])
    by (intros x; simpl; tauto).
  split; [exact H|].
  apply (flags_depend_on_arguments_only "node" "index.js" "ts-node"
           "index.ts" ["-s"; "--debug"] ["--debug"; "-s"; "-s"] H).
Defined.

Lemma debug_flag_is_consumed_witness :
  "node" <> "--debug" /\ "index.js" <> "--debug" /\
  (Debug ("node" :: "index.js" :: ["--debug"; "--single"]) = true
   <-> In "--debug" ["--debug"; "--single"]) /\
  argvAfter ("node" :: "index.js" :: ["--debug"; "--single"])
  = ["node"; "index.js"] /\
  Clone.selfTest
    (argvAfter ("node" :: "index.js" :: ["--debug"; "--single"])) = false.
Proof.
  split; [discriminate|]. split; [discriminate|].
  apply (debug_flag_is_consumed "node" "index.js" ["--debug"; "--single"]);
    discriminate.
Defined.


Lemma Parse_name_is_a_base_name_witness :
  Parse "git@github.com:iac-factory/git-clone.git"
  = Some {| hostname := Some "git@github.com:";
            namespace := Some "iac-factory";
            name := Some "git-clone" |} /\
  exists nm,
    Some "git-clone" = Some nm /\
    Path.baseName nm = true /\
    plainArgument nm = true.
Proof.
  split; [reflexivity|].
  apply (ParseFacts.Parse_name_is_a_base_name
           "git@github.com:iac-factory/git-clone.git"
           {| hostname := Some "git@github.com:";
              namespace := Some "iac-factory";
              name := Some "git-clone" |}).
  reflexivity.
Defined.

Lemma Parse_throws_without_scheme_witness :
  containsFold "http://github.com/iac-factory/git-clone.git" "git@" = false /\
  containsFold "http://github.com/iac-factory/git-clone.git" "https://"
  = false /\
  Parse "http://github.com/iac-factory/git-clone.git" = None.
Proof.
  split; [reflexivity|]. split; [reflexivity|].
  apply (ParseFacts.Parse_throws_without_scheme
           "http://github.com/iac-factory/git-clone.git"); reflexivity.
Defined.

Lemma Parse_of_address_witness :
  isScheme "https://" = true /\
  accepted hostMember "github.com" = true /\
  isSeparator "/" = true /\
  accepted nameMember "iac-factory" = true /\
  accepted nameMember "git-clone" = true /\
  stopsAt (classMatch nameMember) ".git" = true /\
  Parse (address "https://" "github.com" "/" "iac-factory" "git-clone" ".git")
  = Some {| hostname := Some "https://github.com/";
            namespace := Some "iac-factory";
            name := Some "git-clone" |}.
Proof.
  repeat (split; [reflexivity|]).
  apply (ParseFacts.Parse_of_address "https://" "github.com" "/"
           "iac-factory" "git-clone" ".git"); reflexivity.
Defined.

Lemma default_directory_stays_in_working_directory_witness :
  Parse "https://github.com/iac-factory/root.git"
  = Some {| hostname := Some "https://github.com/";
            namespace := Some "iac-factory";
            name := Some "root" |} /\
  Clone.given (Some "") = false /\
  physical mixed "root" /\
  exists nm,
    Strategy.chosen (Some "")
      {| hostname := Some "https://github.com/";
         namespace := Some "iac-factory";
         name := Some "root" |} = Some nm /\
    Path.baseName nm = true /\
    location nm = location "" ++ [nm] /\
    (probe mixed nm = false \/ physical mixed nm ->
     forall l, ~ Path.prefix (location "" ++ [nm]) l ->
               untouched l mixed (Remove 3 nm mixed)).
Proof.
  split; [reflexivity|]. split; [reflexivity|]. split; [reflexivity|].
  apply (default_directory_stays_in_working_directory 3
           "https://github.com/iac-factory/root.git" (Some "")
           {| hostname := Some "https://github.com/";
              namespace := Some "iac-factory";
              name := Some "root" |} mixed); reflexivity.
Defined.

End FurtherRuns.
